(** * Image Creator: batch sequencer, text fit engine and render pipeline

    A shallow embedding of [src/corel.py] (the ranges-capable variant) and
    [src/corel_text_pro.py] (the auto-fit / text-mode variant), followed by
    the properties of the specification checked against it.

    Conventions of the embedding:
    - Python [int] is [Z]; Python [float] is the IEEE-754 binary64 type
      [PrimFloat.float], with [/] and [*] the primitive operations;
    - Python [str] is [string]; the model covers ASCII text (code points
      below 128 keep their Python meaning, no Unicode digit or space tables);
    - a raised exception is the [Raise] constructor of [result];
    - the Qt signals of the worker thread are the events of a trace. *)

From Stdlib Require Import ZArith List String Ascii Bool Lia Floats.
From Stdlib Require Import DecimalString DecimalPos DecimalZ.
From Stdlib Require Import Zpower.
From Equations Require Import Equations.
Import ListNotations.

Open Scope string_scope.
Open Scope Z_scope.

Set Warnings "-inexact-float".

(** ** Exceptions *)

Inductive exn : Type :=
| ValueError
| OverflowError
| ZeroDivisionError.

Inductive result (A : Type) : Type :=
| Ok (a : A)
| Raise (e : exn).

Arguments Ok {A} a.
Arguments Raise {A} e.

Definition bind {A B : Type} (m : result A) (k : A -> result B) : result B :=
  match m with
  | Ok a => k a
  | Raise e => Raise e
  end.

Notation "'let*' x ':=' m 'in' k" := (bind m (fun x => k))
  (at level 10, x pattern, m at level 100, k at level 200).

(** ** Python string primitives (ASCII) *)

Module PyStr.

Definition code (c : ascii) : Z := Z.of_nat (nat_of_ascii c).

(** [str.isspace] on one ASCII character: TAB..CR, FS..US and SPACE. *)
Definition isspace (c : ascii) : bool :=
  let n := code c in
  ((9 <=? n) && (n <=? 13)) || ((28 <=? n) && (n <=? 32)).

(** [Py_ISSPACE], the C-locale test that [int()] applies to an ASCII
    string: TAB..CR and SPACE only. *)
Definition c_isspace (c : ascii) : bool :=
  let n := code c in
  ((9 <=? n) && (n <=? 13)) || (n =? 32).

Definition isdigit (c : ascii) : bool :=
  let n := code c in (48 <=? n) && (n <=? 57).

Definition is_empty (s : string) : bool :=
  match s with
  | EmptyString => true
  | String _ _ => false
  end.

Fixpoint lstrip_by (sp : ascii -> bool) (s : string) : string :=
  match s with
  | EmptyString => EmptyString
  | String c r => if sp c then lstrip_by sp r else s
  end.

Fixpoint rstrip_by (sp : ascii -> bool) (s : string) : string :=
  match s with
  | EmptyString => EmptyString
  | String c r =>
      let r' := rstrip_by sp r in
      if sp c && is_empty r' then EmptyString else String c r'
  end.

(** [s.strip()] *)
Definition strip (s : string) : string := rstrip_by isspace (lstrip_by isspace s).

(** [c in s] for a one-character needle. *)
Fixpoint contains (c : ascii) (s : string) : bool :=
  match s with
  | EmptyString => false
  | String d r => Ascii.eqb c d || contains c r
  end.

(** [s.replace(old, new)] for one-character [old] and [new]. *)
Fixpoint replace (old new : ascii) (s : string) : string :=
  match s with
  | EmptyString => EmptyString
  | String c r => String (if Ascii.eqb c old then new else c) (replace old new r)
  end.

(** [s.split(sep)] for a one-character separator; never the empty list. *)
Fixpoint split (sep : ascii) (s : string) : list string :=
  match s with
  | EmptyString => [EmptyString]
  | String c r =>
      if Ascii.eqb c sep then EmptyString :: split sep r
      else match split sep r with
           | h :: t => String c h :: t
           | [] => [String c EmptyString]
           end
  end.

(** The digit body of an [int()] literal in base 10: digits, with single
    underscores allowed between two digits. [prev] tells whether the
    previous character was a digit. *)
Fixpoint int_digits (acc : Z) (prev : bool) (s : string) : option Z :=
  match s with
  | EmptyString => if prev then Some acc else None
  | String c r =>
      if isdigit c then int_digits (10 * acc + (code c - 48)) true r
      else if Ascii.eqb c "_"%char then
             (if prev then int_digits acc false r else None)
           else None
  end.

(** [sys.get_int_max_str_digits()] as CPython 3.11 sets it: the longest
    decimal text that [int()] reads and that [str()] prints. *)
Definition max_str_digits : Z := 4300.

(** The digits of a literal: signs, blanks and underscores do not count,
    leading zeros do. *)
Fixpoint count_digits (s : string) : Z :=
  match s with
  | EmptyString => 0
  | String c r => (if isdigit c then 1 else 0) + count_digits r
  end.

(** [int(s)] for a [str] argument: surrounding C whitespace is skipped,
    one optional sign, then the digit body; anything else is ValueError,
    and so is a literal of more than [max_str_digits] digits. *)
Definition int (s : string) : result Z :=
  let t := rstrip_by c_isspace (lstrip_by c_isspace s) in
  let parsed :=
    match t with
    | String "-"%char r => option_map Z.opp (int_digits 0 false r)
    | String "+"%char r => int_digits 0 false r
    | _ => int_digits 0 false t
    end in
  match parsed with
  | Some z => if max_str_digits <? count_digits t then Raise ValueError else Ok z
  | None => Raise ValueError
  end.

(** [str(z)] for an [int] of at most [max_str_digits] digits, that is for
    [|z| < 10 ^ max_str_digits]; above, [str] raises ValueError, which this
    function does not represent. *)
Definition of_int (z : Z) : string := NilZero.string_of_int (Z.to_int z).

(** [s.lower()] *)
Definition lower_char (c : ascii) : ascii :=
  let n := code c in
  if (65 <=? n) && (n <=? 90) then ascii_of_nat (nat_of_ascii c + 32) else c.

Fixpoint lower (s : string) : string :=
  match s with
  | EmptyString => EmptyString
  | String c r => String (lower_char c) (lower r)
  end.

(** [range(start, stop, step)] as a list; [step = 0] (ValueError in
    Python) is never passed by the callers below. *)
Definition range (start stop step : Z) : list Z :=
  let n :=
    if 0 <? step then
      (if start <? stop then (stop - start - 1) / step + 1 else 0)
    else if step <? 0 then
      (if stop <? start then (start - stop - 1) / (- step) + 1 else 0)
    else 0 in
  map (fun i => start + Z.of_nat i * step) (seq 0 (Z.to_nat n)).

End PyStr.

(** ** [sanitize_filename] (both variants, same body) *)

Definition dquote : ascii := ascii_of_nat 34.
Definition backslash : ascii := ascii_of_nat 92.

(** The characters of the raw literal tested by the source, in its order:
    two backslashes, slash, colon, star, question mark, double quote,
    less-than, greater-than and the vertical bar. *)
Definition forbidden_chars : string :=
  String backslash (String backslash
    (String "/"%char (String ":"%char (String "*"%char (String "?"%char
      (String dquote (String "<"%char (String ">"%char (String "|"%char
        EmptyString))))))))).

Fixpoint sanitize_filename (name : string) : string :=
  match name with
  | EmptyString => EmptyString
  | String c r =>
      if negb (PyStr.contains c forbidden_chars)
      then String c (sanitize_filename r)
      else sanitize_filename r
  end.

(** ** [parse_ranges] (corel.py) *)

(** One token of the comma separated list, after [strip]: the values it
    appends to [vals], or the exception it raises. *)
Definition parse_token (p0 : string) : result (list Z) :=
  let p := if PyStr.contains ":"%char p0 || PyStr.contains "x"%char p0
           then PyStr.replace "x"%char ":"%char p0 else p0 in
  if PyStr.contains "-"%char p then
    match firstn 2 (PyStr.split ":"%char p ++ ["1"]) with
    | [rng; st] =>
        match PyStr.split "-"%char rng with
        | [a; b] =>
            let* a := PyStr.int (PyStr.strip a) in
            let* b := PyStr.int (PyStr.strip b) in
            let* st := PyStr.int (PyStr.strip st) in
            let s := Z.max 1 st in
            if a <=? b then Ok (PyStr.range a (b + 1) s)
            else Ok (PyStr.range a (b - 1) (- s))
        | _ => Raise ValueError
        end
    | _ => Raise ValueError
    end
  else
    match PyStr.int p with
    | Ok v => Ok [v]
    | Raise _ => Ok []
    end.

(** The [for p in parts] loop: [vals] grows token by token and the first
    exception leaves the loop. *)
Fixpoint parse_tokens (parts : list string) (vals : list Z) : result (list Z) :=
  match parts with
  | [] => Ok vals
  | p :: rest =>
      let* vs := parse_token p in
      parse_tokens rest (vals ++ vs)
  end.

(** The final loop: [seen] is the Python set, [out] the result list. *)
Fixpoint dedupe (vals : list Z) (seen : list Z) (out : list Z) : list Z :=
  match vals with
  | [] => out
  | v :: rest =>
      if existsb (Z.eqb v) seen then dedupe rest seen out
      else dedupe rest (v :: seen) (out ++ [v])
  end.

Definition token_list (spec : string) : list string :=
  map PyStr.strip
    (filter (fun p => negb (PyStr.is_empty (PyStr.strip p)))
       (PyStr.split ","%char (PyStr.replace ";"%char ","%char spec))).

(** The expanded token stream, before de-duplication. *)
Definition expand_ranges (spec : string) : result (list Z) :=
  if PyStr.is_empty (PyStr.strip spec) then Ok []
  else parse_tokens (token_list spec) [].

Definition parse_ranges (spec : string) : result (list Z) :=
  let* vals := expand_ranges spec in
  Ok (dedupe vals [] []).

(** ** Python float primitives *)

Module PyFloat.

(** Conversion of an [int] operand to [float] (round to nearest even), for
    [|z| < 2 ^ 1024]: beyond, Python raises OverflowError where this
    function returns an infinity. *)
Definition of_int (z : Z) : float :=
  SF2Prim (binary_normalize prec emax z 0 false).

(** Nearest integer to [m * 2^e], ties to the even integer. *)
Definition round_half_even (m : positive) (e : Z) : Z :=
  if 0 <=? e then Z.pos m * 2 ^ e
  else
    let d := 2 ^ (- e) in
    let q := Z.pos m / d in
    let r := Z.pos m mod d in
    match 2 * r ?= d with
    | Lt => q
    | Gt => q + 1
    | Eq => if Z.even q then q else q + 1
    end.

(** [int(round(x))]: [round] with one argument already returns an [int];
    it raises on an infinity or a NaN. *)
Definition round (x : float) : result Z :=
  match Prim2SF x with
  | S754_zero _ => Ok 0
  | S754_finite s m e =>
      Ok (if s then - round_half_even m e else round_half_even m e)
  | S754_infinity _ => Raise OverflowError
  | S754_nan => Raise ValueError
  end.

End PyFloat.

(** ** [inches_from_unit] (both variants, same body) *)

Definition inches_from_unit (value : float) (unit : string) : float :=
  if String.eqb unit "inches" then value
  else if String.eqb unit "cm" then (value / 2.54)%float
  else if String.eqb unit "mm" then (value / 25.4)%float
  else value.

(** [max(1, int(round(inches_from_unit(v, unit) * dpi)))] *)
Definition target_px (v : float) (unit : string) (dpi : Z) : result Z :=
  let* r := PyFloat.round (inches_from_unit v unit * PyFloat.of_int dpi)%float in
  Ok (Z.max 1 r).

(** ** Images (the part of PIL the worker uses) *)

Definition rgba : Type := (Z * Z * Z * Z)%type.

Definition alpha (p : rgba) : Z := let '(_, _, _, a) := p in a.

(** An RGBA raster: [px x y] is meaningful for [0 <= x < width] and
    [0 <= y < height]. *)
Record image : Type := mkImage {
  width : Z;
  height : Z;
  px : Z -> Z -> rgba
}.

Definition in_bounds (im : image) (x y : Z) : bool :=
  (0 <=? x) && (x <? width im) && (0 <=? y) && (y <? height im).

(** [Image.new("RGBA", (w, h), color)], for a size that the library
    accepts: [Image.new] raises on a side beyond the range of a C [int],
    which this function does not represent. *)
Definition Image_new (w h : Z) (color : rgba) : image :=
  mkImage w h (fun _ _ => color).

(** [im.crop((left, top, right, bottom))]: pixels outside the source are
    transparent black. *)
Definition crop (im : image) (left top right bottom : Z) : image :=
  mkImage (right - left) (bottom - top)
    (fun x y => if in_bounds im (x + left) (y + top)
                then px im (x + left) (y + top) else (0, 0, 0, 0)).

(** [dst.paste(src, (ox, oy))] with no mask: the four bands of [src]
    replace those of [dst] over the pasted region. *)
Definition paste (dst src : image) (ox oy : Z) : image :=
  mkImage (width dst) (height dst)
    (fun x y => if in_bounds src (x - ox) (y - oy)
                then px src (x - ox) (y - oy) else px dst x y).

(** The environment of one worker: the resampling, blending and text
    primitives of the imaging library, and the font files on this machine. *)
Class ImageLib : Type := {
  font : Type;
(** [self._load_font(size)], which already falls back to the default font *)
  load_font : Z -> font;
(** [isinstance(font, ImageFont.FreeTypeFont)] *)
  is_freetype : font -> bool;
(** [draw.textbbox((0,0), text, font=font)] as (left, top, right, bottom) *)
  textbbox : string -> font -> Z * Z * Z * Z;
(** the LANCZOS resampler: pixel (x, y) of [im] resized to [w] x [h] *)
  resample : image -> Z -> Z -> Z -> Z -> rgba;
(** [im.thumbnail((w, h), LANCZOS)] applied to a copy *)
  thumbnail : image -> Z -> Z -> image;
(** one pixel of [paste] with a mask: mask alpha, old pixel, new pixel *)
  blend : Z -> rgba -> rgba -> rgba;
(** [draw.text((x, y), text, font=font, fill=fill)] *)
  draw_text : image -> Z -> Z -> string -> font -> rgba -> image
}.

Section Imaging.
Context {L : ImageLib}.

(** [im.resize((w, h), LANCZOS)]: a copy when the size does not change. *)
Definition resize (im : image) (w h : Z) : image :=
  if (width im =? w) && (height im =? h) then mkImage w h (px im)
  else mkImage w h (resample im w h).

(** [dst.paste(src, (ox, oy), mask=src)] *)
Definition paste_masked (dst src : image) (ox oy : Z) : image :=
  mkImage (width dst) (height dst)
    (fun x y => if in_bounds src (x - ox) (y - oy)
                then blend (alpha (px src (x - ox) (y - oy)))
                           (px dst x y) (px src (x - ox) (y - oy))
                else px dst x y).

(** [a / b] on two [int]s: true division. *)
Definition true_div (a b : Z) : result float :=
  if b =? 0 then Raise ZeroDivisionError
  else Ok (PyFloat.of_int a / PyFloat.of_int b)%float.

(** The [if self.scale_bg:] branch: the size to which the background is
    resized before the centre crop. *)
Definition cover_size (bg : image) (target_w target_h : Z) : result (Z * Z) :=
  let* bg_ratio := true_div (width bg) (height bg) in
  let* tgt_ratio := true_div target_w target_h in
  if (tgt_ratio <? bg_ratio)%float then
    let scale_h := target_h in
    let* q := true_div scale_h (height bg) in
    let* scale_w := PyFloat.round (PyFloat.of_int (width bg) * q)%float in
    Ok (scale_w, scale_h)
  else
    let scale_w := target_w in
    let* q := true_div scale_w (width bg) in
    let* scale_h := PyFloat.round (PyFloat.of_int (height bg) * q)%float in
    Ok (scale_w, scale_h).

(** The cover branch after the size is known: resize, centre crop, paste. *)
Definition cover_paste (canvas bg : image) (target_w target_h scale_w scale_h : Z)
  : image :=
  let bg_resized := resize bg scale_w scale_h in
  let left := (width bg_resized - target_w) / 2 in
  let top := (height bg_resized - target_h) / 2 in
  let bg_crop := crop bg_resized left top (left + target_w) (top + target_h) in
  paste canvas bg_crop 0 0.

(** The canvas of one value, background placed, before the text. *)
Definition compose_canvas (scale_bg : bool) (bg : image) (target_w target_h : Z)
  : result image :=
  let canvas := Image_new target_w target_h (255, 255, 255, 255) in
  if scale_bg then
    let* (scale_w, scale_h) := cover_size bg target_w target_h in
    Ok (cover_paste canvas bg target_w target_h scale_w scale_h)
  else
    let bg_thumb := thumbnail bg target_w target_h in
    let x := (target_w - width bg_thumb) / 2 in
    let y := (target_h - height bg_thumb) / 2 in
    Ok (paste_masked canvas bg_thumb x y).

(** ** Text fit engine *)

(** The variables the shrink loop reads and writes. *)
Record fit_state : Type := mkFit {
  cur : Z;
  fnt : font;
  t_w : Z;
  t_h : Z
}.

(** [bbox = draw.textbbox(...); t_w = bbox[2]-bbox[0]; t_h = bbox[3]-bbox[1]] *)
Definition measure (text : string) (f : font) : Z * Z :=
  let '(x0, y0, x1, y1) := textbbox text f in (x1 - x0, y1 - y0).

(** [draw.textbbox((x, y), text, font=font)]: the library adds the point to
    the box measured at the origin. It is the box of the pixels painted by
    [draw.text((x, y), text, font=font)], whose first two components are the
    offsets of the ink from the point handed to [draw.text]. *)
Definition ink_box (text : string) (f : font) (x y : Z) : Z * Z * Z * Z :=
  let '(l, t, r, b) := textbbox text f in (x + l, y + t, x + r, y + b).

Definition oversized (avail_w avail_h tw th : Z) : bool :=
  (avail_w <? tw) || (avail_h <? th).

(** The condition of the [while]. *)
Definition loop_guard (avail_w avail_h : Z) (st : fit_state) : bool :=
  oversized avail_w avail_h (t_w st) (t_h st) && (6 <? cur st).

(** The body of the [while]. *)
Definition shrink_step (text : string) (st : fit_state) : fit_state :=
  let cur' := cur st - 2 in
  let f := load_font cur' in
  let '(tw, th) := measure text f in
  mkFit cur' f tw th.

Equations? shrink_loop (text : string) (avail_w avail_h : Z) (st : fit_state)
  : fit_state by wf (Z.to_nat (cur st - 6)) lt :=
  shrink_loop text avail_w avail_h st
    with Sumbool.sumbool_of_bool (loop_guard avail_w avail_h st) => {
    | left _ => shrink_loop text avail_w avail_h (shrink_step text st);
    | right _ => st }.
Proof.
  unfold loop_guard in e. apply andb_prop in e. destruct e as [_ e].
  apply Z.ltb_lt in e. unfold shrink_step.
  destruct (measure text (load_font (cur st - 2))). simpl. lia.
Qed.

(** Measure, then shrink when oversized with a FreeType font. The result is
    the font used for drawing (and kept for the next value), the final
    measure, and the last point size tried when the loop was entered. *)
Definition fit_text (font_size : Z) (text : string) (avail_w avail_h : Z)
  (f : font) : fit_state :=
  let '(tw, th) := measure text f in
  if oversized avail_w avail_h tw th && is_freetype f
  then shrink_loop text avail_w avail_h (mkFit font_size f tw th)
  else mkFit font_size f tw th.

End Imaging.

(** ** The worker *)

(** A value of the sequence: an [int] in Numbers mode, the custom text in
    Text mode. *)
Inductive value : Type :=
| VInt (z : Z)
| VStr (s : string).

(** [str(val)] *)
Definition py_str (v : value) : string :=
  match v with
  | VInt z => PyStr.of_int z
  | VStr s => s
  end.

(** The attributes set by [CreatorWorker.__init__]; [ranges] is used by
    corel.py only, [mode] and [custom_text] by corel_text_pro.py only. *)
Record CreatorWorker : Type := mkWorker {
  output_folder : string;
  unit_ : string;
  width_val : float;
  height_val : float;
  dpi : Z;
  scale_bg : bool;
  font_size : Z;
  font_color : Z * Z * Z;
  halign : string;
  valign : string;
  pl : Z;
  pr : Z;
  pt : Z;
  pb : Z;
  prefix : string;
  suffix : string;
  mode : string;
  custom_text : string;
  start_count : Z;
  end_count : Z;
  step : Z;
  out_ext : string;
  outline : bool;
  base_name : string;
  ranges : list Z
}.

(** [x or default] on a string. *)
Definition str_or (x default : string) : string :=
  if PyStr.is_empty x then default else x.

(** What the outside world answers to one run. *)
Inductive bg_status : Type :=
| NotAFile
| Unreadable (msg : string)
| Readable (bg : image).

Record world : Type := mkWorld {
  (** [self.background_path] tested and opened *)
  background : bg_status;
  (** [self._stop] as read at the top of the loop once [n] values are done *)
  stop_at : nat -> bool;
  (** the exception text of the [save] of the value number [n], if it fails *)
  save_error : nat -> option string;
  (** the exception text of the report writer, if it fails *)
  excel_error : option string
}.

Record row : Type := mkRow {
  row_value : value;
  row_file_name : string;
  row_full_path : string;
  row_extension : string
}.

(** Signals emitted by the worker and its writes to the output folder. *)
Inductive event : Type :=
| Log (msg : string)
| Error (msg : string)
| StartEstimate (total : Z)
| Progress (processed total : Z)
| Preview (canvas : image)
| Done (folder : string)
| SaveFile (path fmt : string) (canvas : image)
| WriteExcel (path : string) (rows : list row).

(** How the [for] loop is left. *)
Inductive loop_exit : Type :=
| LoopEnd (processed : nat)
| Returned
| Raised (e : exn).

(** The outer handler of [run] emits [f"Worker exception: {e}\n{tb}"]: the
    message of the exception and the traceback depend on the call that
    raised and on the installation, and the trace keeps the class of the
    exception in their place. *)
Definition exn_name (e : exn) : string :=
  match e with
  | ValueError => "ValueError"
  | OverflowError => "OverflowError"
  | ZeroDivisionError => "ZeroDivisionError"
  end.

(** [s.startswith(c)] and [s.endswith(c)] for a one-character [c]. *)
Definition startswith (c : ascii) (s : string) : bool :=
  match s with
  | EmptyString => false
  | String d _ => Ascii.eqb d c
  end.

Fixpoint endswith (c : ascii) (s : string) : bool :=
  match s with
  | EmptyString => false
  | String d EmptyString => Ascii.eqb d c
  | String _ r => endswith c r
  end.

(** [os.path.join(a, b)] of posixpath. *)
Definition path_join (a b : string) : string :=
  if startswith "/"%char b then b
  else if PyStr.is_empty a || endswith "/"%char a then a ++ b
  else a ++ "/" ++ b.

(** [range(...)] of the simple mode, [step] already coerced. *)
Definition simple_values (start_count end_count step : Z) : list Z :=
  if start_count <=? end_count
  then PyStr.range start_count (end_count + 1) step
  else PyStr.range start_count (end_count - 1) (- step).

Definition save_format (out_ext : string) : string :=
  if String.eqb out_ext "png" then "PNG"
  else if String.eqb out_ext "tiff" then "TIFF" else "JPEG".

(** [int(round(max(0, t)))] for a float [t]. *)
Definition clamp_round (t : float) : result Z :=
  if (0 <? t)%float then PyFloat.round t else Ok 0.

(** One axis of the placement: [lo] and [hi] are the edges of the available
    rectangle, [first] and [last] the two non-centred alignments. *)
Definition place (align first last : string) (lo hi avail t : Z) : result Z :=
  if String.eqb align first then Ok (Z.max 0 lo)
  else if String.eqb align last then Ok (Z.max 0 (hi - t))
  else
    let* half := true_div (avail - t) 2 in
    clamp_round (PyFloat.of_int lo + half)%float.

Definition outline_offsets : list (Z * Z) :=
  [(-1, 0); (1, 0); (0, -1); (0, 1); (-1, -1); (1, 1); (-1, 1); (1, -1)].

Section Worker.
Context {L : ImageLib}.
Variable self : CreatorWorker.
Variable W : world.

(** The body of the loop from the canvas to the last [draw.text]: the
    finished canvas and the font left in the variable [font]. *)
Definition render_value (bg : image) (target_w target_h : Z) (text : string)
  (f : font) : result (image * font) :=
  let* canvas := compose_canvas (scale_bg self) bg target_w target_h in
  let x0 := pl self in
  let y0 := pt self in
  let x1 := target_w - pr self in
  let y1 := target_h - pb self in
  let avail_w := Z.max 1 (x1 - x0) in
  let avail_h := Z.max 1 (y1 - y0) in
  let st := fit_text (font_size self) text avail_w avail_h f in
  let* tx := place (halign self) "left" "right" x0 x1 avail_w (t_w st) in
  let* ty := place (valign self) "top" "bottom" y0 y1 avail_h (t_h st) in
  let '(r, g, b) := font_color self in
  let fill := (r, g, b, 255) in
  let canvas :=
    if outline self then
      fold_left (fun c o => draw_text c (tx + fst o) (ty + snd o) text (fnt st)
                              (0, 0, 0, 255))
        outline_offsets canvas
    else canvas in
  Ok (draw_text canvas tx ty text (fnt st) fill, fnt st).

(** The same body between the canvas and the drawing: the point handed to
    [draw.text], and the state in which the text fit leaves the font and
    the measure. *)
Definition text_origin (target_w target_h : Z) (text : string) (f : font)
  : result (Z * Z * fit_state) :=
  let x0 := pl self in
  let y0 := pt self in
  let x1 := target_w - pr self in
  let y1 := target_h - pb self in
  let avail_w := Z.max 1 (x1 - x0) in
  let avail_h := Z.max 1 (y1 - y0) in
  let st := fit_text (font_size self) text avail_w avail_h f in
  let* tx := place (halign self) "left" "right" x0 x1 avail_w (t_w st) in
  let* ty := place (valign self) "top" "bottom" y0 y1 avail_h (t_h st) in
  Ok (tx, ty, st).

Variable text_of : value -> string.
Variable file_name_of : value -> string.

Definition full_path_of (v : value) : string :=
  path_join (output_folder self) (sanitize_filename (file_name_of v)).

(** The [for val in count_values] loop, entered with [processed] values
    done. *)
Fixpoint run_loop (bg : image) (target_w target_h total : Z)
  (vals : list value) (processed : nat) (f : font) : list event * loop_exit :=
  match vals with
  | [] => ([], LoopEnd processed)
  | val :: rest =>
      if stop_at W processed then ([Log "Stop requested."], LoopEnd processed)
      else
        match render_value bg target_w target_h (text_of val) f with
        | Raise e => ([], Raised e)
        | Ok (canvas, f') =>
            let op := full_path_of val in
            let fmt := save_format (out_ext self) in
            match save_error W processed with
            | Some e =>
                ([Log ("Save failed " ++ op ++ ": " ++ e);
                  Error ("Save failed: " ++ e)], Returned)
            | None =>
                let '(tr, ex) :=
                  run_loop bg target_w target_h total rest (S processed) f' in
                (SaveFile op fmt canvas
                   :: Progress (Z.of_nat (S processed)) total
                   :: Preview canvas :: tr, ex)
            end
        end
  end.

(** The report block and the final [done]. *)
Definition write_report (count_values : list value) (processed : nat)
  : list event :=
  let rows :=
    map (fun v => mkRow v (file_name_of v) (full_path_of v) (out_ext self))
      (firstn processed count_values) in
  let excel_path := path_join (output_folder self) "created_images_report.xlsx" in
  (match rows with
   | [] => []
   | _ :: _ =>
       match excel_error W with
       | None => [WriteExcel excel_path rows; Log ("Excel: " ++ excel_path)]
       | Some e => [Log ("Excel error: " ++ e)]
       end
   end) ++ [Done (output_folder self)].

(** From [total = len(count_values)] to the end of [run]. *)
Definition run_values (bg : image) (target_w target_h : Z)
  (count_values : list value) : list event :=
  let total := Z.of_nat (List.length count_values) in
  let '(tr, ex) :=
    run_loop bg target_w target_h total count_values 0 (load_font (font_size self)) in
  StartEstimate total :: tr ++
    match ex with
    | LoopEnd processed => write_report count_values processed
    | Returned => []
    | Raised e => [Error ("Worker exception: " ++ exn_name e)]
    end.

End Worker.

(** [target_w] and [target_h] as computed from the measurements. *)
Definition target_size (self : CreatorWorker) : result (Z * Z) :=
  let* target_w := target_px (width_val self) (unit_ self) (dpi self) in
  let* target_h := target_px (height_val self) (unit_ self) (dpi self) in
  Ok (target_w, target_h).

Definition worker_exception (e : exn) : list event :=
  [Error ("Worker exception: " ++ exn_name e)].

(** *** corel.py *)

Module Corel.

(** [__init__]: the coercions applied to the arguments. *)
Definition init (a : CreatorWorker) : CreatorWorker :=
  mkWorker (output_folder a) (unit_ a) (width_val a) (height_val a)
    (Z.max 1 (dpi a)) (scale_bg a) (Z.max 4 (font_size a)) (font_color a)
    (halign a) (valign a)
    (Z.max 0 (pl a)) (Z.max 0 (pr a)) (Z.max 0 (pt a)) (Z.max 0 (pb a))
    (prefix a) (suffix a) (mode a) (custom_text a)
    (start_count a) (end_count a) (Z.max 1 (step a))
    (PyStr.lower (out_ext a)) (outline a) (str_or (base_name a) "created")
    (ranges a).

Definition count_values (self : CreatorWorker) : list value :=
  map VInt
    (match ranges self with
     | _ :: _ => ranges self
     | [] => simple_values (start_count self) (end_count self) (step self)
     end).

(** [text = f"{self.prefix}{val}{self.suffix}"] *)
Definition text_of (self : CreatorWorker) (val : value) : string :=
  prefix self ++ py_str val ++ suffix self.

(** [on = f"{sanitize_filename(self.base_name)}_{val}.{self.out_ext}"] *)
Definition file_name_of (self : CreatorWorker) (val : value) : string :=
  sanitize_filename (base_name self) ++ "_" ++ py_str val ++ "." ++ out_ext self.

Definition run {L : ImageLib} (self : CreatorWorker) (W : world) : list event :=
  match background W with
  | NotAFile => [Error "Background image not found."]
  | opened =>
      match target_size self with
      | Raise e => worker_exception e
      | Ok (target_w, target_h) =>
          Log ("Target: " ++ PyStr.of_int target_w ++ "x" ++ PyStr.of_int target_h
                 ++ " @ " ++ PyStr.of_int (dpi self) ++ " DPI")
          :: match opened with
             | Readable bg =>
                 run_values self W (text_of self) (file_name_of self)
                   bg target_w target_h (count_values self)
             | Unreadable msg => [Error ("Cannot open background: " ++ msg)]
             | NotAFile => []
             end
      end
  end.

End Corel.

(** *** corel_text_pro.py *)

Module CorelTextPro.

Definition init (a : CreatorWorker) : CreatorWorker :=
  mkWorker (output_folder a) (unit_ a) (width_val a) (height_val a)
    (Z.max 1 (dpi a)) (scale_bg a) (Z.max 4 (font_size a)) (font_color a)
    (halign a) (valign a)
    (Z.max 0 (pl a)) (Z.max 0 (pr a)) (Z.max 0 (pt a)) (Z.max 0 (pb a))
    (prefix a) (suffix a) (mode a) (custom_text a)
    (start_count a) (end_count a) (Z.max 1 (step a))
    (PyStr.lower (out_ext a)) (outline a) (str_or (base_name a) "created")
    (ranges a).

(** The auto-fit test on the rounded, clamped pixel sizes. *)
Definition auto_fit (target_w target_h : Z) : bool :=
  (target_w <=? 1) || (target_h <=? 1).

(** The canvas size the worker renders at, for a background of [bg_w] x
    [bg_h] pixels. *)
Definition canvas_size (self : CreatorWorker) (bg_w bg_h : Z) : result (Z * Z) :=
  let* (target_w, target_h) := target_size self in
  if auto_fit target_w target_h then Ok (bg_w, bg_h) else Ok (target_w, target_h).

Definition count_values (self : CreatorWorker) : list value :=
  if String.eqb (mode self) "Text" then [VStr (custom_text self)]
  else map VInt (simple_values (start_count self) (end_count self) (step self)).

(** [text = str(val) if self.mode == "Numbers" else self.custom_text] *)
Definition text_of (self : CreatorWorker) (val : value) : string :=
  if String.eqb (mode self) "Numbers" then py_str val else custom_text self.

(** [on = f"{sanitize_filename(self.base_name)}_{safe_val}.{self.out_ext}"] *)
Definition file_name_of (self : CreatorWorker) (val : value) : string :=
  sanitize_filename (base_name self) ++ "_" ++ sanitize_filename (py_str val)
    ++ "." ++ out_ext self.

Definition run {L : ImageLib} (self : CreatorWorker) (W : world) : list event :=
  match background W with
  | NotAFile => [Error "Background image not found."]
  | opened =>
      match target_size self with
      | Raise e => worker_exception e
      | Ok (target_w, target_h) =>
          match opened with
          | Readable bg =>
              if auto_fit target_w target_h then
                Log ("Auto-fit used background size " ++ PyStr.of_int (width bg)
                       ++ "x" ++ PyStr.of_int (height bg))
                :: run_values self W (text_of self) (file_name_of self)
                     bg (width bg) (height bg) (count_values self)
              else
                run_values self W (text_of self) (file_name_of self)
                  bg target_w target_h (count_values self)
          | Unreadable msg => [Error ("Cannot open background: " ++ msg)]
          | NotAFile => []
          end
      end
  end.

End CorelTextPro.

(** *** The window ([CreatorApp]) *)

Module CorelApp.

(** The label drawn by [update_preview]:
    [f"{prefix}{(ranges[0] if ranges else start)}{suffix}"]. *)
Definition preview_text (prefix suffix : string) (ranges : list Z) (start : Z)
  : string :=
  prefix ++ PyStr.of_int (match ranges with v :: _ => v | [] => start end)
    ++ suffix.

End CorelApp.

Module CorelTextProApp.

(** The two measurements returned by [_collect_params]: the Auto-fit
    checkbox replaces both by [0.0]. *)
Definition collect_measure (auto_fit_chk : bool) (w h : float) : float * float :=
  if auto_fit_chk then (0%float, 0%float) else (w, h).

(** The label drawn by [update_preview]. *)
Definition preview_text (mode custom_text : string) (start : Z) : string :=
  if String.eqb mode "Text" then custom_text else PyStr.of_int start.

(** The worker built by [start_create] from the values [a] of the widgets:
    the measurements and the base name come from [_collect_params] (the
    base name stripped, [created] when nothing is left), and in Text mode
    the counter is forced to the single step 0..0. *)
Definition start_create_worker (auto_fit_chk : bool) (a : CreatorWorker)
  : CreatorWorker :=
  let wh := collect_measure auto_fit_chk (width_val a) (height_val a) in
  let is_text := String.eqb (mode a) "Text" in
  CorelTextPro.init
    (mkWorker (output_folder a) (unit_ a) (fst wh) (snd wh) (dpi a) (scale_bg a)
       (font_size a) (font_color a) (halign a) (valign a)
       (pl a) (pr a) (pt a) (pb a) (prefix a) (suffix a) (mode a) (custom_text a)
       (if is_text then 0 else start_count a)
       (if is_text then 0 else end_count a)
       (if is_text then 1 else step a)
       (PyStr.lower (out_ext a)) (outline a)
       (str_or (PyStr.strip (base_name a)) "created") (ranges a)).

End CorelTextProApp.

(** ** Observations on a trace *)

(** The paths of the image files written, in order. *)
Fixpoint files_written (tr : list event) : list string :=
  match tr with
  | [] => []
  | SaveFile path _ _ :: r => path :: files_written r
  | _ :: r => files_written r
  end.

(** The report written, if any. *)
Fixpoint manifest (tr : list event) : option (list row) :=
  match tr with
  | [] => None
  | WriteExcel _ rows :: _ => Some rows
  | _ :: r => manifest r
  end.

(** The terminal signal received by the window: [done] leads to
    [_on_done], [error] to [_on_error]. *)
Inductive terminal : Type :=
| Completed (folder : string)
| Failed (msg : string).

Fixpoint terminal_state (tr : list event) : option terminal :=
  match tr with
  | [] => None
  | Done folder :: _ => Some (Completed folder)
  | Error msg :: _ => Some (Failed msg)
  | _ :: r => terminal_state r
  end.

Definition logged (msg : string) (tr : list event) : bool :=
  existsb (fun e => match e with Log m => String.eqb m msg | _ => false end) tr.

(** ** A small imaging environment

    Fonts are their point size, every glyph is [6 * size / 10] pixels wide and
    [size] pixels high, resampling takes the nearest pixel, a masked paste
    keeps the old pixel where the mask is zero, and drawing text leaves the
    canvas as it is. It serves to run the model on concrete inputs. *)

#[local] Instance demo_lib : ImageLib := {|
  font := Z;
  load_font := fun size => size;
  is_freetype := fun _ => true;
  textbbox := fun text f => (0, 0, Z.of_nat (String.length text) * (6 * f / 10), f);
  resample := fun im w h x y => px im (x * width im / w) (y * height im / h);
  thumbnail := fun im _ _ => im;
  blend := fun a old new => if a =? 0 then old else new;
  draw_text := fun canvas _ _ _ _ _ => canvas
|}.

Definition demo_worker : CreatorWorker :=
  mkWorker "out" "inches" 2%float 1%float 100 true 48 (0, 0, 0)
    "center" "center" 10 10 10 10 "No. " "" "Numbers" "" 1 3 1 "PNG" true
    "ticket" [].

Definition opaque_bg : image := mkImage 4 4 (fun _ _ => (10, 20, 30, 255)).

Definition clear_bg : image := mkImage 2 2 (fun _ _ => (0, 0, 0, 0)).

Definition calm_world (bg : image) : world :=
  mkWorld (Readable bg) (fun _ => false) (fun _ => None) None.

(** The text fit instance of the specification, a text measuring 400 x 40
    at size 40: every text is [10 * size] wide and [size] high. *)
#[local] Instance wide_lib : ImageLib := {|
  font := Z;
  load_font := fun size => size;
  is_freetype := fun _ => true;
  textbbox := fun _ f => (0, 0, 10 * f, f);
  resample := fun im w h x y => px im x y;
  thumbnail := fun im _ _ => im;
  blend := fun a old new => new;
  draw_text := fun canvas _ _ _ _ _ => canvas
|}.

(** An environment whose fonts leave a margin inside the measured box, as
    FreeType fonts do: the box of a text measured at the origin starts 2
    pixels to the right of it and a quarter of the point size under it. *)
#[local] Instance bearing_lib : ImageLib := {|
  font := Z;
  load_font := fun size => size;
  is_freetype := fun _ => true;
  textbbox := fun text f =>
    (2, f / 4, 2 + Z.of_nat (String.length text) * (6 * f / 10), f / 4 + f);
  resample := fun im w h x y => px im (x * width im / w) (y * height im / h);
  thumbnail := fun im _ _ => im;
  blend := fun a old new => if a =? 0 then old else new;
  draw_text := fun canvas _ _ _ _ _ => canvas
|}.

(** The worker of the examples, its text aligned as asked. *)
Definition aligned_worker (halign valign : string) : CreatorWorker :=
  mkWorker "out" "inches" 2%float 1%float 100 true 20 (0, 0, 0)
    halign valign 10 10 10 10 "" "" "Numbers" "" 1 3 1 "png" false
    "ticket" [].

(** A worker of corel_text_pro.py asked for a width of 0 and a height of 3
    inches at 300 DPI. *)
Definition zero_width_worker : CreatorWorker :=
  mkWorker "out" "inches" 0%float 3%float 300 true 48 (0, 0, 0)
    "center" "center" 10 10 10 10 "" "" "Numbers" "" 1 3 1 "png" false
    "ticket" [].

(** A world in which the stop flag is seen set from the check that follows
    [n] processed values on. *)
Definition stopping_world (bg : image) (n : nat) : world :=
  mkWorld (Readable bg) (fun k => (n <=? k)%nat) (fun _ => None) None.

(** A world in which the save of the value number [n] fails. *)
Definition full_disk_world (bg : image) (n : nat) : world :=
  mkWorld (Readable bg) (fun _ => false)
    (fun k => if (k =? n)%nat then Some "No space left on device" else None)
    None.

(** A worker of corel.py given the range list [100000, 1]. *)
Definition long_then_short_worker : CreatorWorker :=
  mkWorker "out" "inches" 2%float 1%float 100 true 48 (0, 0, 0)
    "center" "center" 10 10 10 10 "No. " "" "Numbers" "" 1 3 1 "png" false
    "ticket" [100000; 1].

(** ** Vocabulary of the properties *)

(** The nine characters a file name must not contain. *)
Definition is_forbidden (c : ascii) : Prop :=
  c = backslash \/ c = "/"%char \/ c = ":"%char \/ c = "*"%char \/ c = "?"%char
  \/ c = dquote \/ c = "<"%char \/ c = ">"%char \/ c = "|"%char.

(** Position of the first occurrence of [v] in [l]. *)
Fixpoint first_index (v : Z) (l : list Z) : option nat :=
  match l with
  | [] => None
  | x :: r => if x =? v then Some 0%nat else option_map S (first_index v r)
  end.

(** The first [n] values of [vals] render without an exception, the font
    being handed from one value to the next as in the loop. *)
Fixpoint renders_ok {L : ImageLib} (self : CreatorWorker)
  (text_of : value -> string) (bg : image) (target_w target_h : Z)
  (vals : list value) (n : nat) (f : font) : bool :=
  match n, vals with
  | S n', v :: rest =>
      match render_value self bg target_w target_h (text_of v) f with
      | Ok (_, f') => renders_ok self text_of bg target_w target_h rest n' f'
      | Raise _ => false
      end
  | _, _ => true
  end.

(** The events of a value that was rendered and saved. *)
Definition value_event (e : event) : Prop :=
  match e with
  | SaveFile _ _ _ | Progress _ _ | Preview _ => True
  | _ => False
  end.

(** The report row of a value. *)
Definition row_of (self : CreatorWorker) (file_name_of : value -> string)
  (v : value) : row :=
  mkRow v (file_name_of v) (full_path_of self file_name_of v) (out_ext self).

(** The two source files, and what each one runs the common loop with. *)
Inductive variant : Type :=
| CorelPy
| CorelTextProPy.

Definition run_of {L : ImageLib} (src : variant) : CreatorWorker -> world -> list event :=
  match src with
  | CorelPy => Corel.run
  | CorelTextProPy => CorelTextPro.run
  end.

Definition values_of (src : variant) : CreatorWorker -> list value :=
  match src with
  | CorelPy => Corel.count_values
  | CorelTextProPy => CorelTextPro.count_values
  end.

Definition text_of (src : variant) : CreatorWorker -> value -> string :=
  match src with
  | CorelPy => Corel.text_of
  | CorelTextProPy => CorelTextPro.text_of
  end.

Definition file_name_of (src : variant) : CreatorWorker -> value -> string :=
  match src with
  | CorelPy => Corel.file_name_of
  | CorelTextProPy => CorelTextPro.file_name_of
  end.

(** The canvas size of the loop for a target of [tw] x [th]. *)
Definition canvas_of (src : variant) (bg : image) (tw th : Z) : Z * Z :=
  match src with
  | CorelPy => (tw, th)
  | CorelTextProPy =>
      if CorelTextPro.auto_fit tw th then (width bg, height bg) else (tw, th)
  end.

(** The log line that precedes the common part of [run]. *)
Definition preamble (src : variant) (self : CreatorWorker) (bg : image)
  (tw th : Z) : list string :=
  match src with
  | CorelPy =>
      ["Target: " ++ PyStr.of_int tw ++ "x" ++ PyStr.of_int th
         ++ " @ " ++ PyStr.of_int (dpi self) ++ " DPI"]
  | CorelTextProPy =>
      if CorelTextPro.auto_fit tw th
      then ["Auto-fit used background size " ++ PyStr.of_int (width bg)
              ++ "x" ++ PyStr.of_int (height bg)]
      else []
  end.

(** Two worlds that differ at most in the stop flag as read after more
    than [n] processed values. *)
Definition same_until (n : nat) (W W' : world) : Prop :=
  background W' = background W
  /\ (forall i, save_error W' i = save_error W i)
  /\ excel_error W' = excel_error W
  /\ (forall i, (i <= n)%nat -> stop_at W' i = stop_at W i).

(** The [progress] signals of a trace, in order. *)
Fixpoint progress_of (tr : list event) : list (Z * Z) :=
  match tr with
  | [] => []
  | Progress processed total :: r => (processed, total) :: progress_of r
  | _ :: r => progress_of r
  end.

(** [done] and [error] are the two signals that end a run for the window. *)
Definition is_terminal (e : event) : bool :=
  match e with
  | Done _ | Error _ => true
  | _ => false
  end.

Definition no_terminal (tr : list event) : Prop :=
  forallb (fun e => negb (is_terminal e)) tr = true.

(** [tr] is the trace of a run over [vals]: some [k] values were saved,
    each with its progress signal, one terminal signal ends the trace, and
    a report, if any, lists the saved values. *)
Definition trace_shape (self : CreatorWorker) (fn : value -> string)
  (vals : list value) (tr : list event) : Prop :=
  exists (k : nat) (body : list event) (t : event),
    (k <= List.length vals)%nat
    /\ files_written tr = map (full_path_of self fn) (firstn k vals)
    /\ progress_of tr
       = map (fun i => (Z.of_nat i, Z.of_nat (List.length vals))) (seq 1 k)
    /\ tr = (body ++ [t])%list /\ is_terminal t = true /\ no_terminal body
    /\ forall rows,
         manifest tr = Some rows ->
         rows = map (row_of self fn) (firstn k vals)
         /\ (0 < k)%nat /\ t = Done (output_folder self).

(** A string made of decimal digits only, and the number it spells after
    [acc]. *)
Fixpoint all_digits (s : string) : bool :=
  match s with
  | EmptyString => true
  | String c r => PyStr.isdigit c && all_digits r
  end.

Fixpoint digits_value (acc : Z) (s : string) : Z :=
  match s with
  | EmptyString => acc
  | String c r => digits_value (10 * acc + (PyStr.code c - 48)) r
  end.

(** A digit string that [int] accepts: not empty, and within the limit. *)
Definition readable (s : string) : Prop :=
  all_digits s = true /\ s <> EmptyString
  /\ PyStr.count_digits s <= PyStr.max_str_digits.

(** A string without any character that [str.strip] removes. *)
Fixpoint no_space (s : string) : bool :=
  match s with
  | EmptyString => true
  | String c r => negb (PyStr.isspace c) && no_space r
  end.

(** ** The window's side of a run ([CreatorApp], same handlers in both files) *)

(** What the slots connected by [start_create] read and write: the two
    buttons, the ETA timer, the two counters, and the message boxes shown
    (title and text). The progress bar, the label (which the timer also
    rewrites), the preview pixmap and the log view are left to Qt. *)
Record window : Type := mkWindow {
  create_enabled : bool;
  cancel_enabled : bool;
  eta_active : bool;
  processed_count : Z;
  total_est : Z;
  dialogs : list (string * string)
}.

Module Window.

(** The last block of [start_create], after the worker is built. *)
Definition start_create (w : window) : window :=
  mkWindow false true true 0 0 (dialogs w).

Definition on_start_estimate (total : Z) (w : window) : window :=
  mkWindow (create_enabled w) (cancel_enabled w) (eta_active w)
    (processed_count w) total (dialogs w).

Definition on_progress (processed total : Z) (w : window) : window :=
  mkWindow (create_enabled w) (cancel_enabled w) (eta_active w)
    processed total (dialogs w).

Definition on_done (out_folder : string) (w : window) : window :=
  mkWindow true false false (processed_count w) (total_est w)
    (dialogs w
     ++ [("Done", ("Saved in:" ++ String (ascii_of_nat 10) out_folder)%string)])%list.

Definition on_error (msg : string) (w : window) : window :=
  mkWindow true false false (processed_count w) (total_est w)
    (dialogs w ++ [("Error", msg)])%list.

(** [cancel_create], when the worker is running. *)
Definition cancel_create (w : window) : window :=
  mkWindow (create_enabled w) false (eta_active w)
    (processed_count w) (total_est w) (dialogs w).

(** The slot run for one event of the worker; file writes are no signals,
    and the slots of [log] and [preview] touch none of the fields above. *)
Definition handle (e : event) (w : window) : window :=
  match e with
  | StartEstimate total => on_start_estimate total w
  | Progress processed total => on_progress processed total w
  | Done folder => on_done folder w
  | Error msg => on_error msg w
  | Log _ | Preview _ | SaveFile _ _ _ | WriteExcel _ _ => w
  end.

(** Signals are delivered to the window in the order of emission. *)
Definition deliver (tr : list event) (w : window) : window :=
  fold_left (fun w e => handle e w) tr w.

End Window.

(** ** Exact values of binary64 floats *)

(** The exponent of the last place of a binary64 number with [e] digits
    before the binary point: [fexp prec emax]. *)
Definition fexp64 (e : Z) : Z := Z.max (e - 53) (-1074).

(** The value of a finite float, counted in units of 2^-1074 (the smallest
    positive subnormal): an integer, since no exponent of a float is below
    -1074. Infinities and NaN have none. *)
Definition SFscaled (f : spec_float) : option Z :=
  match f with
  | S754_zero _ => Some 0
  | S754_finite s m e => Some (cond_Zopp s (Z.pos m * 2 ^ (e + 1074)))
  | _ => None
  end.

Definition scaled (x : float) : option Z := SFscaled (Prim2SF x).

(** The first shift of [binary_round_aux] on [m * 2^e]: the number of bits
    dropped, the mantissa kept and its exponent. *)
Definition ra_n (m e : Z) : Z := Z.max 0 (fexp64 (Zdigits2 m + e) - e).
Definition ra_m1 (m e : Z) : Z := m / 2 ^ ra_n m e.
Definition ra_e1 (m e : Z) : Z := e + ra_n m e.

(** The float literal 2.54 is [mc * 2^-51]. *)
Definition mc : positive := 5719571526760530%positive.

(** The largest finite float, in units of 2^-1074. *)
Definition max_scaled : Z := (2 ^ 53 - 1) * 2 ^ 2045.

Ltac small_pows :=
  change (2 ^ 50) with 1125899906842624 in *;
  change (2 ^ 51) with 2251799813685248 in *;
  change (2 ^ 52) with 4503599627370496 in *;
  change (2 ^ 53) with 9007199254740992 in *.

(** The integer nearest to [v / 2], the even one on a tie. *)
Definition half_even (v : Z) : Z :=
  if Z.even v then v / 2
  else if Z.even (v / 2) then v / 2 else v / 2 + 1.

(* ===================================================================== *)
(** * Properties *)
(* ===================================================================== *)

Example parse_ranges_ex1 :
  parse_ranges "1-5:2, 7, 20-18" = Ok [1; 3; 5; 7; 20; 19; 18].
Proof. vm_compute. reflexivity. Qed.

Example parse_ranges_ex2 : parse_ranges "1-x" = Raise ValueError.
Proof. vm_compute. reflexivity. Qed.

Example parse_ranges_ex3 : parse_ranges "3, x, 3; 4 ,12a, 1_0" = Ok [3; 4; 10].
Proof. vm_compute. reflexivity. Qed.

Example target_px_ex1 : target_px 2%float "inches" 300 = Ok 600.
Proof. vm_compute. reflexivity. Qed.

Example target_px_ex2 : target_px 5.08%float "cm" 300 = Ok 600.
Proof. vm_compute. reflexivity. Qed.

Example target_px_ex3 : target_px 0.0025%float "inches" 200 = Ok 1.
Proof. vm_compute. reflexivity. Qed.

Example round_ex : (PyFloat.round 0.5, PyFloat.round 1.5, PyFloat.round 2.5, PyFloat.round (-2.5))
                   = (Ok 0, Ok 2, Ok 2, Ok (-2)).
Proof. vm_compute. reflexivity. Qed.


(** ** Python [range] *)

Section RangeFacts.

Lemma range_ascending (a b s : Z) :
  0 < s -> a < b ->
  PyStr.range a b s
  = map (fun i => a + Z.of_nat i * s) (seq 0 (Z.to_nat ((b - a - 1) / s + 1))).
Proof.
  intros Hs Hab. unfold PyStr.range.
  destruct (Z.ltb_spec 0 s); [|lia].
  destruct (Z.ltb_spec a b); [|lia]. reflexivity.
Qed.

Lemma range_descending (a b s : Z) :
  0 < s -> b < a ->
  PyStr.range a b (- s)
  = map (fun i => a + Z.of_nat i * (- s)) (seq 0 (Z.to_nat ((a - b - 1) / s + 1))).
Proof.
  intros Hs Hab. unfold PyStr.range.
  destruct (Z.ltb_spec 0 (- s)); [lia|].
  destruct (Z.ltb_spec (- s) 0); [|lia].
  destruct (Z.ltb_spec b a); [|lia].
  rewrite Z.opp_involutive. reflexivity.
Qed.

Lemma count_nonneg (d s : Z) : 0 < s -> 0 <= d -> 0 <= d / s + 1.
Proof. intros Hs Hd. pose proof (Z.div_pos d s Hd Hs). lia. Qed.

Lemma in_progression (f : nat -> Z) (n : nat) (v : Z) :
  In v (map f (seq 0 n)) -> exists i, (i < n)%nat /\ v = f i.
Proof.
  intros H. apply in_map_iff in H. destruct H as [i [Hi Hin]].
  apply in_seq in Hin. exists i. split; [lia | congruence].
Qed.

End RangeFacts.

(** ** Simple mode of the batch sequencer *)

Lemma simple_values_up (a b s : Z) :
  0 < s -> a <= b ->
  let vals := simple_values a b s in
  let n := List.length vals in
  vals = map (fun i => a + Z.of_nat i * s) (seq 0 n)
  /\ Z.of_nat n = (b - a) / s + 1
  /\ (forall v, In v vals -> a <= v <= b)
  /\ b < a + Z.of_nat n * s.
Proof.
  intros Hs Hab vals n.
  assert (Hv : vals = map (fun i => a + Z.of_nat i * s)
                        (seq 0 (Z.to_nat ((b - a) / s + 1)))).
  { unfold vals, simple_values. destruct (Z.leb_spec a b); [|lia].
    rewrite range_ascending by lia.
    replace (b + 1 - a - 1) with (b - a) by lia. reflexivity. }
  assert (Hn : Z.of_nat n = (b - a) / s + 1).
  { unfold n. rewrite Hv, length_map, length_seq.
    apply Z2Nat.id, count_nonneg; lia. }
  assert (Hq : (b - a) / s * s <= b - a < ((b - a) / s + 1) * s).
  { pose proof (Z.div_mod (b - a) s ltac:(lia)).
    pose proof (Z.mod_pos_bound (b - a) s Hs). nia. }
  split; [|split; [exact Hn|split]].
  - rewrite Hv at 1. do 2 f_equal. unfold n. rewrite Hv, length_map, length_seq.
    reflexivity.
  - intros v H. rewrite Hv in H. apply in_progression in H.
    destruct H as [i [Hi ->]].
    assert (0 <= Z.of_nat i <= (b - a) / s) by lia. nia.
  - rewrite Hn. lia.
Qed.

Lemma simple_values_down (a b s : Z) :
  0 < s -> b < a ->
  let vals := simple_values a b s in
  let n := List.length vals in
  vals = map (fun i => a - Z.of_nat i * s) (seq 0 n)
  /\ Z.of_nat n = (a - b) / s + 1
  /\ (forall v, In v vals -> b <= v <= a)
  /\ a - Z.of_nat n * s < b.
Proof.
  intros Hs Hab vals n.
  assert (Hv : vals = map (fun i => a - Z.of_nat i * s)
                        (seq 0 (Z.to_nat ((a - b) / s + 1)))).
  { unfold vals, simple_values. destruct (Z.leb_spec a b); [lia|].
    rewrite range_descending by lia.
    replace (a - (b - 1) - 1) with (a - b) by lia.
    apply map_ext. intros i. lia. }
  assert (Hn : Z.of_nat n = (a - b) / s + 1).
  { unfold n. rewrite Hv, length_map, length_seq.
    apply Z2Nat.id, count_nonneg; lia. }
  assert (Hq : (a - b) / s * s <= a - b < ((a - b) / s + 1) * s).
  { pose proof (Z.div_mod (a - b) s ltac:(lia)).
    pose proof (Z.mod_pos_bound (a - b) s Hs). nia. }
  split; [|split; [exact Hn|split]].
  - rewrite Hv at 1. do 2 f_equal. unfold n. rewrite Hv, length_map, length_seq.
    reflexivity.
  - intros v H. rewrite Hv in H. apply in_progression in H.
    destruct H as [i [Hi ->]].
    assert (0 <= Z.of_nat i <= (a - b) / s) by lia. nia.
  - rewrite Hn. lia.
Qed.

(** C7. Simple mode: with the step coerced to at least 1, the sequencer of
    both variants yields the arithmetic progression that starts at [start],
    moves towards [end] by the step (up when [start <= end], down
    otherwise), stays between the two bounds and stops only when one more
    step would pass [end]; 1..10 by 1 is [1..10] and 10..1 by 2 is
    [10;8;6;4;2]. *)
Theorem simple_mode_sequence (a : CreatorWorker) :
  let s := Z.max 1 (step a) in
  let first := start_count a in
  let last := end_count a in
  let vals := simple_values first last s in
  let n := List.length vals in
  (ranges a = [] -> Corel.count_values (Corel.init a) = map VInt vals)
  /\ (mode a <> "Text" ->
      CorelTextPro.count_values (CorelTextPro.init a) = map VInt vals)
  /\ (first <= last ->
      vals = map (fun i => first + Z.of_nat i * s) (seq 0 n)
      /\ Z.of_nat n = (last - first) / s + 1
      /\ (forall v, In v vals -> first <= v <= last)
      /\ last < first + Z.of_nat n * s)
  /\ (last < first ->
      vals = map (fun i => first - Z.of_nat i * s) (seq 0 n)
      /\ Z.of_nat n = (first - last) / s + 1
      /\ (forall v, In v vals -> last <= v <= first)
      /\ first - Z.of_nat n * s < last)
  /\ simple_values 1 10 (Z.max 1 1) = [1; 2; 3; 4; 5; 6; 7; 8; 9; 10]
  /\ simple_values 10 1 (Z.max 1 2) = [10; 8; 6; 4; 2].
Proof.
  intros s first last vals n.
  split; [|split; [|split; [|split; [|split]]]].
  - intros Hr. unfold Corel.count_values, Corel.init. simpl. rewrite Hr. reflexivity.
  - intros Hm. unfold CorelTextPro.count_values, CorelTextPro.init. simpl.
    destruct (String.eqb_spec (mode a) "Text"); [contradiction | reflexivity].
  - intros H. apply simple_values_up; unfold s; lia.
  - intros H. apply simple_values_down; unfold s; lia.
  - reflexivity.
  - reflexivity.
Qed.

Lemma simple_mode_sequence_witness :
  Corel.count_values (Corel.init demo_worker) = map VInt [1; 2; 3]
  /\ simple_values 1 3 1 = map (fun i => 1 + Z.of_nat i * 1) (seq 0 3).
Proof.
  destruct (simple_mode_sequence demo_worker) as [H1 [_ [H3 _]]].
  split.
  - apply H1. reflexivity.
  - apply (H3 ltac:(simpl; lia)).
Defined.

(** ** File names *)

Section Sanitize.

Lemma forbidden_chars_spec (c : ascii) :
  PyStr.contains c forbidden_chars = true <-> is_forbidden c.
Proof.
  unfold forbidden_chars, is_forbidden. cbn [PyStr.contains].
  rewrite !orb_true_iff, !Ascii.eqb_eq. intuition congruence.
Qed.

Lemma sanitize_is_filter (name : string) :
  list_ascii_of_string (sanitize_filename name)
  = filter (fun c => negb (PyStr.contains c forbidden_chars))
      (list_ascii_of_string name).
Proof.
  induction name as [|c r IH]; [reflexivity|].
  cbn [sanitize_filename list_ascii_of_string filter].
  destruct (negb (PyStr.contains c forbidden_chars)); cbn; now rewrite IH.
Qed.

Lemma sanitize_app (a b : string) :
  sanitize_filename (a ++ b) = sanitize_filename a ++ sanitize_filename b.
Proof.
  induction a as [|c r IH]; [reflexivity|].
  cbn [append sanitize_filename].
  destruct (negb (PyStr.contains c forbidden_chars)); cbn [append]; now rewrite IH.
Qed.

Lemma sanitize_clean (name : string) (c : ascii) :
  In c (list_ascii_of_string (sanitize_filename name)) -> ~ is_forbidden c.
Proof.
  rewrite sanitize_is_filter. intros H Hf.
  apply filter_In in H. destruct H as [_ H].
  apply forbidden_chars_spec in Hf. rewrite Hf in H. discriminate.
Qed.

Lemma sanitize_idempotent (name : string) :
  sanitize_filename (sanitize_filename name) = sanitize_filename name.
Proof.
  induction name as [|c r IH]; [reflexivity|].
  cbn [sanitize_filename].
  destruct (negb (PyStr.contains c forbidden_chars)) eqn:E; [|exact IH].
  cbn [sanitize_filename]. rewrite E, IH. reflexivity.
Qed.

Lemma sanitize_no_leading_slash (name : string) :
  startswith "/"%char (sanitize_filename name) = false.
Proof.
  destruct (sanitize_filename name) as [|d r] eqn:E; [reflexivity|].
  cbn [startswith]. destruct (Ascii.eqb_spec d "/"%char) as [->|]; [|reflexivity].
  exfalso. apply (sanitize_clean name "/"%char).
  - rewrite E. left. reflexivity.
  - unfold is_forbidden. tauto.
Qed.

Lemma path_join_sanitized (folder name : string) :
  exists dir,
    path_join folder (sanitize_filename name) = dir ++ sanitize_filename name
    /\ (dir = folder \/ dir = folder ++ "/").
Proof.
  unfold path_join. rewrite sanitize_no_leading_slash.
  destruct (PyStr.is_empty folder || endswith "/"%char folder).
  - exists folder. split; [reflexivity | now left].
  - exists (folder ++ "/"). split; [|now right].
    induction folder as [|c r IH]; [reflexivity|].
    cbn [append]. f_equal. exact IH.
Qed.

End Sanitize.

Example sanitize_ex : sanitize_filename "a/b:c*d?e<f>g|h" = "abcdefgh".
Proof. reflexivity. Qed.

Example output_path_ex :
  full_path_of (Corel.init demo_worker) (Corel.file_name_of (Corel.init demo_worker))
    (VInt 7) = "out/ticket_7.png".
Proof. vm_compute. reflexivity. Qed.

(** ** De-duplication in [parse_ranges] *)

Section Dedupe.
Local Open Scope list_scope.

Lemma seen_spec (v : Z) (seen : list Z) :
  existsb (Z.eqb v) seen = true <-> In v seen.
Proof.
  rewrite existsb_exists. split.
  - intros [x [Hin Heq]]. apply Z.eqb_eq in Heq. now subst.
  - intros Hin. exists v. split; [assumption | apply Z.eqb_refl].
Qed.

Lemma first_index_some (v : Z) (l : list Z) :
  In v l -> exists a, first_index v l = Some a.
Proof.
  induction l as [|x r IH]; [intros []|].
  intros Hin. cbn [first_index]. destruct (Z.eqb_spec x v).
  - now exists 0%nat.
  - destruct Hin as [->|Hin]; [contradiction|].
    destruct (IH Hin) as [a ->]. now exists (S a).
Qed.

Lemma first_index_skip (v x : Z) (r : list Z) (a : nat) :
  x <> v -> first_index v r = Some a -> first_index v (x :: r) = Some (S a).
Proof.
  intros Hne Ha. cbn [first_index].
  destruct (Z.eqb_spec x v); [contradiction|]. now rewrite Ha.
Qed.

(** [ext] lists its elements in the order of their first occurrence in
    [vals]. *)
Definition first_seen_order (ext vals : list Z) : Prop :=
  forall i j x y,
    nth_error ext i = Some x -> nth_error ext j = Some y -> (i < j)%nat ->
    exists a b,
      first_index x vals = Some a /\ first_index y vals = Some b /\ (a < b)%nat.

Lemma dedupe_invariant (vals : list Z) :
  forall seen out,
    (forall x, In x seen <-> In x out) -> NoDup out ->
    exists ext,
      dedupe vals seen out = out ++ ext
      /\ NoDup (out ++ ext)
      /\ (forall x, In x ext <-> In x vals /\ ~ In x out)
      /\ first_seen_order ext vals.
Proof.
  induction vals as [|v r IH]; intros seen out Hseen Hnd.
  - exists []. cbn [dedupe]. rewrite app_nil_r.
    split; [reflexivity|]. split; [assumption|]. split.
    + intros x. cbn [In]. tauto.
    + intros i j x y Hi. destruct i; discriminate.
  - cbn [dedupe]. destruct (existsb (Z.eqb v) seen) eqn:E.
    + apply seen_spec in E. apply Hseen in E.
      destruct (IH seen out Hseen Hnd) as [ext [Heq [Hn [Hin Hord]]]].
      exists ext. split; [exact Heq|]. split; [exact Hn|]. split.
      * intros x. rewrite Hin. split.
        -- intros [H1 H2]. split; [now right | assumption].
        -- intros [[->|H1] H2]; [contradiction | now split].
      * intros i j x y Hi Hj Hlt.
        destruct (Hord i j x y Hi Hj Hlt) as [a [b [Ha [Hb Hab]]]].
        assert (Hx : v <> x).
        { intros ->. apply nth_error_In in Hi. apply Hin in Hi. tauto. }
        assert (Hy : v <> y).
        { intros ->. apply nth_error_In in Hj. apply Hin in Hj. tauto. }
        exists (S a), (S b). repeat split; try lia; now apply first_index_skip.
    + assert (Hv : ~ In v out).
      { intros H. apply Hseen, seen_spec in H. congruence. }
      destruct (IH (v :: seen) (out ++ [v])) as [ext [Heq [Hn [Hin Hord]]]].
      * intros x. cbn [In]. rewrite in_app_iff, Hseen. cbn [In]. tauto.
      * apply NoDup_app; [assumption | repeat constructor; intros [] |].
        intros x Hx [<-|[]]. contradiction.
      * exists (v :: ext). rewrite <- app_assoc in Heq, Hn. cbn [app] in Heq, Hn.
        split; [exact Heq|]. split; [exact Hn|]. split.
        -- intros x. cbn [In]. rewrite Hin, in_app_iff. cbn [In]. split.
           ++ intros [<-|[H1 H2]]; [tauto|]. split; [now right | tauto].
           ++ intros [[<-|H1] H2]; [now left|].
              destruct (Z.eq_dec v x) as [->|Hne]; [now left|]. right. tauto.
        -- intros i j x y Hi Hj Hlt. destruct j as [|j]; [lia|].
           cbn [nth_error] in Hj.
           assert (Hy : v <> y /\ In y r).
           { apply nth_error_In in Hj. apply Hin in Hj.
             rewrite in_app_iff in Hj. cbn [In] in Hj. split; [|tauto].
             intros ->. tauto. }
           destruct i as [|i].
           ++ cbn [nth_error] in Hi. injection Hi as <-.
              destruct (first_index_some y r (proj2 Hy)) as [b Hb].
              exists 0%nat, (S b). repeat split; try lia.
              ** cbn [first_index]. now rewrite Z.eqb_refl.
              ** apply first_index_skip; tauto.
           ++ cbn [nth_error] in Hi.
              destruct (Hord i j x y Hi Hj ltac:(lia)) as [a [b [Ha [Hb Hab]]]].
              assert (Hx : v <> x).
              { intros ->. apply nth_error_In in Hi. apply Hin in Hi.
                rewrite in_app_iff in Hi. cbn [In] in Hi. tauto. }
              exists (S a), (S b).
              repeat split; try lia; apply first_index_skip; tauto.
Qed.

End Dedupe.

(** C2. [parse_ranges "1-5:2, 7, 20-18"] is [1,3,5,7,20,19,18]; and
    whenever [parse_ranges] returns, its result has no duplicate, holds
    exactly the values of the expanded token stream, and lists them in the
    order of their first occurrence in that stream. *)
Theorem parse_ranges_first_seen :
  parse_ranges "1-5:2, 7, 20-18" = Ok [1; 3; 5; 7; 20; 19; 18]
  /\ forall spec out,
       parse_ranges spec = Ok out ->
       exists vals,
         expand_ranges spec = Ok vals
         /\ NoDup out
         /\ (forall v, In v out <-> In v vals)
         /\ first_seen_order out vals.
Proof.
  split; [vm_compute; reflexivity|].
  intros spec out H. unfold parse_ranges in H.
  destruct (expand_ranges spec) as [vals|e]; [|discriminate].
  cbn [bind] in H. injection H as <-. exists vals.
  destruct (dedupe_invariant vals [] []) as [ext [Heq [Hn [Hin Hord]]]].
  - tauto.
  - constructor.
  - cbn [app] in Heq, Hn. rewrite Heq.
    split; [reflexivity|]. split; [exact Hn|]. split; [|exact Hord].
    intros v. rewrite Hin. cbn [In]. tauto.
Qed.

Lemma parse_ranges_first_seen_witness :
  NoDup [3; 4; 10] /\ (In 10 [3; 4; 10] <-> In 10 [3; 3; 4; 10]).
Proof.
  destruct parse_ranges_first_seen as [_ H].
  destruct (H "3, x, 3; 4 ,12a, 1_0" [3; 4; 10] ltac:(vm_compute; reflexivity))
    as [vals [Hv [Hn [Hin _]]]].
  vm_compute in Hv. injection Hv as <-.
  split; [exact Hn | exact (Hin 10)].
Defined.

(** C3 (what the code does). A range token with a malformed end point is not
    skipped: the conversion raises inside the range branch, which has no
    handler, and [parse_ranges] as a whole raises [ValueError], losing the
    well-formed tokens too. Only the bare-integer branch skips. *)
Theorem parse_ranges_raises_on_malformed_range :
  parse_ranges "1-x" = Raise ValueError
  /\ parse_ranges "a-b" = Raise ValueError
  /\ parse_ranges "3, 1-x, 7" = Raise ValueError
  /\ parse_ranges "1-2-3" = Raise ValueError
  /\ parse_ranges "-5" = Raise ValueError
  /\ parse_ranges "3, 12a, 7" = Ok [3; 7].
Proof. vm_compute. repeat split. Qed.

(** ** Text fit engine: the shrink loop *)

Section TextFit.
Context {L : ImageLib}.
Variables (text : string) (avail_w avail_h : Z).

Lemma shrink_loop_while (st : fit_state) :
  shrink_loop text avail_w avail_h st
  = if loop_guard avail_w avail_h st
    then shrink_loop text avail_w avail_h (shrink_step text st)
    else st.
Proof.
  rewrite shrink_loop_equation_1.
  destruct (Sumbool.sumbool_of_bool (loop_guard avail_w avail_h st)) as [e|e];
    cbn; rewrite e; reflexivity.
Qed.

Lemma shrink_step_cur (st : fit_state) :
  cur (shrink_step text st) = cur st - 2.
Proof.
  unfold shrink_step. destruct (measure text (load_font (cur st - 2))). reflexivity.
Qed.

Lemma shrink_step_measure (st : fit_state) :
  let st' := shrink_step text st in
  fnt st' = load_font (cur st') /\ (t_w st', t_h st') = measure text (fnt st').
Proof.
  unfold shrink_step. destruct (measure text (load_font (cur st - 2))) eqn:E.
  cbn. rewrite E. split; reflexivity.
Qed.

Lemma iter_shrink_cur (k : nat) (st : fit_state) :
  cur (Nat.iter k (shrink_step text) st) = cur st - 2 * Z.of_nat k.
Proof.
  induction k as [|k IH]; [cbn; lia|].
  rewrite Nat.iter_succ, shrink_step_cur, IH. lia.
Qed.

(** The loop runs the body some number [k] of times, the guard holding
    before each pass and failing after the last. *)
Lemma shrink_loop_iterates (st : fit_state) :
  exists k : nat,
    shrink_loop text avail_w avail_h st = Nat.iter k (shrink_step text) st
    /\ (forall j, (j < k)%nat ->
          loop_guard avail_w avail_h (Nat.iter j (shrink_step text) st) = true)
    /\ loop_guard avail_w avail_h (shrink_loop text avail_w avail_h st) = false.
Proof.
  remember (Z.to_nat (cur st - 6)) as fuel eqn:Hfuel.
  revert st Hfuel.
  induction fuel as [fuel IH] using (well_founded_induction lt_wf).
  intros st Hfuel. rewrite shrink_loop_while.
  destruct (loop_guard avail_w avail_h st) eqn:G.
  - assert (Hlt : (Z.to_nat (cur (shrink_step text st) - 6) < fuel)%nat).
    { unfold loop_guard in G. apply andb_prop in G. destruct G as [_ G].
      apply Z.ltb_lt in G. rewrite shrink_step_cur. lia. }
    destruct (IH _ Hlt (shrink_step text st) eq_refl) as [k [Hk [Hg Hx]]].
    exists (S k). split; [|split].
    + rewrite Hk. symmetry. apply Nat.iter_succ_r.
    + intros [|j] Hj; [exact G|]. rewrite Nat.iter_succ_r. apply Hg. lia.
    + exact Hx.
  - exists 0%nat. split; [reflexivity|]. split; [|exact G].
    intros j Hj. lia.
Qed.

End TextFit.

(** C1 as stated fails: the floor is not 6 for an odd size. From the size
    7, which the window offers, one pass leads to 5, where the guard
    [cur > 6] ends the loop with a text of 50 x 5 in a rectangle 30 wide:
    the text does not fit, and the point size is 5, not 6. *)
Lemma shrink_loop_floor_counterexample :
  let st0 := mkFit 7 7 (fst (@measure wide_lib "1234" 7))
               (snd (@measure wide_lib "1234" 7)) in
  let st := @fit_text wide_lib 7 "1234" 30 50 7 in
  oversized 30 50 (t_w st0) (t_h st0) = true
  /\ @is_freetype wide_lib 7 = true
  /\ (cur st, t_w st, t_h st) = (5, 50, 5)
  /\ ~ ((t_w st <= 30 /\ t_h st <= 50) \/ cur st = 6).
Proof.
  split; [reflexivity|]. split; [reflexivity|]. split; [reflexivity|].
  vm_compute. intros [[H _]|H]; [apply H; reflexivity | discriminate H].
Qed.

(** C1 amended. When the first measure of the text exceeds the available
    rectangle on either axis and the font is a FreeType font, the engine
    runs the loop body [k] times for some [k]: each pass takes 2 off the
    point size, loads the font at that size and measures again, and a pass
    is made only while the text is still oversized and the size above 6. At
    the exit the text fits on both axes or the point size is no longer above
    6; the size never goes under 5 when it started at 5 or more; and when
    the text is still oversized at the exit, the size is 6 for an even
    configured size above 6, 5 for an odd one, and the configured size
    itself (no pass made) when that is 6 or less. *)
Theorem shrink_loop_terminal_state {L : ImageLib}
  (font_size avail_w avail_h : Z) (text : string) (f : font) :
  let st0 := mkFit font_size f (fst (measure text f)) (snd (measure text f)) in
  oversized avail_w avail_h (t_w st0) (t_h st0) = true ->
  is_freetype f = true ->
  let st := fit_text font_size text avail_w avail_h f in
  exists k : nat,
    st = Nat.iter k (shrink_step text) st0
    /\ (forall j, (j < k)%nat ->
          let sj := Nat.iter j (shrink_step text) st0 in
          oversized avail_w avail_h (t_w sj) (t_h sj) = true /\ 6 < cur sj)
    /\ cur st = font_size - 2 * Z.of_nat k
    /\ ((0 < k)%nat ->
          fnt st = load_font (cur st)
          /\ (t_w st, t_h st) = measure text (load_font (cur st)))
    /\ ((t_w st <= avail_w /\ t_h st <= avail_h) \/ cur st <= 6)
    /\ Z.min font_size 5 <= cur st
    /\ (oversized avail_w avail_h (t_w st) (t_h st) = true ->
        cur st = if 6 <? font_size
                 then (if Z.even font_size then 6 else 5)
                 else font_size).
Proof.
  intros st0 Hover Hft st.
  assert (Hst : st = shrink_loop text avail_w avail_h st0).
  { unfold st, fit_text. subst st0. cbn [t_w t_h] in Hover. revert Hover.
    destruct (measure text f) as [tw th]. cbn [fst snd]. intros Hover.
    rewrite Hover, Hft. reflexivity. }
  destruct (shrink_loop_iterates text avail_w avail_h st0) as [k [Hk [Hg Hx]]].
  rewrite <- Hst in Hk, Hx.
  assert (Hcur : cur st = font_size - 2 * Z.of_nat k).
  { rewrite Hk, iter_shrink_cur. reflexivity. }
  assert (Hguard : forall j, (j < k)%nat ->
            let sj := Nat.iter j (shrink_step text) st0 in
            oversized avail_w avail_h (t_w sj) (t_h sj) = true /\ 6 < cur sj).
  { intros j Hj sj. specialize (Hg j Hj). unfold loop_guard in Hg.
    apply andb_prop in Hg. destruct Hg as [Ho Hc]. apply Z.ltb_lt in Hc.
    split; assumption. }
  exists k. split; [exact Hk|]. split; [exact Hguard|]. split; [exact Hcur|].
  split; [|split; [|split]].
  - intros Hpos. destruct k as [|k]; [lia|].
    rewrite Hk, Nat.iter_succ.
    destruct (shrink_step_measure text (Nat.iter k (shrink_step text) st0))
      as [H1 H2].
    split; [exact H1|]. rewrite H2, H1. reflexivity.
  - unfold loop_guard, oversized in Hx.
    apply andb_false_iff in Hx. destruct Hx as [Hx|Hx].
    + apply orb_false_iff in Hx. destruct Hx as [H1 H2].
      apply Z.ltb_ge in H1, H2. left. split; assumption.
    + apply Z.ltb_ge in Hx. right. exact Hx.
  - destruct k as [|k]; [rewrite Hcur; cbn; lia|].
    destruct (Hguard k ltac:(lia)) as [_ Hc]. cbn zeta in Hc.
    rewrite iter_shrink_cur in Hc. cbn [cur st0] in Hc. lia.
  - intros Hstill. unfold loop_guard in Hx. rewrite Hstill in Hx.
    cbn [andb] in Hx. apply Z.ltb_ge in Hx.
    destruct k as [|k].
    + assert (E : cur st = font_size) by lia. rewrite E in Hx |- *.
      apply Z.ltb_ge in Hx. rewrite Hx. reflexivity.
    + destruct (Hguard k ltac:(lia)) as [_ Hc]. cbn zeta in Hc.
      rewrite iter_shrink_cur in Hc. cbn [cur st0] in Hc.
      assert (Hbig : 6 < font_size) by lia.
      apply Z.ltb_lt in Hbig. rewrite Hbig.
      assert (Efs : font_size = cur st + 2 * Z.of_nat (S k)) by lia.
      assert (Hpar : Z.even font_size = Z.even (cur st)).
      { rewrite Efs. apply Z.even_add_mul_2. }
      rewrite Hpar.
      assert (Hc56 : cur st = 5 \/ cur st = 6) by lia.
      destruct Hc56 as [E|E]; rewrite E; reflexivity.
Qed.

Lemma shrink_loop_terminal_state_witness :
  (t_w (@fit_text wide_lib 40 "1234" 200 50 40) <= 200
   /\ t_h (@fit_text wide_lib 40 "1234" 200 50 40) <= 50)
  \/ cur (@fit_text wide_lib 40 "1234" 200 50 40) <= 6.
Proof.
  destruct (@shrink_loop_terminal_state wide_lib 40 200 50 "1234" 40
              eq_refl eq_refl) as [k [_ [_ [_ [_ [H _]]]]]].
  exact H.
Defined.

Example shrink_ex1 :
  let st := @fit_text wide_lib 40 "1234" 200 50 40 in
  (cur st, t_w st, t_h st) = (20, 200, 20).
Proof. reflexivity. Qed.

Example shrink_ex2 :
  let st := @fit_text wide_lib 40 "1234" 30 50 40 in
  (cur st, t_w st, t_h st) = (6, 60, 6).
Proof. reflexivity. Qed.

Example shrink_ex3 :
  let st := @fit_text wide_lib 7 "1234" 30 50 7 in
  (cur st, t_w st, t_h st) = (5, 50, 5).
Proof. reflexivity. Qed.

(** ** Auto-fit of the canvas (corel_text_pro.py) *)

Lemma target_px_clamped (v : float) (u : string) (d t : Z) :
  target_px v u d = Ok t ->
  exists r,
    PyFloat.round (inches_from_unit v u * PyFloat.of_int d)%float = Ok r
    /\ t = Z.max 1 r.
Proof.
  unfold target_px. intros H.
  destruct (PyFloat.round _) as [r|e]; [|discriminate].
  cbn [bind] in H. injection H as <-. now exists r.
Qed.

Lemma target_size_ok (self : CreatorWorker) (tw th : Z) :
  target_size self = Ok (tw, th) ->
  target_px (width_val self) (unit_ self) (dpi self) = Ok tw
  /\ target_px (height_val self) (unit_ self) (dpi self) = Ok th.
Proof.
  unfold target_size. intros H.
  destruct (target_px (width_val self) _ _) as [a|]; [|discriminate].
  destruct (target_px (height_val self) _ _) as [b|]; [|discriminate].
  cbn [bind] in H. injection H as <- <-. split; reflexivity.
Qed.

(** C4 as stated fails: with a requested width of 0 and a height of 3 inches
    at 300 DPI only the width rounds to at most 1 (the target is 1 x 900),
    and the worker still renders at the size of the background. *)
Lemma auto_fit_one_axis_counterexample :
  target_size (CorelTextPro.init zero_width_worker) = Ok (1, 900)
  /\ CorelTextPro.canvas_size (CorelTextPro.init zero_width_worker) 640 480
     = Ok (640, 480)
  /\ ~ (forall tw th,
          CorelTextPro.auto_fit tw th = true <-> tw <= 1 /\ th <= 1).
Proof.
  split; [vm_compute; reflexivity|]. split; [vm_compute; reflexivity|].
  intros H. destruct (H 1 900) as [H1 _]. specialize (H1 eq_refl). lia.
Qed.

(** C4 amended. The worker of corel_text_pro.py renders at the native size
    of the background exactly when at least one of the two rounded pixel
    sizes is at most 1, and at the explicit size (both above 1) otherwise. *)
Theorem auto_fit_trigger {L : ImageLib} (self : CreatorWorker) (W : world)
  (bg : image) (tw th : Z) :
  target_size self = Ok (tw, th) ->
  background W = Readable bg ->
  exists rw rh,
    PyFloat.round (inches_from_unit (width_val self) (unit_ self)
                   * PyFloat.of_int (dpi self))%float = Ok rw
    /\ PyFloat.round (inches_from_unit (height_val self) (unit_ self)
                      * PyFloat.of_int (dpi self))%float = Ok rh
    /\ tw = Z.max 1 rw /\ th = Z.max 1 rh
    /\ (CorelTextPro.auto_fit tw th = true <-> rw <= 1 \/ rh <= 1)
    /\ (rw <= 1 \/ rh <= 1 ->
        CorelTextPro.canvas_size self (width bg) (height bg)
        = Ok (width bg, height bg)
        /\ CorelTextPro.run self W
           = Log ("Auto-fit used background size " ++ PyStr.of_int (width bg)
                    ++ "x" ++ PyStr.of_int (height bg))
             :: run_values self W (CorelTextPro.text_of self)
                  (CorelTextPro.file_name_of self) bg (width bg) (height bg)
                  (CorelTextPro.count_values self))
    /\ (1 < rw /\ 1 < rh ->
        CorelTextPro.canvas_size self (width bg) (height bg) = Ok (rw, rh)
        /\ CorelTextPro.run self W
           = run_values self W (CorelTextPro.text_of self)
               (CorelTextPro.file_name_of self) bg rw rh
               (CorelTextPro.count_values self)).
Proof.
  intros Ht Hbg.
  destruct (target_size_ok self tw th Ht) as [Hw Hh].
  destruct (target_px_clamped _ _ _ _ Hw) as [rw [Hrw Etw]].
  destruct (target_px_clamped _ _ _ _ Hh) as [rh [Hrh Eth]].
  exists rw, rh. split; [exact Hrw|]. split; [exact Hrh|].
  split; [exact Etw|]. split; [exact Eth|].
  assert (Hiff : CorelTextPro.auto_fit tw th = true <-> rw <= 1 \/ rh <= 1).
  { unfold CorelTextPro.auto_fit. rewrite orb_true_iff, !Z.leb_le. lia. }
  split; [exact Hiff|]. split.
  - intros Hle. apply Hiff in Hle.
    unfold CorelTextPro.canvas_size, CorelTextPro.run.
    rewrite Hbg, Ht. cbn [bind]. rewrite Hle. split; reflexivity.
  - intros [H1 H2].
    assert (Hno : CorelTextPro.auto_fit tw th = false).
    { apply not_true_is_false. intros E. apply Hiff in E. lia. }
    unfold CorelTextPro.canvas_size, CorelTextPro.run.
    rewrite Hbg, Ht. cbn [bind]. rewrite Hno.
    replace tw with rw by lia. replace th with rh by lia. split; reflexivity.
Qed.

Lemma auto_fit_trigger_witness :
  exists rw rh,
    Z.max 1 rw = 1 /\ Z.max 1 rh = 900
    /\ (CorelTextPro.auto_fit 1 900 = true <-> rw <= 1 \/ rh <= 1).
Proof.
  destruct (@auto_fit_trigger demo_lib (CorelTextPro.init zero_width_worker)
              (calm_world opaque_bg) opaque_bg 1 900
              ltac:(vm_compute; reflexivity) eq_refl)
    as [rw [rh [_ [_ [H1 [H2 [H3 _]]]]]]].
  exists rw, rh. split; [now symmetry | split; [now symmetry | exact H3]].
Defined.

(** ** Background fitter: the cover branch *)

Section Cover.
Context {L : ImageLib}.

Lemma resize_size (im : image) (w h : Z) :
  width (resize im w h) = w /\ height (resize im w h) = h.
Proof.
  unfold resize.
  destruct ((width im =? w) && (height im =? h)); split; reflexivity.
Qed.

Lemma resize_same_size (im : image) (x y : Z) :
  px (resize im (width im) (height im)) x y = px im x y.
Proof. unfold resize. rewrite !Z.eqb_refl. reflexivity. Qed.

Lemma cover_paste_size (canvas bg : image) (tw th sw sh : Z) :
  width (cover_paste canvas bg tw th sw sh) = width canvas
  /\ height (cover_paste canvas bg tw th sw sh) = height canvas.
Proof. split; reflexivity. Qed.

(** The centre crop: what is cut on the left (top) and on the right
    (bottom) differ by one pixel at most. *)
Lemma centre_crop_symmetric (s t : Z) :
  t <= s ->
  let left := (s - t) / 2 in
  let right := s - (left + t) in
  0 <= left /\ left <= right <= left + 1.
Proof.
  intros H left right. unfold right, left.
  pose proof (Z.div_mod (s - t) 2 ltac:(lia)).
  pose proof (Z.mod_pos_bound (s - t) 2 ltac:(lia)). lia.
Qed.

(** Inside the canvas, the cover branch copies the pixel of the resized
    background, all four bands, alpha included. *)
Lemma cover_paste_pixel (canvas bg : image) (tw th sw sh x y : Z) :
  tw <= sw -> th <= sh ->
  0 <= x < tw -> 0 <= y < th ->
  px (cover_paste canvas bg tw th sw sh) x y
  = px (resize bg sw sh) (x + (sw - tw) / 2) (y + (sh - th) / 2).
Proof.
  intros Hw Hh Hx Hy. unfold cover_paste.
  destruct (resize_size bg sw sh) as [-> ->].
  destruct (centre_crop_symmetric sw tw Hw) as [Hl Hr].
  destruct (centre_crop_symmetric sh th Hh) as [Ht Hb].
  cbn zeta in Hr, Hb.
  set (left := (sw - tw) / 2) in *. set (top := (sh - th) / 2) in *.
  assert (Hin1 : in_bounds (crop (resize bg sw sh) left top (left + tw) (top + th))
                   (x - 0) (y - 0) = true).
  { unfold in_bounds. cbn [width height crop].
    rewrite !andb_true_iff, !Z.leb_le, !Z.ltb_lt. lia. }
  assert (Hin2 : in_bounds (resize bg sw sh) (x - 0 + left) (y - 0 + top) = true).
  { unfold in_bounds. destruct (resize_size bg sw sh) as [-> ->].
    rewrite !andb_true_iff, !Z.leb_le, !Z.ltb_lt. lia. }
  cbn [paste px]. rewrite Hin1. cbn [crop px]. rewrite Hin2.
  rewrite !Z.sub_0_r. reflexivity.
Qed.

End Cover.

(** C5 (what the code does). For a 2 x 2 background that is transparent
    everywhere and a target of 2 x 2, the cover branch returns a canvas of
    the requested size in which every pixel has alpha 0: the paste has no
    mask, so the alpha band of the background replaces the opaque white of
    the canvas. *)
Theorem cover_keeps_source_alpha {L : ImageLib} :
  exists canvas,
    compose_canvas true clear_bg 2 2 = Ok canvas
    /\ width canvas = 2 /\ height canvas = 2
    /\ forall x y, 0 <= x < 2 -> 0 <= y < 2 -> alpha (px canvas x y) = 0.
Proof.
  unfold compose_canvas.
  assert (Hs : cover_size clear_bg 2 2 = Ok (2, 2)) by (vm_compute; reflexivity).
  rewrite Hs. cbn [bind]. eexists. split; [reflexivity|].
  split; [reflexivity|]. split; [reflexivity|].
  intros x y Hx Hy. rewrite cover_paste_pixel by lia.
  change 2 with (width clear_bg) at 1. change 2 with (height clear_bg) at 1.
  rewrite resize_same_size. reflexivity.
Qed.

(** The contain branch on the same input leaves the canvas opaque
    wherever the mask is zero. *)
Example contain_keeps_canvas_alpha :
  exists canvas,
    @compose_canvas demo_lib false clear_bg 2 2 = Ok canvas
    /\ alpha (px canvas 0 0) = 255.
Proof. eexists. split; reflexivity. Qed.

(** ** The loop over the values *)

Section RunLoop.
Context {L : ImageLib}.
Variables (self : CreatorWorker) (W : world).
Variables (text_of file_name_of : value -> string).
Variables (bg : image) (target_w target_h total : Z).
Local Open Scope list_scope.

Let loop := run_loop self W text_of file_name_of bg target_w target_h total.
Let path_of := full_path_of self file_name_of.
Let rendered := renders_ok self text_of bg target_w target_h.

Lemma files_written_app (a b : list event) :
  files_written (a ++ b) = files_written a ++ files_written b.
Proof.
  induction a as [|e a IH]; [reflexivity|].
  destruct e; cbn [app files_written]; rewrite IH; reflexivity.
Qed.

Lemma manifest_value_events (a b : list event) :
  Forall value_event a -> manifest (a ++ b) = manifest b.
Proof.
  induction 1 as [|e a He _ IH]; [reflexivity|].
  destruct e; cbn in He; try contradiction; cbn [app manifest]; exact IH.
Qed.

Lemma terminal_value_events (a b : list event) :
  Forall value_event a -> terminal_state (a ++ b) = terminal_state b.
Proof.
  induction 1 as [|e a He _ IH]; [reflexivity|].
  destruct e; cbn in He; try contradiction; cbn [app terminal_state]; exact IH.
Qed.

Lemma logged_app (msg : string) (a b : list event) :
  logged msg (a ++ b) = logged msg a || logged msg b.
Proof. unfold logged. apply existsb_app. Qed.

Lemma no_done_in_value_events (a : list event) (folder : string) :
  Forall value_event a -> ~ In (Done folder) a.
Proof.
  intros H Hin. rewrite Forall_forall in H. exact (H _ Hin).
Qed.

(** [n] values go through, then the stop flag is seen. *)
Lemma run_loop_stopped (n : nat) :
  forall vals p f,
    (n < List.length vals)%nat ->
    (forall i, (i < n)%nat -> stop_at W (p + i) = false) ->
    stop_at W (p + n) = true ->
    (forall i, (i < n)%nat -> save_error W (p + i) = None) ->
    rendered vals n f = true ->
    exists tr,
      loop vals p f = (tr ++ [Log "Stop requested."], LoopEnd (p + n))
      /\ files_written tr = map path_of (firstn n vals)
      /\ Forall value_event tr.
Proof.
  induction n as [|n IH]; intros vals p f Hlen Hgo Hstop Hsave Hrend;
    destruct vals as [|v rest]; try (cbn in Hlen; lia).
  - exists []. rewrite Nat.add_0_r in *. unfold loop. cbn [run_loop].
    rewrite Hstop. repeat split. constructor.
  - unfold rendered in Hrend. cbn [renders_ok] in Hrend.
    destruct (render_value self bg target_w target_h (text_of v) f)
      as [[canvas f']|e] eqn:Er; [|discriminate].
    destruct (IH rest (S p) f') as [tr [Hrun [Hfiles Hev]]].
    + cbn in Hlen. lia.
    + intros i Hi. replace (S p + i)%nat with (p + S i)%nat by lia.
      apply Hgo. lia.
    + replace (S p + n)%nat with (p + S n)%nat by lia. exact Hstop.
    + intros i Hi. replace (S p + i)%nat with (p + S i)%nat by lia.
      apply Hsave. lia.
    + exact Hrend.
    + pose proof (Hgo 0%nat ltac:(lia)) as Hgo0.
      pose proof (Hsave 0%nat ltac:(lia)) as Hsave0.
      rewrite Nat.add_0_r in Hgo0, Hsave0.
      exists (SaveFile (path_of v) (save_format (out_ext self)) canvas
                :: Progress (Z.of_nat (S p)) total :: Preview canvas :: tr).
      unfold loop in *. cbn [run_loop]. rewrite Hgo0, Er, Hsave0, Hrun.
      replace (S p + n)%nat with (p + S n)%nat by lia.
      split; [reflexivity|]. split.
      * cbn [files_written firstn map]. rewrite Hfiles. reflexivity.
      * repeat (constructor; [exact I|]). exact Hev.
Qed.

(** [n] values go through, then the save of the next one fails. *)
Lemma run_loop_save_failed (n : nat) (err : string) :
  forall vals p f,
    (n < List.length vals)%nat ->
    (forall i, (i <= n)%nat -> stop_at W (p + i) = false) ->
    (forall i, (i < n)%nat -> save_error W (p + i) = None) ->
    save_error W (p + n) = Some err ->
    rendered vals (S n) f = true ->
    exists tr v,
      nth_error vals n = Some v
      /\ loop vals p f
         = (tr ++ [Log ("Save failed " ++ path_of v ++ ": " ++ err)%string;
                   Error ("Save failed: " ++ err)%string], Returned)
      /\ files_written tr = map path_of (firstn n vals)
      /\ Forall value_event tr.
Proof.
  induction n as [|n IH]; intros vals p f Hlen Hgo Hsave Hfail Hrend;
    destruct vals as [|v rest]; try (cbn in Hlen; lia);
    unfold rendered in Hrend; cbn [renders_ok] in Hrend;
    destruct (render_value self bg target_w target_h (text_of v) f)
      as [[canvas f']|e] eqn:Er; try discriminate;
    pose proof (Hgo 0%nat ltac:(lia)) as Hgo0; rewrite Nat.add_0_r in Hgo0.
  - exists [], v. rewrite Nat.add_0_r in Hfail. unfold loop. cbn [run_loop].
    rewrite Hgo0, Er, Hfail. repeat split. constructor.
  - destruct (IH rest (S p) f') as [tr [u [Hu [Hrun [Hfiles Hev]]]]].
    + cbn in Hlen. lia.
    + intros i Hi. replace (S p + i)%nat with (p + S i)%nat by lia.
      apply Hgo. lia.
    + intros i Hi. replace (S p + i)%nat with (p + S i)%nat by lia.
      apply Hsave. lia.
    + replace (S p + n)%nat with (p + S n)%nat by lia. exact Hfail.
    + exact Hrend.
    + pose proof (Hsave 0%nat ltac:(lia)) as Hsave0.
      rewrite Nat.add_0_r in Hsave0.
      exists (SaveFile (path_of v) (save_format (out_ext self)) canvas
                :: Progress (Z.of_nat (S p)) total :: Preview canvas :: tr), u.
      unfold loop in *. cbn [run_loop nth_error].
      rewrite Hgo0, Er, Hsave0, Hrun.
      split; [exact Hu|]. split; [reflexivity|]. split.
      * cbn [files_written firstn map]. rewrite Hfiles. reflexivity.
      * repeat (constructor; [exact I|]). exact Hev.
Qed.

End RunLoop.

(** ** The run as a whole *)

Section Run.
Context {L : ImageLib}.
Local Open Scope list_scope.

(** With a readable background and a computable target size, [run] is at
    most one log line followed by the common part. *)
Lemma run_of_readable (src : variant) (self : CreatorWorker) (W : world)
  (bg : image) (tw th : Z) :
  background W = Readable bg ->
  target_size self = Ok (tw, th) ->
  run_of src self W
  = map Log (preamble src self bg tw th)
    ++ run_values self W (text_of src self) (file_name_of src self) bg
         (fst (canvas_of src bg tw th)) (snd (canvas_of src bg tw th))
         (values_of src self).
Proof.
  intros Hbg Ht.
  destruct src; cbn [run_of canvas_of text_of file_name_of values_of preamble].
  - unfold Corel.run. rewrite Hbg, Ht. reflexivity.
  - unfold CorelTextPro.run. rewrite Hbg, Ht.
    destruct (CorelTextPro.auto_fit tw th); reflexivity.
Qed.

Lemma files_written_logs (msgs : list string) (tr : list event) :
  files_written (map Log msgs ++ tr) = files_written tr.
Proof. induction msgs as [|m msgs IH]; [reflexivity | exact IH]. Qed.

Lemma manifest_logs (msgs : list string) (tr : list event) :
  manifest (map Log msgs ++ tr) = manifest tr.
Proof. induction msgs as [|m msgs IH]; [reflexivity | exact IH]. Qed.

Lemma terminal_logs (msgs : list string) (tr : list event) :
  terminal_state (map Log msgs ++ tr) = terminal_state tr.
Proof. induction msgs as [|m msgs IH]; [reflexivity | exact IH]. Qed.

Lemma done_not_in_logs (msgs : list string) (folder : string) :
  ~ In (Done folder) (map Log msgs).
Proof.
  intros H. apply in_map_iff in H. destruct H as [m [H _]]. discriminate.
Qed.

(** The loop reads the stop flag once per value, before the value: two
    worlds that agree on the flag up to the check at which it is first seen
    set produce the same loop. *)
Lemma run_loop_same_until (self : CreatorWorker) (W W' : world)
  (tx fn : value -> string) (bg : image) (cw ch total : Z) (n : nat) :
  same_until n W W' -> stop_at W n = true ->
  forall vals p f, (p <= n)%nat ->
    run_loop self W' tx fn bg cw ch total vals p f
    = run_loop self W tx fn bg cw ch total vals p f.
Proof.
  intros [_ [Hsave [_ Hstop]]] Hn.
  induction vals as [|v rest IH]; intros p f Hp; [reflexivity|].
  cbn [run_loop]. rewrite (Hstop p Hp), Hsave.
  destruct (stop_at W p) eqn:Es; [reflexivity|].
  assert (p <> n) by (intros ->; congruence).
  destruct (render_value self bg cw ch (tx v) f) as [[canvas f']|e];
    [|reflexivity].
  destruct (save_error W p); [reflexivity|].
  rewrite IH by lia. reflexivity.
Qed.

Lemma run_values_same_until (self : CreatorWorker) (W W' : world)
  (tx fn : value -> string) (bg : image) (cw ch : Z) (vals : list value) (n : nat) :
  same_until n W W' -> stop_at W n = true ->
  run_values self W' tx fn bg cw ch vals = run_values self W tx fn bg cw ch vals.
Proof.
  intros Hsame Hn. unfold run_values.
  rewrite (run_loop_same_until self W W' tx fn bg cw ch _ n Hsame Hn) by lia.
  destruct Hsame as [_ [_ [Hx _]]].
  unfold write_report. rewrite Hx. reflexivity.
Qed.

End Run.

(** C6 as stated fails: a run stopped after one value of three ends with
    the signal [done], exactly as the run that nobody stops; and a run
    stopped before its first value writes no report at all. *)
Lemma cancelled_run_counterexample :
  files_written (Corel.run (Corel.init demo_worker) (stopping_world opaque_bg 1))
  = ["out/ticket_1.png"]
  /\ terminal_state (Corel.run (Corel.init demo_worker) (stopping_world opaque_bg 1))
     = Some (Completed "out")
  /\ terminal_state (Corel.run (Corel.init demo_worker) (calm_world opaque_bg))
     = Some (Completed "out")
  /\ manifest (Corel.run (Corel.init demo_worker) (stopping_world opaque_bg 0))
     = None.
Proof. vm_compute. repeat split. Qed.

(** C6 amended. If the stop flag is first seen set at the check that
    follows [n] processed values, [n] less than the length of the sequence,
    and those [n] values render and save, then, whatever the report writer
    does, the run saves exactly the files of the first [n] values, in
    order, logs the stop and then emits [done] with the output folder, the
    terminal signal of a normal completion. It writes one report with one
    row per saved value, in the same order, when [n] is positive and the
    writer succeeds; it writes no report when [n] is 0 or the writer fails,
    a failure of the writer being logged and nothing more. And it is the
    same run in every world that agrees with this one on the flag as read
    at the [n + 1] checks made. *)
Theorem cancelled_run {L : ImageLib} (src : variant) (self : CreatorWorker)
  (W : world) (bg : image) (tw th : Z) (n : nat) :
  let vals := values_of src self in
  let cw := fst (canvas_of src bg tw th) in
  let ch := snd (canvas_of src bg tw th) in
  background W = Readable bg ->
  target_size self = Ok (tw, th) ->
  (n < List.length vals)%nat ->
  (forall i, (i < n)%nat -> stop_at W i = false) ->
  stop_at W n = true ->
  (forall i, (i < n)%nat -> save_error W i = None) ->
  renders_ok self (text_of src self) bg cw ch vals n (load_font (font_size self))
  = true ->
  let tr := run_of src self W in
  files_written tr
  = map (full_path_of self (file_name_of src self)) (firstn n vals)
  /\ List.length (files_written tr) = n
  /\ manifest tr
     = match n, excel_error W with
       | S _, None =>
           Some (map (row_of self (file_name_of src self)) (firstn n vals))
       | _, _ => None
       end
  /\ (forall e, (0 < n)%nat -> excel_error W = Some e ->
        logged ("Excel error: " ++ e) tr = true)
  /\ logged "Stop requested." tr = true
  /\ terminal_state tr = Some (Completed (output_folder self))
  /\ (exists body,
        tr = (body ++ [Done (output_folder self)])%list /\ no_terminal body)
  /\ forall W', same_until n W W' -> run_of src self W' = tr.
Proof.
  intros vals cw ch Hbg Ht Hlen Hgo Hstop Hsave Hrend tr.
  pose proof (run_of_readable src self W bg tw th Hbg Ht) as Hrun.
  set (msgs := preamble src self bg tw th) in *.
  destruct (run_loop_stopped self W (text_of src self) (file_name_of src self)
              bg cw ch (Z.of_nat (List.length vals)) n vals 0%nat
              (load_font (font_size self)) Hlen Hgo Hstop Hsave Hrend)
    as [body [Hloop [Hfiles Hev]]].
  set (rep := match n, excel_error W with
              | O, _ => []
              | S _, None =>
                  [WriteExcel (path_join (output_folder self)
                                 "created_images_report.xlsx")
                     (map (row_of self (file_name_of src self))
                        (firstn n vals));
                   Log ("Excel: " ++ path_join (output_folder self)
                          "created_images_report.xlsx")]
              | S _, Some e => [Log ("Excel error: " ++ e)]
              end).
  assert (Hrep : write_report self W (file_name_of src self) vals n
                 = (rep ++ [Done (output_folder self)])%list).
  { unfold write_report, rep. destruct n as [|n]; [reflexivity|].
    destruct vals as [|v rest]; [cbn in Hlen; lia|].
    destruct (excel_error W); reflexivity. }
  assert (Htr : tr = (map Log msgs
                 ++ StartEstimate (Z.of_nat (List.length vals))
                    :: (body ++ [Log "Stop requested."])
                    ++ rep ++ [Done (output_folder self)])%list).
  { unfold tr. rewrite Hrun. unfold run_values. fold vals cw ch.
    rewrite Hloop, <- Hrep. reflexivity. }
  assert (Rf : files_written rep = []).
  { unfold rep. destruct n; [|destruct (excel_error W)]; reflexivity. }
  assert (Rt : no_terminal rep).
  { unfold rep. destruct n; [|destruct (excel_error W)]; reflexivity. }
  assert (Hf : files_written tr
               = map (full_path_of self (file_name_of src self)) (firstn n vals)).
  { rewrite Htr, files_written_logs. cbn [files_written].
    rewrite !files_written_app, Hfiles, Rf. cbn [files_written app].
    rewrite !app_nil_r. reflexivity. }
  split; [exact Hf|]. split.
  { rewrite Hf, length_map, length_firstn. lia. }
  split.
  { rewrite Htr, manifest_logs. cbn [manifest].
    rewrite <- app_assoc, (manifest_value_events _ _ Hev). unfold rep.
    destruct n; [|destruct (excel_error W)]; reflexivity. }
  split.
  { intros e Hn He. rewrite Htr. unfold logged. rewrite existsb_app.
    cbn [existsb]. rewrite !existsb_app. unfold rep. rewrite He.
    destruct n as [|n]; [lia|]. cbn [existsb]. rewrite String.eqb_refl.
    rewrite !orb_true_r. reflexivity. }
  split.
  { rewrite Htr. unfold logged. rewrite existsb_app. cbn [existsb].
    rewrite !existsb_app. cbn [existsb]. rewrite String.eqb_refl.
    rewrite !orb_true_r. reflexivity. }
  split.
  { rewrite Htr, terminal_logs. cbn [terminal_state].
    rewrite <- app_assoc, (terminal_value_events _ _ Hev). unfold rep.
    destruct n; [|destruct (excel_error W)]; reflexivity. }
  split.
  { exists (map Log msgs
              ++ StartEstimate (Z.of_nat (List.length vals))
                 :: (body ++ [Log "Stop requested."]) ++ rep)%list.
    split.
    - rewrite Htr. rewrite <- !app_assoc. cbn [app].
      rewrite <- !app_assoc. reflexivity.
    - unfold no_terminal. rewrite forallb_app. apply andb_true_iff. split.
      + clear. induction msgs as [|m r IH]; [reflexivity | exact IH].
      + cbn [forallb is_terminal negb andb]. rewrite !forallb_app.
        apply andb_true_iff. split; [|exact Rt].
        apply andb_true_iff. split; [|reflexivity].
        clear - Hev. induction Hev as [|e a He _ IH]; [reflexivity|].
        cbn [forallb]. rewrite IH, andb_true_r.
        destruct e; cbn in He; try contradiction; reflexivity. }
  intros W' Hsame.
  assert (Hbg' : background W' = Readable bg).
  { destruct Hsame as [Hb _]. congruence. }
  unfold tr. rewrite Hrun, (run_of_readable src self W' bg tw th Hbg' Ht).
  rewrite (run_values_same_until self W W' _ _ bg _ _ _ n Hsame Hstop).
  reflexivity.
Qed.

(** A run stopped after two values in a world whose report writer fails. *)
Lemma cancelled_run_witness :
  let W := mkWorld (Readable opaque_bg) (fun k => (2 <=? k)%nat) (fun _ => None)
             (Some "Permission denied") in
  files_written (Corel.run (Corel.init demo_worker) W)
  = ["out/ticket_1.png"; "out/ticket_2.png"]
  /\ manifest (Corel.run (Corel.init demo_worker) W) = None
  /\ logged "Excel error: Permission denied" (Corel.run (Corel.init demo_worker) W)
     = true
  /\ terminal_state (Corel.run (Corel.init demo_worker) W) = Some (Completed "out").
Proof.
  intros W.
  assert (Hgo : forall i, (i < 2)%nat -> stop_at W i = false).
  { intros [|[|i]] Hi; [reflexivity | reflexivity | lia]. }
  destruct (@cancelled_run demo_lib CorelPy (Corel.init demo_worker)
              W opaque_bg 200 100 2
              eq_refl ltac:(vm_compute; reflexivity) ltac:(vm_compute; lia)
              Hgo eq_refl (fun i _ => eq_refl) ltac:(vm_compute; reflexivity))
    as [Hfiles [_ [Hman [Hlog [_ [Hterm _]]]]]].
  split; [|split; [|split]].
  - etransitivity; [exact Hfiles | vm_compute; reflexivity].
  - exact Hman.
  - exact (Hlog "Permission denied" ltac:(lia) eq_refl).
  - exact Hterm.
Defined.

(** C10. When the save of a value fails after [k] values were saved, the
    run logs the failure, emits [error] and stops there: the trace ends
    with that signal, it holds no report and no [done], and the files of
    the [k] earlier values are the files written. *)
Theorem save_failure_aborts {L : ImageLib} (src : variant) (self : CreatorWorker)
  (W : world) (bg : image) (tw th : Z) (k : nat) (err : string) :
  let vals := values_of src self in
  let cw := fst (canvas_of src bg tw th) in
  let ch := snd (canvas_of src bg tw th) in
  let path_of := full_path_of self (file_name_of src self) in
  background W = Readable bg ->
  target_size self = Ok (tw, th) ->
  (k < List.length vals)%nat ->
  (forall i, (i <= k)%nat -> stop_at W i = false) ->
  (forall i, (i < k)%nat -> save_error W i = None) ->
  save_error W k = Some err ->
  renders_ok self (text_of src self) bg cw ch vals (S k)
    (load_font (font_size self)) = true ->
  let tr := run_of src self W in
  exists body v,
    nth_error vals k = Some v
    /\ tr = (map Log (preamble src self bg tw th)
             ++ StartEstimate (Z.of_nat (List.length vals))
                :: body
                ++ [Log ("Save failed " ++ path_of v ++ ": " ++ err);
                    Error ("Save failed: " ++ err)])%list
    /\ Forall value_event body
    /\ files_written tr = map path_of (firstn k vals)
    /\ manifest tr = None
    /\ (forall folder, ~ In (Done folder) tr)
    /\ terminal_state tr = Some (Failed ("Save failed: " ++ err)).
Proof.
  intros vals cw ch path_of Hbg Ht Hlen Hgo Hsave Hfail Hrend tr.
  pose proof (run_of_readable src self W bg tw th Hbg Ht) as Hrun.
  destruct (run_loop_save_failed self W (text_of src self) (file_name_of src self)
              bg cw ch (Z.of_nat (List.length vals)) k err vals 0%nat
              (load_font (font_size self)) Hlen Hgo Hsave Hfail Hrend)
    as [body [v [Hv [Hloop [Hfiles Hev]]]]].
  exists body, v.
  assert (Htr : tr = (map Log (preamble src self bg tw th)
             ++ StartEstimate (Z.of_nat (List.length vals))
                :: body
                ++ [Log ("Save failed " ++ path_of v ++ ": " ++ err);
                    Error ("Save failed: " ++ err)])%list).
  { unfold tr. rewrite Hrun. unfold run_values. fold vals cw ch.
    rewrite Hloop, app_nil_r. reflexivity. }
  split; [exact Hv|]. split; [exact Htr|]. split; [exact Hev|].
  rewrite Htr. split; [|split; [|split]].
  - rewrite files_written_logs. cbn [files_written].
    rewrite files_written_app, Hfiles. cbn [files_written].
    apply app_nil_r.
  - rewrite manifest_logs. cbn [manifest].
    rewrite (manifest_value_events _ _ Hev). reflexivity.
  - intros folder Hin. apply in_app_or in Hin. destruct Hin as [Hin|Hin].
    + exact (done_not_in_logs _ _ Hin).
    + destruct Hin as [Hin|Hin]; [discriminate|].
      apply in_app_or in Hin. destruct Hin as [Hin|Hin].
      * exact (no_done_in_value_events _ _ Hev Hin).
      * destruct Hin as [Hin|[Hin|[]]]; discriminate.
  - rewrite terminal_logs. cbn [terminal_state].
    rewrite (terminal_value_events _ _ Hev). reflexivity.
Qed.

Lemma save_failure_aborts_witness :
  files_written (CorelTextPro.run (CorelTextPro.init demo_worker)
                   (full_disk_world opaque_bg 1))
  = ["out/ticket_1.png"]
  /\ manifest (CorelTextPro.run (CorelTextPro.init demo_worker)
                 (full_disk_world opaque_bg 1)) = None
  /\ terminal_state (CorelTextPro.run (CorelTextPro.init demo_worker)
                       (full_disk_world opaque_bg 1))
     = Some (Failed "Save failed: No space left on device").
Proof.
  assert (Hsave : forall i, (i < 1)%nat ->
            save_error (full_disk_world opaque_bg 1) i = None).
  { intros [|i] Hi; [reflexivity | lia]. }
  destruct (@save_failure_aborts demo_lib CorelTextProPy
              (CorelTextPro.init demo_worker) (full_disk_world opaque_bg 1)
              opaque_bg 200 100 1 "No space left on device"
              eq_refl ltac:(vm_compute; reflexivity) ltac:(vm_compute; lia)
              (fun i _ => eq_refl) Hsave eq_refl ltac:(vm_compute; reflexivity))
    as [body [v [_ [_ [_ [Hfiles [Hman [_ Hterm]]]]]]]].
  split; [|split].
  - etransitivity; [exact Hfiles | vm_compute; reflexivity].
  - exact Hman.
  - exact Hterm.
Defined.

Example save_failure_ex :
  terminal_state (Corel.run (Corel.init demo_worker) (full_disk_world opaque_bg 0))
  = Some (Failed "Save failed: No space left on device")
  /\ files_written (Corel.run (Corel.init demo_worker) (full_disk_world opaque_bg 0))
     = [].
Proof. vm_compute. split; reflexivity. Qed.

(* ===================================================================== *)
(** * Further properties of the same code *)
(* ===================================================================== *)

(** ** [parse_ranges]: the permissive branch *)

Section Permissive.

Lemma contains_replace (c old new : ascii) (s : string) :
  c <> new ->
  PyStr.contains c (PyStr.replace old new s) = true -> PyStr.contains c s = true.
Proof.
  intros Hne. induction s as [|d r IH]; [trivial|].
  cbn [PyStr.replace PyStr.contains]. rewrite !orb_true_iff.
  intros [H|H]; [|right; exact (IH H)].
  destruct (Ascii.eqb_spec d old) as [->|Hd].
  - apply Ascii.eqb_eq in H. contradiction.
  - left. exact H.
Qed.

Lemma contains_split (c sep : ascii) (s p : string) :
  In p (PyStr.split sep s) ->
  PyStr.contains c p = true -> PyStr.contains c s = true.
Proof.
  revert p. induction s as [|d r IH]; intros p Hin Hc.
  - destruct Hin as [<-|[]]. exact Hc.
  - cbn [PyStr.split] in Hin. cbn [PyStr.contains]. apply orb_true_iff.
    destruct (Ascii.eqb d sep).
    + destruct Hin as [<-|Hin]; [discriminate Hc|]. right. exact (IH p Hin Hc).
    + destruct (PyStr.split sep r) as [|h t] eqn:E.
      * destruct Hin as [<-|[]]. cbn [PyStr.contains] in Hc.
        rewrite orb_false_r in Hc. left. exact Hc.
      * destruct Hin as [<-|Hin].
        -- cbn [PyStr.contains] in Hc. apply orb_true_iff in Hc.
           destruct Hc as [Hc|Hc]; [now left|]. right.
           apply (IH h); [now left | exact Hc].
        -- right. apply (IH p); [now right | exact Hc].
Qed.

Lemma contains_lstrip (c : ascii) (sp : ascii -> bool) (s : string) :
  PyStr.contains c (PyStr.lstrip_by sp s) = true -> PyStr.contains c s = true.
Proof.
  induction s as [|d r IH]; [trivial|]. cbn [PyStr.lstrip_by].
  destruct (sp d); [|trivial]. intros H. cbn [PyStr.contains].
  rewrite (IH H). apply orb_true_r.
Qed.

Lemma contains_rstrip (c : ascii) (sp : ascii -> bool) (s : string) :
  PyStr.contains c (PyStr.rstrip_by sp s) = true -> PyStr.contains c s = true.
Proof.
  induction s as [|d r IH]; [trivial|]. cbn [PyStr.rstrip_by].
  destruct (sp d && PyStr.is_empty (PyStr.rstrip_by sp r)); [discriminate|].
  cbn [PyStr.contains]. rewrite !orb_true_iff. intros [H|H]; [now left|].
  right. exact (IH H).
Qed.

Lemma contains_strip (c : ascii) (s : string) :
  PyStr.contains c (PyStr.strip s) = true -> PyStr.contains c s = true.
Proof.
  unfold PyStr.strip. intros H.
  apply contains_rstrip, contains_lstrip in H. exact H.
Qed.

Lemma token_list_contains (c : ascii) (spec p : string) :
  c <> ","%char ->
  In p (token_list spec) ->
  PyStr.contains c p = true -> PyStr.contains c spec = true.
Proof.
  intros Hne Hin Hc. unfold token_list in Hin.
  apply in_map_iff in Hin. destruct Hin as [q [<- Hq]].
  apply filter_In in Hq. destruct Hq as [Hq _].
  apply contains_strip in Hc.
  apply (contains_replace c ";"%char ","%char); [exact Hne|].
  exact (contains_split c ","%char _ q Hq Hc).
Qed.

(** A token without a minus sign appends at most one value and never
    raises. *)
Lemma parse_token_bare (p : string) :
  PyStr.contains "-"%char p = false ->
  parse_token p = Ok [] \/ exists v, parse_token p = Ok [v].
Proof.
  intros Hp. unfold parse_token.
  set (q := if PyStr.contains ":"%char p || PyStr.contains "x"%char p
            then PyStr.replace "x"%char ":"%char p else p).
  assert (Hq : PyStr.contains "-"%char q = false).
  { unfold q. destruct (PyStr.contains ":"%char p || PyStr.contains "x"%char p);
      [|exact Hp].
    apply not_true_is_false. intros H.
    apply contains_replace in H; [congruence | discriminate]. }
  rewrite Hq. destruct (PyStr.int q) as [v|e]; [right; now exists v | now left].
Qed.

Lemma parse_tokens_bare (parts : list string) :
  (forall p, In p parts -> PyStr.contains "-"%char p = false) ->
  forall vals, exists out, parse_tokens parts vals = Ok out.
Proof.
  induction parts as [|p rest IH]; intros Hall vals.
  - now exists vals.
  - cbn [parse_tokens].
    destruct (parse_token_bare p (Hall p (or_introl eq_refl))) as [->|[v ->]];
      cbn [bind]; apply IH; intros q Hq; apply Hall; now right.
Qed.

End Permissive.

(** X1. An input without any minus sign never makes [parse_ranges] raise:
    every token goes through the bare-integer branch, whose conversion
    errors are swallowed. Said the other way round, [parse_ranges] raises
    only on inputs that contain a minus sign. *)
Theorem parse_ranges_total_without_minus (spec : string) :
  PyStr.contains "-"%char spec = false ->
  exists out, parse_ranges spec = Ok out /\ NoDup out.
Proof.
  intros Hspec.
  assert (Hx : exists vals, expand_ranges spec = Ok vals).
  { unfold expand_ranges. destruct (PyStr.is_empty (PyStr.strip spec)).
    - now exists [].
    - apply parse_tokens_bare. intros p Hp.
      apply not_true_is_false. intros Hc.
      apply (token_list_contains "-"%char spec p) in Hc;
        [congruence | discriminate | exact Hp]. }
  destruct Hx as [vals Hvals].
  assert (Hp : parse_ranges spec = Ok (dedupe vals [] [])).
  { unfold parse_ranges. rewrite Hvals. reflexivity. }
  exists (dedupe vals [] []). split; [exact Hp|].
  destruct (dedupe_invariant vals [] []) as [ext [Heq [Hn _]]].
  - tauto.
  - constructor.
  - cbn [app] in Heq, Hn. rewrite Heq. exact Hn.
Qed.

Lemma parse_ranges_total_without_minus_witness :
  exists out, parse_ranges "7, x, 7; 4 ,12a" = Ok out /\ NoDup out.
Proof. apply parse_ranges_total_without_minus. reflexivity. Defined.


(** ** [parse_ranges]: streams without duplicates *)

Section DedupeDistinct.
Local Open Scope list_scope.

Lemma dedupe_distinct (vals : list Z) :
  forall seen out,
    (forall x, In x seen <-> In x out) ->
    NoDup vals -> (forall x, In x vals -> ~ In x out) ->
    dedupe vals seen out = out ++ vals.
Proof.
  induction vals as [|v r IH]; intros seen out Hseen Hnd Hfresh.
  - cbn. now rewrite app_nil_r.
  - cbn [dedupe]. inversion Hnd as [|? ? Hv Hr]; subst.
    destruct (existsb (Z.eqb v) seen) eqn:E.
    + apply seen_spec, Hseen in E. exfalso. apply (Hfresh v); [now left | exact E].
    + rewrite IH.
      * rewrite <- app_assoc. reflexivity.
      * intros x. cbn [In]. rewrite in_app_iff, Hseen. cbn [In]. tauto.
      * exact Hr.
      * intros x Hx Hin. apply in_app_or in Hin. destruct Hin as [Hin|[<-|[]]].
        -- apply (Hfresh x); [now right | exact Hin].
        -- contradiction.
Qed.

End DedupeDistinct.

(** X2. When the expanded token stream has no duplicate, [parse_ranges]
    returns it as it is; and de-duplicating a second time changes nothing. *)
Theorem parse_ranges_keeps_distinct (spec : string) (vals : list Z) :
  expand_ranges spec = Ok vals ->
  (NoDup vals -> parse_ranges spec = Ok vals)
  /\ dedupe (dedupe vals [] []) [] [] = dedupe vals [] [].
Proof.
  intros Hx.
  assert (Hd : forall l, NoDup l -> dedupe l [] [] = l).
  { intros l Hl.
    rewrite (dedupe_distinct l [] []);
      [reflexivity | tauto | exact Hl | intros x _ []]. }
  split.
  - intros Hnd. unfold parse_ranges. rewrite Hx. cbn [bind]. now rewrite Hd.
  - apply Hd. destruct (dedupe_invariant vals [] []) as [ext [Heq [Hn _]]].
    + tauto.
    + constructor.
    + rewrite Heq. exact Hn.
Qed.

Lemma parse_ranges_keeps_distinct_witness :
  parse_ranges "5-1:2, 8" = Ok [5; 3; 1; 8].
Proof.
  destruct (parse_ranges_keeps_distinct "5-1:2, 8" [5; 3; 1; 8]
              ltac:(vm_compute; reflexivity)) as [H _].
  apply H. repeat constructor; cbn; lia.
Defined.

(** ** [sanitize_filename]: fixed points *)

Lemma sanitize_length (s : string) :
  (String.length (sanitize_filename s) <= String.length s)%nat.
Proof.
  induction s as [|c r IH]; [apply le_n|]. cbn [sanitize_filename].
  destruct (negb (PyStr.contains c forbidden_chars)); cbn [String.length]; lia.
Qed.

Lemma sanitize_clean_name (s : string) :
  (forall c, In c (list_ascii_of_string s) -> ~ is_forbidden c) ->
  sanitize_filename s = s.
Proof.
  induction s as [|d r IH]; [reflexivity|]. intros Hall.
  cbn [sanitize_filename].
  destruct (PyStr.contains d forbidden_chars) eqn:E.
  - exfalso. apply (Hall d); [now left | now apply forbidden_chars_spec].
  - cbn [negb]. f_equal. apply IH. intros c Hc. apply Hall. now right.
Qed.

(** X3. [sanitize_filename] leaves a name unchanged exactly when the name
    holds none of the nine characters; it never lengthens a name, and
    applying it twice is applying it once (the worker sanitizes the base
    name and then the whole file name again). *)
Theorem sanitize_fixed_point (s : string) :
  (sanitize_filename s = s
   <-> forall c, In c (list_ascii_of_string s) -> ~ is_forbidden c)
  /\ (String.length (sanitize_filename s) <= String.length s)%nat
  /\ sanitize_filename (sanitize_filename s) = sanitize_filename s.
Proof.
  split; [|split; [apply sanitize_length | apply sanitize_idempotent]].
  split.
  - intros H c Hc. rewrite <- H in Hc. exact (sanitize_clean s c Hc).
  - apply sanitize_clean_name.
Qed.

Lemma sanitize_fixed_point_witness :
  sanitize_filename "ticket_7.png" = "ticket_7.png".
Proof.
  destruct (sanitize_fixed_point "ticket_7.png") as [[_ H] _].
  apply H. intros c Hc Hf. apply forbidden_chars_spec in Hf.
  cbn in Hc. repeat (destruct Hc as [<-|Hc]; [discriminate Hf|]). exact Hc.
Defined.

(** ** Output paths of a Numbers run *)

Section Paths.

Lemma append_inv_head (a b c : string) : a ++ b = a ++ c -> b = c.
Proof.
  induction a as [|x a IH]; cbn [append]; intros H; [exact H|].
  injection H as H. exact (IH H).
Qed.

Lemma length_append (a b : string) :
  String.length (a ++ b) = (String.length a + String.length b)%nat.
Proof. induction a as [|x a IH]; cbn; [reflexivity | now rewrite IH]. Qed.

Lemma append_inv_tail (r b c : string) : b ++ r = c ++ r -> b = c.
Proof.
  revert c. induction b as [|x b IH]; intros [|y c] H; cbn [append] in H.
  - reflexivity.
  - apply (f_equal String.length) in H. cbn [String.length] in H.
    rewrite length_append in H. lia.
  - apply (f_equal String.length) in H. cbn [String.length] in H.
    rewrite length_append in H. lia.
  - injection H as -> H. f_equal. exact (IH c H).
Qed.

Lemma of_int_inj (z z' : Z) : PyStr.of_int z = PyStr.of_int z' -> z = z'.
Proof.
  unfold PyStr.of_int. intros H. apply DecimalZ.to_int_inj.
  assert (Hn : forall n, Z.to_int n <> Decimal.Pos Decimal.Nil
                         /\ Z.to_int n <> Decimal.Neg Decimal.Nil).
  { intros [|p|p]; cbn; split; try discriminate; intros E; injection E as E;
      exact (DecimalPos.Unsigned.to_uint_nonnil p E). }
  apply (f_equal NilZero.int_of_string) in H.
  rewrite !NilZero.isi in H by apply Hn. now injection H.
Qed.

(** The characters of [str(z)] are digits and the minus sign. *)
Lemma uint_chars_clean (d : Decimal.uint) (c : ascii) :
  In c (list_ascii_of_string (NilEmpty.string_of_uint d)) -> ~ is_forbidden c.
Proof.
  induction d as [|d IH|d IH|d IH|d IH|d IH|d IH|d IH|d IH|d IH|d IH];
    cbn [NilEmpty.string_of_uint list_ascii_of_string In];
    [intros [] | ..];
    (intros [<-|H];
     [intros Hf; apply forbidden_chars_spec in Hf; discriminate Hf
     | exact (IH H)]).
Qed.

Lemma of_int_clean (z : Z) (c : ascii) :
  In c (list_ascii_of_string (PyStr.of_int z)) -> ~ is_forbidden c.
Proof.
  assert (Hu : forall d, In c (list_ascii_of_string (NilZero.string_of_uint d)) ->
                         ~ is_forbidden c).
  { intros d. unfold NilZero.string_of_uint. destruct d; try apply uint_chars_clean.
    cbn. intros [<-|[]] Hf. apply forbidden_chars_spec in Hf. discriminate Hf. }
  unfold PyStr.of_int. destruct (Z.to_int z) as [d|d]; cbn [NilZero.string_of_int].
  - apply Hu.
  - cbn [list_ascii_of_string In]. intros [<-|H]; [|exact (Hu d H)].
    intros Hf. apply forbidden_chars_spec in Hf. discriminate Hf.
Qed.

Lemma sanitize_of_int (z : Z) : sanitize_filename (PyStr.of_int z) = PyStr.of_int z.
Proof. apply sanitize_clean_name, of_int_clean. Qed.

(** The saved name of an [int] value, for either source file. *)
Lemma int_leaf (src : variant) (self : CreatorWorker) (z : Z) :
  sanitize_filename (file_name_of src self (VInt z))
  = sanitize_filename (base_name self) ++ "_" ++ PyStr.of_int z ++ "."
      ++ sanitize_filename (out_ext self).
Proof.
  destruct src; cbn [file_name_of];
    unfold Corel.file_name_of, CorelTextPro.file_name_of; cbn [py_str];
    rewrite !sanitize_app, ?sanitize_idempotent, !sanitize_of_int; reflexivity.
Qed.

Lemma int_path_inj (src : variant) (self : CreatorWorker) (z z' : Z) :
  full_path_of self (file_name_of src self) (VInt z)
  = full_path_of self (file_name_of src self) (VInt z') ->
  z = z'.
Proof.
  unfold full_path_of, path_join. rewrite !sanitize_no_leading_slash, !int_leaf.
  intros H. apply of_int_inj.
  destruct (PyStr.is_empty (output_folder self) || endswith "/"%char (output_folder self)).
  - apply append_inv_head, append_inv_head, append_inv_head in H.
    exact (append_inv_tail _ _ _ H).
  - apply append_inv_head, append_inv_head, append_inv_head, append_inv_head in H.
    exact (append_inv_tail _ _ _ H).
Qed.

Lemma NoDup_map_inj {A B : Type} (f : A -> B) (l : list A) :
  (forall x y, In x l -> In y l -> f x = f y -> x = y) ->
  NoDup l -> NoDup (map f l).
Proof.
  induction l as [|x l IH]; intros Hinj Hnd; [constructor|].
  inversion Hnd as [|? ? Hx Hl]; subst. cbn [map]. constructor.
  - intros Hin. apply in_map_iff in Hin. destruct Hin as [y [Hy Hyl]].
    assert (y = x) by (apply Hinj; [now right | now left | exact Hy]).
    subst. contradiction.
  - apply IH; [|exact Hl]. intros a b Ha Hb. apply Hinj; now right.
Qed.

Lemma simple_values_NoDup (a b s : Z) : 0 < s -> NoDup (simple_values a b s).
Proof.
  intros Hs. destruct (Z.le_gt_cases a b) as [Hab|Hab].
  - destruct (simple_values_up a b s Hs Hab) as [-> _].
    apply NoDup_map_inj; [|apply seq_NoDup].
    intros i j _ _ H. assert (Z.of_nat i = Z.of_nat j) by nia. lia.
  - destruct (simple_values_down a b s Hs Hab) as [-> _].
    apply NoDup_map_inj; [|apply seq_NoDup].
    intros i j _ _ H. assert (Z.of_nat i = Z.of_nat j) by nia. lia.
Qed.

End Paths.

(** X4. A run never saves two values of its sequence under the same path:
    for a worker built by [__init__], from a range list without duplicates
    for corel.py, the paths of the values of the sequence are pairwise
    distinct, in both source files. *)
Theorem output_paths_distinct (src : variant) (a : CreatorWorker) :
  NoDup (ranges a) ->
  let self := match src with
              | CorelPy => Corel.init a
              | CorelTextProPy => CorelTextPro.init a
              end in
  NoDup (map (full_path_of self (file_name_of src self)) (values_of src self)).
Proof.
  intros Hr self.
  assert (Hstep : 0 < step self) by (destruct src; cbn; lia).
  assert (Hints : forall l : list Z, NoDup l ->
            NoDup (map (full_path_of self (file_name_of src self)) (map VInt l))).
  { intros l Hl. rewrite map_map. apply NoDup_map_inj; [|exact Hl].
    intros x y _ _. apply int_path_inj. }
  destruct src; cbn [values_of].
  - unfold Corel.count_values. apply Hints.
    destruct (ranges self) as [|v r] eqn:E.
    + apply simple_values_NoDup. exact Hstep.
    + rewrite <- E. exact Hr.
  - unfold CorelTextPro.count_values.
    destruct (String.eqb (mode self) "Text").
    + cbn [map]. repeat constructor. intros [].
    + apply Hints, simple_values_NoDup. exact Hstep.
Qed.

Lemma output_paths_distinct_witness :
  NoDup (map (full_path_of (Corel.init demo_worker)
                (file_name_of CorelPy (Corel.init demo_worker)))
           (values_of CorelPy (Corel.init demo_worker))).
Proof. apply (output_paths_distinct CorelPy demo_worker). constructor. Defined.

(** ** Shape of every trace *)

Section TraceShape.
Context {L : ImageLib}.
Variables (self : CreatorWorker) (W : world).
Variables (tx fn : value -> string).
Variables (bg : image) (cw ch total : Z).
Local Open Scope list_scope.

Let loop := run_loop self W tx fn bg cw ch total.
Let path_of := full_path_of self fn.

Lemma progress_of_app (a b : list event) :
  progress_of (a ++ b) = progress_of a ++ progress_of b.
Proof.
  induction a as [|e a IH]; [reflexivity|].
  destruct e; cbn [app progress_of]; rewrite IH; reflexivity.
Qed.

Lemma no_terminal_app (a b : list event) :
  no_terminal (a ++ b) <-> no_terminal a /\ no_terminal b.
Proof. unfold no_terminal. rewrite forallb_app. apply andb_true_iff. Qed.

Lemma no_terminal_manifest_free_terminal (a b : list event) :
  no_terminal a -> terminal_state (a ++ b) = terminal_state b.
Proof.
  unfold no_terminal. induction a as [|e a IH]; [reflexivity|].
  cbn [forallb]. intros H. apply andb_prop in H. destruct H as [He Ha].
  destruct e; cbn in He; try discriminate; cbn [app terminal_state]; exact (IH Ha).
Qed.

(** What the loop has emitted when it is left, in each of the three ways
    it can be left. *)
Lemma run_loop_shape (vals : list value) :
  forall p f,
  exists k,
    (k <= List.length vals)%nat
    /\ files_written (fst (loop vals p f)) = map path_of (firstn k vals)
    /\ progress_of (fst (loop vals p f))
       = map (fun i => (Z.of_nat i, total)) (seq (S p) k)
    /\ manifest (fst (loop vals p f)) = None
    /\ match snd (loop vals p f) with
       | LoopEnd q => q = (p + k)%nat /\ no_terminal (fst (loop vals p f))
       | Returned =>
           exists body msg,
             fst (loop vals p f) = body ++ [Error msg] /\ no_terminal body
       | Raised _ => no_terminal (fst (loop vals p f))
       end.
Proof.
  induction vals as [|v rest IH]; intros p f.
  - exists 0%nat. cbn. repeat split; lia.
  - unfold loop. cbn [run_loop]. destruct (stop_at W p).
    { exists 0%nat. cbn. repeat split; lia. }
    destruct (render_value self bg cw ch (tx v) f) as [[canvas f']|e].
    2:{ exists 0%nat. cbn. repeat split; lia. }
    destruct (save_error W p) as [err|].
    { exists 0%nat. cbn [fst snd files_written progress_of manifest firstn map seq].
      repeat split; try lia.
      eexists [_], _. split; reflexivity. }
    destruct (IH (S p) f') as [k [Hk [Hf [Hp [Hm Hx]]]]]. fold loop.
    destruct (loop rest (S p) f') as [tr ex] eqn:E. cbn [fst snd] in *.
    exists (S k). split; [cbn; lia|].
    split; [cbn [files_written firstn map]; now rewrite Hf|].
    split; [cbn [progress_of seq map]; now rewrite Hp|].
    split; [exact Hm|].
    destruct ex as [q| |e].
    + destruct Hx as [-> Hn]. split; [lia | exact Hn].
    + destruct Hx as [body [msg [-> Hn]]].
      exists (SaveFile (path_of v) (save_format (out_ext self)) canvas
                :: Progress (Z.of_nat (S p)) total :: Preview canvas :: body), msg.
      split; [reflexivity | exact Hn].
    + exact Hx.
Qed.

End TraceShape.

Section RunShape.
Context {L : ImageLib}.
Local Open Scope list_scope.

Lemma manifest_app_none (a b : list event) :
  manifest a = None -> manifest (a ++ b) = manifest b.
Proof.
  induction a as [|e a IH]; [reflexivity|].
  destruct e; cbn [app manifest]; try exact IH. discriminate.
Qed.

Lemma trace_shape_error (self : CreatorWorker) (fn : value -> string)
  (vals : list value) (msgs : list string) (msg : string) :
  trace_shape self fn vals (map Log msgs ++ [Error msg]).
Proof.
  exists 0%nat, (map Log msgs), (Error msg).
  split; [lia|]. split; [now rewrite files_written_logs|].
  split; [rewrite progress_of_app; induction msgs; [reflexivity | assumption]|].
  split; [reflexivity|]. split; [reflexivity|]. split.
  - unfold no_terminal. induction msgs; [reflexivity | assumption].
  - intros rows. rewrite manifest_logs. discriminate.
Qed.

Lemma trace_shape_logs (self : CreatorWorker) (fn : value -> string)
  (vals : list value) (msgs : list string) (tr : list event) :
  trace_shape self fn vals tr -> trace_shape self fn vals (map Log msgs ++ tr).
Proof.
  intros [k [body [t [Hk [Hf [Hp [Ht [Hterm [Hn Hm]]]]]]]]].
  exists k, (map Log msgs ++ body), t.
  split; [exact Hk|]. split; [now rewrite files_written_logs|].
  split.
  { rewrite progress_of_app, Hp.
    assert (E : progress_of (map Log msgs) = []) by (induction msgs; auto).
    now rewrite E. }
  split; [rewrite Ht; now rewrite app_assoc|]. split; [exact Hterm|]. split.
  - apply no_terminal_app. split; [|exact Hn].
    unfold no_terminal. induction msgs; [reflexivity | assumption].
  - intros rows. rewrite manifest_logs. apply Hm.
Qed.

Lemma run_values_shape (self : CreatorWorker) (W : world)
  (tx fn : value -> string) (bg : image) (cw ch : Z) (vals : list value) :
  trace_shape self fn vals (run_values self W tx fn bg cw ch vals).
Proof.
  unfold run_values.
  set (total := Z.of_nat (List.length vals)).
  destruct (run_loop_shape self W tx fn bg cw ch total vals 0%nat
              (load_font (font_size self))) as [k [Hk [Hf [Hp [Hm Hx]]]]].
  destruct (run_loop self W tx fn bg cw ch total vals 0 (load_font (font_size self)))
    as [tr ex]. cbn [fst snd] in *.
  destruct ex as [q| |e].
  - destruct Hx as [Hq Hn]. cbn in Hq. subst q.
    unfold write_report.
    set (rows := map (fun v => mkRow v (fn v) (full_path_of self fn v) (out_ext self))
                   (firstn k vals)).
    set (rep := match rows with
                | [] => []
                | _ :: _ =>
                    match excel_error W with
                    | None =>
                        [WriteExcel (path_join (output_folder self)
                                       "created_images_report.xlsx") rows;
                         Log ("Excel: " ++ path_join (output_folder self)
                                "created_images_report.xlsx")%string]
                    | Some e => [Log ("Excel error: " ++ e)%string]
                    end
                end).
    assert (Hrep : files_written rep = [] /\ progress_of rep = []
                   /\ no_terminal rep
                   /\ forall rs, manifest (rep ++ [Done (output_folder self)]) = Some rs ->
                                 rs = rows /\ rows <> []).
    { unfold rep. destruct rows as [|r0 rows']; [repeat split; discriminate|].
      destruct (excel_error W);
        (split; [reflexivity|]; split; [reflexivity|]; split; [reflexivity|];
         intros rs Hrs; cbn in Hrs; split; [congruence | discriminate]). }
    destruct Hrep as [R1 [R2 [R3 R4]]].
    exists k, (StartEstimate total :: tr ++ rep), (Done (output_folder self)).
    split; [exact Hk|]. split.
    { cbn [files_written]. rewrite !files_written_app, Hf, R1. cbn.
      now rewrite !app_nil_r. }
    split.
    { cbn [progress_of]. rewrite !progress_of_app, Hp, R2. cbn.
      now rewrite !app_nil_r. }
    split; [cbn [app]; now rewrite <- app_assoc|]. split; [reflexivity|]. split.
    { change (no_terminal ([StartEstimate total] ++ tr ++ rep)).
      rewrite !no_terminal_app. repeat split; assumption. }
    intros rs. cbn [manifest]. rewrite manifest_app_none by exact Hm.
    intros Hrs. destruct (R4 rs Hrs) as [-> Hne]. split; [reflexivity|].
    split; [|reflexivity].
    destruct k; [|lia]. exfalso. apply Hne. reflexivity.
  - destruct Hx as [body [msg [-> Hn]]].
    exists k, (StartEstimate total :: body), (Error msg).
    rewrite app_nil_r. split; [exact Hk|].
    split; [exact Hf|]. split; [exact Hp|]. split; [reflexivity|].
    split; [reflexivity|]. split; [exact Hn|].
    intros rows. cbn [manifest]. rewrite Hm. discriminate.
  - exists k, (StartEstimate total :: tr), (Error ("Worker exception: " ++ exn_name e)%string).
    split; [exact Hk|]. split.
    { cbn [files_written]. rewrite files_written_app, Hf. cbn. now rewrite app_nil_r. }
    split.
    { cbn [progress_of]. rewrite progress_of_app, Hp. cbn. now rewrite app_nil_r. }
    split; [reflexivity|]. split; [reflexivity|]. split; [exact Hx|].
    intros rows. cbn [manifest]. rewrite manifest_app_none by exact Hm. discriminate.
Qed.

End RunShape.

(** ** The paths a run saves to *)

Section SavedPaths.
Context {L : ImageLib}.
Variables (src : variant) (self : CreatorWorker).
Local Open Scope list_scope.

(** The name under which a value is saved, as [full_path_of] sanitizes it:
    the three parts come out sanitized, the separators are kept. *)
Lemma sanitized_leaf (val : value) :
  sanitize_filename (file_name_of src self val)
  = (sanitize_filename (base_name self) ++ "_"
       ++ sanitize_filename (py_str val) ++ "."
       ++ sanitize_filename (out_ext self))%string.
Proof.
  destruct src; cbn [file_name_of];
    unfold Corel.file_name_of, CorelTextPro.file_name_of;
    rewrite !sanitize_app, !sanitize_idempotent; reflexivity.
Qed.

Lemma files_of_shape (fn : value -> string) (vals : list value)
  (tr : list event) (path : string) :
  trace_shape self fn vals tr -> In path (files_written tr) ->
  exists val, In val vals /\ path = full_path_of self fn val.
Proof.
  intros [k [_ [_ [_ [Hf _]]]]] Hin. rewrite Hf in Hin.
  apply in_map_iff in Hin. destruct Hin as [val [E Hv]].
  exists val. split; [|now symmetry].
  rewrite <- (firstn_skipn k vals). apply in_or_app. left. exact Hv.
Qed.

(** Every file a run writes is the file of one value of its sequence. *)
Lemma saved_paths_of_run (W : world) (path : string) :
  In path (files_written (run_of src self W)) ->
  exists val,
    In val (values_of src self)
    /\ path = full_path_of self (file_name_of src self) val.
Proof.
  apply files_of_shape.
  destruct (background W) as [|msg|bg] eqn:Hbg.
  - destruct src; cbn [run_of]; unfold Corel.run, CorelTextPro.run; rewrite Hbg;
      apply (trace_shape_error _ _ _ []).
  - destruct src; cbn [run_of]; unfold Corel.run, CorelTextPro.run; rewrite Hbg;
      destruct (target_size self) as [[tw th]|e];
      try apply (trace_shape_error _ _ _ []).
    apply (trace_shape_error _ _ _ [_]).
  - destruct (target_size self) as [[tw th]|e] eqn:Ht.
    + rewrite (run_of_readable src self W bg tw th Hbg Ht).
      apply trace_shape_logs, run_values_shape.
    + destruct src; cbn [run_of]; unfold Corel.run, CorelTextPro.run;
        rewrite Hbg, Ht; apply (trace_shape_error _ _ _ []).
Qed.

End SavedPaths.

(** C9. [sanitize_filename] keeps, in their order, exactly the characters
    that are none of the nine forbidden ones. The path under which either
    variant saves a value, [full_path_of], is a prefix made of the output
    folder alone followed by the file name, and that file name is the
    sanitized base name, an underscore, the sanitized value, a dot and the
    sanitized extension: it contains no forbidden character. Every file
    that a run writes, in whatever world, has such a path, for a value of
    the sequence of the run. *)
Theorem sanitized_output_path {L : ImageLib} (src : variant)
  (self : CreatorWorker) :
  let leaf := fun val : value =>
    sanitize_filename (base_name self) ++ "_"
      ++ sanitize_filename (py_str val) ++ "."
      ++ sanitize_filename (out_ext self) in
  let in_folder := fun (path : string) (val : value) =>
    exists dir,
      path = dir ++ leaf val
      /\ (dir = output_folder self \/ dir = output_folder self ++ "/") in
  (forall s, list_ascii_of_string (sanitize_filename s)
             = filter (fun c => negb (PyStr.contains c forbidden_chars))
                 (list_ascii_of_string s))
  /\ (forall c, PyStr.contains c forbidden_chars = true <-> is_forbidden c)
  /\ (forall val c, In c (list_ascii_of_string (leaf val)) -> ~ is_forbidden c)
  /\ (forall val,
        in_folder (full_path_of self (file_name_of src self) val) val)
  /\ (forall W path,
        In path (files_written (run_of src self W)) ->
        exists val, In val (values_of src self) /\ in_folder path val).
Proof.
  intros leaf in_folder.
  assert (Hleaf : forall val,
            sanitize_filename (file_name_of src self val) = leaf val).
  { intros val. apply sanitized_leaf. }
  assert (Hpath : forall val,
            in_folder (full_path_of self (file_name_of src self) val) val).
  { intros val. unfold in_folder, full_path_of. rewrite <- Hleaf.
    apply path_join_sanitized. }
  split; [exact sanitize_is_filter|].
  split; [exact forbidden_chars_spec|].
  split; [|split].
  - intros val c. rewrite <- Hleaf. apply sanitize_clean.
  - exact Hpath.
  - intros W path Hin.
    destruct (saved_paths_of_run src self W path Hin) as [val [Hv ->]].
    exists val. split; [exact Hv | apply Hpath].
Qed.

Lemma sanitized_output_path_witness :
  exists dir,
    full_path_of (CorelTextPro.init demo_worker)
      (CorelTextPro.file_name_of (CorelTextPro.init demo_worker)) (VStr "a/b:c*d")
    = dir ++ "ticket_abcd.png"
    /\ (dir = "out" \/ dir = "out/").
Proof.
  destruct (@sanitized_output_path demo_lib CorelTextProPy
              (CorelTextPro.init demo_worker)) as [_ [_ [_ [H _]]]].
  exact (H (VStr "a/b:c*d")).
Defined.

(** X5. Whatever the world does, a run of either source file (a) saves the
    files of the first [k] values of its sequence, in order, for some [k];
    (b) emits the progress signals [(1, total)], ..., [(k, total)], one per
    saved file, [total] being the length of the sequence; (c) ends with
    exactly one terminal signal, [done] or [error], which is its last
    event; and (d) if it writes a report, the report has one row per saved
    file, in order, at least one file was saved, and the terminal signal is
    [done]. *)
Theorem run_trace_invariants {L : ImageLib} (src : variant)
  (self : CreatorWorker) (W : world) :
  trace_shape self (file_name_of src self) (values_of src self)
    (run_of src self W).
Proof.
  destruct (background W) as [|msg|bg] eqn:Hbg.
  - destruct src; cbn [run_of]; unfold Corel.run, CorelTextPro.run; rewrite Hbg;
      apply (trace_shape_error _ _ _ []).
  - destruct src; cbn [run_of]; unfold Corel.run, CorelTextPro.run; rewrite Hbg;
      destruct (target_size self) as [[tw th]|e];
      try apply (trace_shape_error _ _ _ []).
    apply (trace_shape_error _ _ _ [_]).
  - destruct (target_size self) as [[tw th]|e] eqn:Ht.
    + rewrite (run_of_readable src self W bg tw th Hbg Ht).
      apply trace_shape_logs, run_values_shape.
    + destruct src; cbn [run_of]; unfold Corel.run, CorelTextPro.run;
        rewrite Hbg, Ht; apply (trace_shape_error _ _ _ []).
Qed.

(** ** Runs that complete *)

Section Outcomes.
Context {L : ImageLib}.
Variables (self : CreatorWorker) (W : world).
Variables (tx fn : value -> string).
Variables (bg : image) (cw ch total : Z).
Local Open Scope list_scope.

Let loop := run_loop self W tx fn bg cw ch total.
Let path_of := full_path_of self fn.

Lemma run_loop_completed (vals : list value) :
  forall p f,
    (forall i, (i < List.length vals)%nat -> stop_at W (p + i) = false) ->
    (forall i, (i < List.length vals)%nat -> save_error W (p + i) = None) ->
    renders_ok self tx bg cw ch vals (List.length vals) f = true ->
    exists tr,
      loop vals p f = (tr, LoopEnd (p + List.length vals))
      /\ files_written tr = map path_of vals
      /\ Forall value_event tr.
Proof.
  induction vals as [|v rest IH]; intros p f Hgo Hsave Hrend.
  - exists []. cbn. rewrite Nat.add_0_r. repeat split. constructor.
  - cbn [renders_ok List.length] in Hrend.
    destruct (render_value self bg cw ch (tx v) f) as [[canvas f']|e] eqn:Er;
      [|discriminate].
    destruct (IH (S p) f') as [tr [Hrun [Hfiles Hev]]].
    + intros i Hi. replace (S p + i)%nat with (p + S i)%nat by lia.
      apply Hgo. cbn. lia.
    + intros i Hi. replace (S p + i)%nat with (p + S i)%nat by lia.
      apply Hsave. cbn. lia.
    + exact Hrend.
    + pose proof (Hgo 0%nat ltac:(cbn; lia)) as Hgo0.
      pose proof (Hsave 0%nat ltac:(cbn; lia)) as Hsave0.
      rewrite Nat.add_0_r in Hgo0, Hsave0.
      exists (SaveFile (path_of v) (save_format (out_ext self)) canvas
                :: Progress (Z.of_nat (S p)) total :: Preview canvas :: tr).
      unfold loop in *. cbn [run_loop]. rewrite Hgo0, Er, Hsave0, Hrun.
      cbn [List.length]. replace (S p + List.length rest)%nat
        with (p + S (List.length rest))%nat by lia.
      split; [reflexivity|]. split.
      * cbn [files_written map]. now rewrite Hfiles.
      * repeat (constructor; [exact I|]). exact Hev.
Qed.

End Outcomes.

(** X6. A run that is not stopped, whose values all render and save, saves
    one file per value of the sequence, in order, and ends with [done]. If
    the sequence is not empty it then writes the report with one row per
    value when the writer succeeds; when the writer fails the failure is
    only logged, no report exists, and the run still ends with [done]. *)
Theorem completed_run {L : ImageLib} (src : variant) (self : CreatorWorker)
  (W : world) (bg : image) (tw th : Z) :
  let vals := values_of src self in
  let cw := fst (canvas_of src bg tw th) in
  let ch := snd (canvas_of src bg tw th) in
  background W = Readable bg ->
  target_size self = Ok (tw, th) ->
  (forall i, stop_at W i = false) ->
  (forall i, save_error W i = None) ->
  renders_ok self (text_of src self) bg cw ch vals (List.length vals)
    (load_font (font_size self)) = true ->
  let tr := run_of src self W in
  files_written tr = map (full_path_of self (file_name_of src self)) vals
  /\ terminal_state tr = Some (Completed (output_folder self))
  /\ manifest tr
     = match vals, excel_error W with
       | _ :: _, None => Some (map (row_of self (file_name_of src self)) vals)
       | _, _ => None
       end
  /\ (forall e, vals <> [] -> excel_error W = Some e ->
        logged ("Excel error: " ++ e) tr = true).
Proof.
  intros vals cw ch Hbg Ht Hgo Hsave Hrend tr.
  pose proof (run_of_readable src self W bg tw th Hbg Ht) as Hrun.
  destruct (run_loop_completed self W (text_of src self) (file_name_of src self)
              bg cw ch (Z.of_nat (List.length vals)) vals 0%nat
              (load_font (font_size self)) (fun i _ => Hgo i) (fun i _ => Hsave i)
              Hrend) as [body [Hloop [Hfiles Hev]]].
  cbn [Nat.add] in Hloop.
  set (rep := write_report self W (file_name_of src self) vals (List.length vals)).
  assert (Htr : tr = (map Log (preamble src self bg tw th)
                 ++ StartEstimate (Z.of_nat (List.length vals)) :: body ++ rep)%list).
  { unfold tr. rewrite Hrun. unfold run_values. fold vals cw ch.
    rewrite Hloop. reflexivity. }
  assert (Hrep : rep = (match vals, excel_error W with
                        | _ :: _, None =>
                            [WriteExcel (path_join (output_folder self)
                                           "created_images_report.xlsx")
                               (map (row_of self (file_name_of src self)) vals);
                             Log ("Excel: " ++ path_join (output_folder self)
                                    "created_images_report.xlsx")]
                        | _ :: _, Some e => [Log ("Excel error: " ++ e)]
                        | [], _ => []
                        end ++ [Done (output_folder self)])%list).
  { unfold rep, write_report. rewrite firstn_all.
    destruct vals as [|v rest]; [reflexivity|].
    destruct (excel_error W); reflexivity. }
  rewrite Htr. split; [|split; [|split]].
  - rewrite files_written_logs. cbn [files_written].
    rewrite files_written_app, Hfiles, Hrep.
    destruct vals as [|v rest]; [|destruct (excel_error W)];
      cbn [files_written app]; now rewrite app_nil_r.
  - rewrite terminal_logs. cbn [terminal_state].
    rewrite (terminal_value_events _ _ Hev), Hrep.
    destruct vals as [|v rest]; [|destruct (excel_error W)]; reflexivity.
  - rewrite manifest_logs. cbn [manifest].
    rewrite (manifest_value_events _ _ Hev), Hrep.
    destruct vals as [|v rest]; [|destruct (excel_error W)]; reflexivity.
  - intros e Hne He. unfold logged. rewrite existsb_app. cbn [existsb].
    rewrite existsb_app, Hrep, He.
    destruct vals as [|v rest]; [contradiction|].
    cbn [app existsb]. rewrite String.eqb_refl. rewrite !orb_true_r. reflexivity.
Qed.

Lemma completed_run_witness :
  files_written (Corel.run (Corel.init demo_worker) (calm_world opaque_bg))
  = ["out/ticket_1.png"; "out/ticket_2.png"; "out/ticket_3.png"]
  /\ terminal_state (Corel.run (Corel.init demo_worker) (calm_world opaque_bg))
     = Some (Completed "out").
Proof.
  destruct (@completed_run demo_lib CorelPy (Corel.init demo_worker)
              (calm_world opaque_bg) opaque_bg 200 100
              eq_refl ltac:(vm_compute; reflexivity) (fun _ => eq_refl)
              (fun _ => eq_refl) ltac:(vm_compute; reflexivity))
    as [Hfiles [Hterm _]].
  split.
  - etransitivity; [exact Hfiles | vm_compute; reflexivity].
  - exact Hterm.
Defined.

(** X8. When the background is not a file, or is a file that cannot be
    opened, a run of either source file saves nothing, writes no report,
    estimates nothing, and ends with [error]; when it is not a file the
    trace is that one signal, before any size is computed. *)
Theorem unusable_background {L : ImageLib} (src : variant)
  (self : CreatorWorker) (W : world) :
  (forall bg, background W <> Readable bg) ->
  let tr := run_of src self W in
  files_written tr = []
  /\ manifest tr = None
  /\ progress_of tr = []
  /\ (exists msg, terminal_state tr = Some (Failed msg))
  /\ (background W = NotAFile -> tr = [Error "Background image not found."]).
Proof.
  intros Hbg tr. unfold tr.
  destruct (background W) as [|msg|bg] eqn:E.
  - destruct src; cbn [run_of]; unfold Corel.run, CorelTextPro.run; rewrite E;
      (split; [reflexivity|]; split; [reflexivity|]; split; [reflexivity|];
       split; [eexists; reflexivity | reflexivity]).
  - destruct src; cbn [run_of]; unfold Corel.run, CorelTextPro.run; rewrite E;
      destruct (target_size self) as [[tw th]|e];
      (split; [reflexivity|]; split; [reflexivity|]; split; [reflexivity|];
       split; [eexists; reflexivity | discriminate]).
  - exfalso. exact (Hbg bg eq_refl).
Qed.

Lemma unusable_background_witness :
  files_written (CorelTextPro.run (CorelTextPro.init demo_worker)
                   (mkWorld (Unreadable "cannot identify image file")
                      (fun _ => false) (fun _ => None) None)) = [].
Proof.
  destruct (@unusable_background demo_lib CorelTextProPy
              (CorelTextPro.init demo_worker)
              (mkWorld (Unreadable "cannot identify image file")
                 (fun _ => false) (fun _ => None) None)
              ltac:(intros bg; discriminate)) as [H _].
  exact H.
Defined.

(** ** The font from one value to the next *)

Section FontCarry.
Context {L : ImageLib}.

Lemma fit_text_untouched (fs : Z) (text : string) (aw ah : Z) (f : font) :
  oversized aw ah (fst (measure text f)) (snd (measure text f)) = false
  \/ is_freetype f = false ->
  fnt (fit_text fs text aw ah f) = f
  /\ (t_w (fit_text fs text aw ah f), t_h (fit_text fs text aw ah f))
     = measure text f.
Proof.
  unfold fit_text. destruct (measure text f) as [tw th]. cbn [fst snd].
  intros [H|H]; rewrite H; rewrite ?andb_false_r; cbn; split; reflexivity.
Qed.

Lemma render_value_font (self : CreatorWorker) (bg : image) (cw ch : Z)
  (text : string) (f : font) (canvas : image) (f' : font) :
  render_value self bg cw ch text f = Ok (canvas, f') ->
  f' = fnt (fit_text (font_size self) text
              (Z.max 1 (cw - pr self - pl self))
              (Z.max 1 (ch - pb self - pt self)) f).
Proof.
  unfold render_value. intros H.
  destruct (compose_canvas (scale_bg self) bg cw ch) as [c|]; [|discriminate].
  cbn [bind] in H.
  destruct (place (halign self) _ _ _ _ _ _) as [tx|]; [|discriminate].
  cbn [bind] in H.
  destruct (place (valign self) _ _ _ _ _ _) as [ty|]; [|discriminate].
  cbn [bind] in H.
  destruct (font_color self) as [[r g] b]. now injection H.
Qed.

End FontCarry.

(** X9. The loop never restores the configured font size. The font that
    [run] hands to the next value is the one the text fit of the current
    value ended with; and when that font measures the next text inside the
    available rectangle, or is not a FreeType font, the next text is drawn
    with it and it is handed on again, whatever the configured size. *)
Theorem shrunk_font_is_kept {L : ImageLib} (self : CreatorWorker) (W : world)
  (tx fn : value -> string) (bg : image) (cw ch total : Z)
  (v1 v2 : value) (rest : list value) (p : nat) (f f1 : font) (c1 : image) :
  let aw := Z.max 1 (cw - pr self - pl self) in
  let ah := Z.max 1 (ch - pb self - pt self) in
  stop_at W p = false -> save_error W p = None ->
  render_value self bg cw ch (tx v1) f = Ok (c1, f1) ->
  f1 = fnt (fit_text (font_size self) (tx v1) aw ah f)
  /\ run_loop self W tx fn bg cw ch total (v1 :: v2 :: rest) p f
     = (SaveFile (full_path_of self fn v1) (save_format (out_ext self)) c1
          :: Progress (Z.of_nat (S p)) total :: Preview c1
          :: fst (run_loop self W tx fn bg cw ch total (v2 :: rest) (S p) f1),
        snd (run_loop self W tx fn bg cw ch total (v2 :: rest) (S p) f1))
  /\ (oversized aw ah (fst (measure (tx v2) f1)) (snd (measure (tx v2) f1)) = false
      \/ is_freetype f1 = false ->
      forall c2 f2,
        render_value self bg cw ch (tx v2) f1 = Ok (c2, f2) -> f2 = f1).
Proof.
  intros aw ah Hgo Hsave Hr.
  split; [exact (render_value_font self bg cw ch (tx v1) f c1 f1 Hr)|]. split.
  - cbn [run_loop]. rewrite Hgo, Hr, Hsave.
    destruct (stop_at W (S p)); [reflexivity|].
    destruct (render_value self bg cw ch (tx v2) f1) as [[c2 f2]|e]; [|reflexivity].
    destruct (save_error W (S p)); [reflexivity|].
    destruct (run_loop self W tx fn bg cw ch total rest (S (S p)) f2). reflexivity.
  - intros Hfit c2 f2 H2.
    rewrite (render_value_font self bg cw ch (tx v2) f1 c2 f2 H2).
    exact (proj1 (fit_text_untouched (font_size self) (tx v2) aw ah f1 Hfit)).
Qed.

Lemma shrunk_font_is_kept_witness :
  exists c1 c2,
    @render_value demo_lib (Corel.init long_then_short_worker) opaque_bg 200 100
      "No. 100000" 48 = Ok (c1, 30)
    /\ @render_value demo_lib (Corel.init long_then_short_worker) opaque_bg 200 100
         "No. 1" 30 = Ok (c2, 30).
Proof.
  destruct (@render_value demo_lib (Corel.init long_then_short_worker) opaque_bg
              200 100 "No. 100000" 48) as [[c1 f1]|e] eqn:E1;
    [|vm_compute in E1; discriminate].
  destruct (@render_value demo_lib (Corel.init long_then_short_worker) opaque_bg
              200 100 "No. 1" 30) as [[c2 f2]|e] eqn:E2;
    [|vm_compute in E2; discriminate].
  destruct (@shrunk_font_is_kept demo_lib (Corel.init long_then_short_worker)
              (calm_world opaque_bg)
              (Corel.text_of (Corel.init long_then_short_worker))
              (Corel.file_name_of (Corel.init long_then_short_worker))
              opaque_bg 200 100 2 (VInt 100000) (VInt 1) [] 0%nat 48 f1 c1
              eq_refl eq_refl E1) as [Hf1 [_ Hkeep]].
  assert (Ef1 : f1 = 30) by (rewrite Hf1; vm_compute; reflexivity).
  subst f1. exists c1, c2. split; [reflexivity|].
  rewrite (Hkeep (or_introl eq_refl) c2 f2 E2). reflexivity.
Defined.

(** ** Geometry of the cover branch *)

(** X10. When the size computed for the resized background covers the
    target, the cover branch returns a canvas of exactly the target size;
    each of its pixels is the pixel of the resized background at the same
    position shifted by the centre-crop offsets, with its four bands
    unchanged (so the canvas is opaque wherever the resized background is);
    and the margins cut on the two sides of an axis differ by at most one
    pixel, the smaller one being on the left or the top. *)
Theorem cover_canvas_geometry {L : ImageLib} (bg : image) (tw th sw sh : Z) :
  cover_size bg tw th = Ok (sw, sh) ->
  tw <= sw -> th <= sh ->
  exists canvas,
    compose_canvas true bg tw th = Ok canvas
    /\ width canvas = tw /\ height canvas = th
    /\ (forall x y, 0 <= x < tw -> 0 <= y < th ->
          px canvas x y
          = px (resize bg sw sh) (x + (sw - tw) / 2) (y + (sh - th) / 2))
    /\ (0 <= (sw - tw) / 2
        /\ (sw - tw) / 2 <= sw - tw - (sw - tw) / 2 <= (sw - tw) / 2 + 1)
    /\ (0 <= (sh - th) / 2
        /\ (sh - th) / 2 <= sh - th - (sh - th) / 2 <= (sh - th) / 2 + 1).
Proof.
  intros Hs Hw Hh. unfold compose_canvas. rewrite Hs. cbn [bind].
  eexists. split; [reflexivity|]. split; [reflexivity|]. split; [reflexivity|].
  split; [|split].
  - intros x y Hx Hy. apply cover_paste_pixel; assumption.
  - pose proof (centre_crop_symmetric sw tw Hw) as H. cbn zeta in H. lia.
  - pose proof (centre_crop_symmetric sh th Hh) as H. cbn zeta in H. lia.
Qed.

Lemma cover_canvas_geometry_witness :
  exists canvas,
    @compose_canvas demo_lib true opaque_bg 2 4 = Ok canvas
    /\ width canvas = 2 /\ height canvas = 4
    /\ alpha (px canvas 1 3) = 255.
Proof.
  destruct (@cover_canvas_geometry demo_lib opaque_bg 2 4 4 4
              ltac:(vm_compute; reflexivity) ltac:(lia) ltac:(lia))
    as [canvas [Hc [Hwd [Hht [Hpx _]]]]].
  exists canvas. split; [exact Hc|]. split; [exact Hwd|]. split; [exact Hht|].
  rewrite (Hpx 1 3) by lia. reflexivity.
Defined.

(** ** The window and the worker *)

Lemma simple_values_head (a b s : Z) :
  0 < s -> exists rest, simple_values a b s = a :: rest.
Proof.
  intros Hs. destruct (Z.le_gt_cases a b) as [Hab|Hab].
  - destruct (simple_values_up a b s Hs Hab) as [Hv [Hn _]].
    pose proof (Z.div_pos (b - a) s ltac:(lia) Hs).
    destruct (List.length (simple_values a b s)) as [|n]; [lia|].
    rewrite Hv. cbn [seq map]. eexists. f_equal. lia.
  - destruct (simple_values_down a b s Hs Hab) as [Hv [Hn _]].
    pose proof (Z.div_pos (a - b) s ltac:(lia) Hs).
    destruct (List.length (simple_values a b s)) as [|n]; [lia|].
    rewrite Hv. cbn [seq map]. eexists. f_equal. lia.
Qed.

(** X12. The label shown by [update_preview] is the label of the first
    value the worker renders from the same settings: in corel.py always
    (first value of the range list, or the start value); in
    corel_text_pro.py for the two modes the window offers, Numbers and
    Text. In particular the sequence of a worker is never empty in simple
    mode. *)
Theorem preview_shows_first_label (a : CreatorWorker) :
  (exists v rest,
     Corel.count_values (Corel.init a) = v :: rest
     /\ Corel.text_of (Corel.init a) v
        = CorelApp.preview_text (prefix a) (suffix a) (ranges a) (start_count a))
  /\ (mode a = "Text" \/ mode a = "Numbers" ->
      exists v rest,
        CorelTextPro.count_values (CorelTextPro.init a) = v :: rest
        /\ CorelTextPro.text_of (CorelTextPro.init a) v
           = CorelTextProApp.preview_text (mode a) (custom_text a) (start_count a)).
Proof.
  destruct (simple_values_head (start_count a) (end_count a) (Z.max 1 (step a))
              ltac:(lia)) as [rest Hrest].
  split.
  - unfold Corel.count_values, Corel.init, Corel.text_of, CorelApp.preview_text.
    cbn [ranges start_count end_count step prefix suffix].
    destruct (ranges a) as [|r0 rs].
    + rewrite Hrest. exists (VInt (start_count a)), (map VInt rest).
      split; reflexivity.
    + exists (VInt r0), (map VInt rs). split; reflexivity.
  - unfold CorelTextPro.count_values, CorelTextPro.init, CorelTextPro.text_of,
      CorelTextProApp.preview_text.
    cbn [mode custom_text start_count end_count step].
    intros [-> | ->].
    + exists (VStr (custom_text a)), []. split; reflexivity.
    + cbn [String.eqb Ascii.eqb Bool.eqb andb]. rewrite Hrest.
      exists (VInt (start_count a)), (map VInt rest). split; reflexivity.
Qed.

Lemma preview_shows_first_label_witness :
  exists v rest,
    CorelTextPro.count_values (CorelTextPro.init demo_worker) = v :: rest
    /\ CorelTextPro.text_of (CorelTextPro.init demo_worker) v = "1".
Proof.
  destruct (preview_shows_first_label demo_worker) as [_ H].
  destruct (H (or_intror eq_refl)) as [v [rest [H1 H2]]].
  exists v, rest. split; [exact H1 | exact H2].
Defined.

Lemma zero_times_dpi (d : Z) :
  1 <= d <= 1200 -> PyFloat.round (0 * PyFloat.of_int d)%float = Ok 0.
Proof.
  intros Hd.
  assert (Hall : forallb
            (fun n => match PyFloat.round (0 * PyFloat.of_int (Z.of_nat n))%float with
                      | Ok 0 => true
                      | _ => false
                      end) (seq 1 1200) = true) by (vm_compute; reflexivity).
  rewrite forallb_forall in Hall.
  specialize (Hall (Z.to_nat d)). rewrite Z2Nat.id in Hall by lia.
  assert (Hin : In (Z.to_nat d) (seq 1 1200)) by (apply in_seq; lia).
  specialize (Hall Hin).
  destruct (PyFloat.round (0 * PyFloat.of_int d)%float) as [[| |]|]; try discriminate.
  reflexivity.
Qed.

Lemma zero_inches (u : string) : inches_from_unit 0%float u = 0%float.
Proof.
  unfold inches_from_unit.
  destruct (String.eqb u "inches"); [reflexivity|].
  destruct (String.eqb u "cm"); [vm_compute; reflexivity|].
  destruct (String.eqb u "mm"); [vm_compute; reflexivity | reflexivity].
Qed.

(** X13. With the Auto-fit box ticked, [_collect_params] hands 0.0 for both
    measurements, and the worker that [start_create] builds then renders at
    the native size of the background, whatever the unit and whatever the
    DPI in 1..1200 (the DPI field of the window ranges over 72..1200). *)
Theorem auto_fit_box_uses_background (a : CreatorWorker) (bg_w bg_h : Z) :
  dpi a <= 1200 ->
  target_size (CorelTextProApp.start_create_worker true a) = Ok (1, 1)
  /\ CorelTextPro.canvas_size (CorelTextProApp.start_create_worker true a) bg_w bg_h
     = Ok (bg_w, bg_h).
Proof.
  intros Hd.
  assert (Ht : target_size (CorelTextProApp.start_create_worker true a) = Ok (1, 1)).
  { unfold target_size, target_px, CorelTextProApp.start_create_worker,
      CorelTextPro.init.
    cbn [width_val height_val unit_ dpi CorelTextProApp.collect_measure fst snd].
    rewrite zero_inches, zero_times_dpi by lia. reflexivity. }
  split; [exact Ht|].
  unfold CorelTextPro.canvas_size. rewrite Ht. reflexivity.
Qed.

Lemma auto_fit_box_uses_background_witness :
  CorelTextPro.canvas_size (CorelTextProApp.start_create_worker true demo_worker)
    640 480 = Ok (640, 480).
Proof.
  destruct (auto_fit_box_uses_background demo_worker 640 480 ltac:(cbn; lia))
    as [_ H].
  exact H.
Defined.

(** ** Reading back what [str] prints *)

Section DigitStrings.

Lemma digit_cases (c : ascii) :
  PyStr.isdigit c = true ->
  PyStr.isspace c = false /\ PyStr.c_isspace c = false
  /\ Ascii.eqb c "-" = false /\ Ascii.eqb c "+" = false
  /\ Ascii.eqb c "_" = false.
Proof.
  destruct c as [[] [] [] [] [] [] [] []]; intros H; try discriminate H;
    repeat split; reflexivity.
Qed.

Lemma contains_digits (x : ascii) (s : string) :
  all_digits s = true -> PyStr.isdigit x = false -> PyStr.contains x s = false.
Proof.
  intros Hs Hx. induction s as [|c r IH]; [reflexivity|].
  cbn [all_digits] in Hs. apply andb_prop in Hs. destruct Hs as [Hc Hr].
  cbn [PyStr.contains]. rewrite (IH Hr), orb_false_r.
  destruct (Ascii.eqb_spec x c) as [->|]; [congruence | reflexivity].
Qed.

Lemma lstrip_keeps (sp : ascii -> bool) (c : ascii) (r : string) :
  sp c = false -> PyStr.lstrip_by sp (String c r) = String c r.
Proof. intros H. cbn [PyStr.lstrip_by]. now rewrite H. Qed.

Lemma rstrip_digits (sp : ascii -> bool) (s : string) :
  (forall c, PyStr.isdigit c = true -> sp c = false) ->
  all_digits s = true -> PyStr.rstrip_by sp s = s.
Proof.
  intros Hsp. induction s as [|c r IH]; [reflexivity|].
  cbn [all_digits]. intros H. apply andb_prop in H. destruct H as [Hc Hr].
  cbn [PyStr.rstrip_by]. rewrite (IH Hr), (Hsp c Hc). reflexivity.
Qed.

Lemma rstrip_keeps (sp : ascii -> bool) (c : ascii) (r : string) :
  PyStr.rstrip_by sp r = r -> r <> EmptyString ->
  PyStr.rstrip_by sp (String c r) = String c r.
Proof.
  intros Hr Hne. cbn [PyStr.rstrip_by]. rewrite Hr.
  destruct r; [contradiction|]. cbn [PyStr.is_empty]. now rewrite andb_false_r.
Qed.

Lemma replace_absent (old new : ascii) (s : string) :
  PyStr.contains old s = false -> PyStr.replace old new s = s.
Proof.
  induction s as [|c r IH]; [reflexivity|].
  cbn [PyStr.contains PyStr.replace]. intros H.
  apply orb_false_iff in H. destruct H as [Hc Hr].
  rewrite (IH Hr). rewrite Ascii.eqb_sym in Hc. now rewrite Hc.
Qed.

Lemma split_absent (sep : ascii) (s : string) :
  PyStr.contains sep s = false -> PyStr.split sep s = [s].
Proof.
  induction s as [|c r IH]; [reflexivity|].
  cbn [PyStr.contains PyStr.split]. intros H.
  apply orb_false_iff in H. destruct H as [Hc Hr].
  rewrite Ascii.eqb_sym in Hc. rewrite Hc, (IH Hr). reflexivity.
Qed.

Lemma split_at (sep : ascii) (u v : string) :
  PyStr.contains sep u = false ->
  PyStr.split sep (u ++ String sep v) = u :: PyStr.split sep v.
Proof.
  induction u as [|c r IH]; intros H.
  - cbn [append PyStr.split]. now rewrite Ascii.eqb_refl.
  - cbn [PyStr.contains] in H. apply orb_false_iff in H. destruct H as [Hc Hr].
    cbn [append PyStr.split]. rewrite Ascii.eqb_sym in Hc.
    rewrite Hc, (IH Hr). reflexivity.
Qed.

Lemma int_digits_value (s : string) :
  forall acc prev,
    all_digits s = true -> prev = true \/ s <> EmptyString ->
    PyStr.int_digits acc prev s = Some (digits_value acc s).
Proof.
  induction s as [|c r IH]; intros acc prev Hs Hp.
  - destruct Hp as [->|Hp]; [reflexivity | contradiction].
  - cbn [all_digits] in Hs. apply andb_prop in Hs. destruct Hs as [Hc Hr].
    cbn [PyStr.int_digits digits_value]. rewrite Hc. apply IH; [exact Hr | now left].
Qed.

(** [int] reads a non-empty digit string within the limit as the number it
    spells. *)
Lemma int_of_digits (s : string) :
  readable s -> PyStr.int s = Ok (digits_value 0 s).
Proof.
  intros [Hs [Hne Hlen]]. destruct s as [|c r]; [contradiction|].
  assert (Hc : PyStr.isdigit c = true).
  { cbn [all_digits] in Hs. now apply andb_prop in Hs. }
  destruct (digit_cases c Hc) as [_ [Hsp [Hm [Hpl _]]]].
  unfold PyStr.int. rewrite (lstrip_keeps _ c r Hsp).
  rewrite (rstrip_digits PyStr.c_isspace (String c r));
    [|intros d Hd; exact (proj1 (proj2 (digit_cases d Hd))) | exact Hs].
  cbv zeta. rewrite (proj2 (Z.ltb_ge _ _) Hlen).
  rewrite (int_digits_value (String c r) 0 false Hs (or_intror Hne)).
  destruct c as [[] [] [] [] [] [] [] []]; try discriminate Hc; reflexivity.
Qed.

Lemma count_all_digits (s : string) :
  all_digits s = true -> PyStr.count_digits s = Z.of_nat (String.length s).
Proof.
  induction s as [|c r IH]; [reflexivity|].
  cbn [all_digits]. intros H. apply andb_prop in H. destruct H as [Hc Hr].
  cbn [PyStr.count_digits String.length]. rewrite Hc, (IH Hr). lia.
Qed.

Lemma digit_code (c : ascii) : PyStr.isdigit c = true -> 0 <= PyStr.code c - 48.
Proof.
  unfold PyStr.isdigit. intros H. apply andb_prop in H. destruct H as [H _].
  apply Z.leb_le in H. lia.
Qed.

(** A digit string spells at least its first digit times the power of ten
    of the digits that follow. *)
Lemma digits_value_lower (s : string) :
  all_digits s = true ->
  forall acc, 0 <= acc ->
    acc * 10 ^ Z.of_nat (String.length s) <= digits_value acc s.
Proof.
  induction s as [|c r IH]; intros Hs acc Hacc.
  - cbn [String.length digits_value]. change (10 ^ Z.of_nat 0) with 1. lia.
  - cbn [all_digits] in Hs. apply andb_prop in Hs. destruct Hs as [Hc Hr].
    cbn [String.length digits_value]. pose proof (digit_code c Hc) as Hd.
    specialize (IH Hr (10 * acc + (PyStr.code c - 48)) ltac:(lia)).
    rewrite Nat2Z.inj_succ, Z.pow_succ_r by lia.
    set (P := 10 ^ Z.of_nat (String.length r)) in *.
    assert (HP : 0 < P) by (apply Z.pow_pos_nonneg; lia).
    eapply Z.le_trans; [|exact IH].
    replace (acc * (10 * P)) with (10 * acc * P) by ring.
    apply Z.mul_le_mono_nonneg_r; lia.
Qed.

Lemma strip_digits (s : string) : all_digits s = true -> PyStr.strip s = s.
Proof.
  intros Hs. unfold PyStr.strip.
  assert (Hl : PyStr.lstrip_by PyStr.isspace s = s).
  { destruct s as [|c r]; [reflexivity|]. apply lstrip_keeps.
    cbn [all_digits] in Hs. apply andb_prop in Hs.
    exact (proj1 (digit_cases c (proj1 Hs))). }
  rewrite Hl. apply rstrip_digits; [|exact Hs].
  intros c Hc. exact (proj1 (digit_cases c Hc)).
Qed.

(** What [str] prints for a natural number. *)
Lemma uint_all_digits (d : Decimal.uint) :
  all_digits (NilEmpty.string_of_uint d) = true.
Proof. induction d; cbn [NilEmpty.string_of_uint all_digits]; auto. Qed.

Lemma uint_value_acc (d : Decimal.uint) :
  forall acc : positive,
    digits_value (Z.pos acc) (NilEmpty.string_of_uint d)
    = Z.pos (Pos.of_uint_acc d acc).
Proof.
  induction d; intros acc;
    cbn [NilEmpty.string_of_uint digits_value Pos.of_uint_acc];
    [reflexivity | ..];
    rewrite <- IHd; f_equal;
    match goal with |- context [PyStr.code ?c] =>
      let k := eval vm_compute in (PyStr.code c) in
      change (PyStr.code c) with k
    end; lia.
Qed.

Lemma uint_value (d : Decimal.uint) :
  digits_value 0 (NilEmpty.string_of_uint d) = Z.of_N (Pos.of_uint d).
Proof.
  induction d; cbn [NilEmpty.string_of_uint digits_value Pos.of_uint];
    [reflexivity | exact IHd | ..];
    (etransitivity; [|apply (uint_value_acc d)]); reflexivity.
Qed.

(** What [str] prints for a positive number does not start with 0. *)
Lemma to_uint_head (p : positive) (d : Decimal.uint) :
  Pos.to_uint p <> Decimal.D0 d.
Proof.
  intros E.
  pose proof (DecimalPos.Unsigned.to_of (Pos.to_uint p)) as H.
  rewrite DecimalPos.Unsigned.of_to in H. cbn [N.to_uint] in H.
  rewrite E in H. unfold Decimal.unorm in H. cbn [Decimal.nzhead] in H.
  destruct (Decimal.nzhead d) eqn:En;
    try (symmetry in H; rewrite <- En in H;
         exact (DecimalFacts.nzhead_nonzero d d H)).
  injection H as ->. exact (DecimalPos.Unsigned.to_uint_nonzero p E).
Qed.

Lemma of_int_nonneg (n : Z) :
  0 <= n ->
  all_digits (PyStr.of_int n) = true
  /\ PyStr.of_int n <> EmptyString
  /\ digits_value 0 (PyStr.of_int n) = n.
Proof.
  intros Hn. destruct n as [|p|p]; [repeat split; discriminate | | lia].
  unfold PyStr.of_int. cbn [Z.to_int NilZero.string_of_int].
  pose proof (DecimalPos.Unsigned.to_uint_nonnil p) as Hnil.
  pose proof (DecimalPos.Unsigned.of_to p) as Hof.
  unfold NilZero.string_of_uint.
  destruct (Pos.to_uint p) as [|d|d|d|d|d|d|d|d|d|d] eqn:E; [contradiction| ..];
    (split; [apply uint_all_digits|]; split; [discriminate|];
     rewrite uint_value, Hof; reflexivity).
Qed.

(** A number below [10 ^ max_str_digits] is printed with at most
    [max_str_digits] digits. *)
Lemma of_int_short (n : Z) :
  0 <= n < 10 ^ PyStr.max_str_digits ->
  PyStr.count_digits (PyStr.of_int n) <= PyStr.max_str_digits.
Proof.
  intros [Hn Hlt]. destruct (of_int_nonneg n Hn) as [Hd [Hne Hv]].
  rewrite (count_all_digits _ Hd).
  destruct n as [|p|p]; [unfold PyStr.max_str_digits; cbn; lia | | lia].
  revert Hd Hv. unfold PyStr.of_int. cbn [Z.to_int NilZero.string_of_int].
  unfold NilZero.string_of_uint.
  pose proof (DecimalPos.Unsigned.to_uint_nonnil p) as Hnil.
  pose proof (to_uint_head p) as Hhead.
  destruct (Pos.to_uint p) as [|d|d|d|d|d|d|d|d|d|d] eqn:E;
    [contradiction | exfalso; exact (Hhead d eq_refl) | ..];
    cbn [NilEmpty.string_of_uint all_digits digits_value String.length];
    intros Hd Hv; apply andb_prop in Hd; destruct Hd as [_ Hd];
    match type of Hv with
    | digits_value ?k ?r = _ =>
        pose proof (digits_value_lower r Hd k ltac:(vm_compute; discriminate)) as Hlow;
        assert (Hk : 1 <= k) by (vm_compute; discriminate);
        set (len := Z.of_nat (String.length r)) in *;
        assert (Hp : 0 < 10 ^ len) by (apply Z.pow_pos_nonneg; unfold len; lia);
        assert (Hpow : 10 ^ len < 10 ^ PyStr.max_str_digits)
          by (eapply Z.le_lt_trans; [|exact Hlt]; rewrite <- Hv;
              eapply Z.le_trans; [|exact Hlow];
              rewrite <- (Z.mul_1_l (10 ^ len)) at 1;
              apply Z.mul_le_mono_nonneg_r; lia);
        apply Z.pow_lt_mono_r_iff in Hpow;
          [|lia | unfold PyStr.max_str_digits; lia];
        rewrite Nat2Z.inj_succ; fold len; lia
    end.
Qed.

Lemma of_int_readable (n : Z) :
  0 <= n < 10 ^ PyStr.max_str_digits ->
  readable (PyStr.of_int n) /\ digits_value 0 (PyStr.of_int n) = n.
Proof.
  intros Hn. destruct (of_int_nonneg n (proj1 Hn)) as [Hd [Hne Hv]].
  split; [|exact Hv]. split; [exact Hd|]. split; [exact Hne|].
  apply of_int_short. exact Hn.
Qed.

End DigitStrings.

Section SingleToken.
Local Open Scope list_scope.

Lemma str_app_assoc (u v w : string) :
  ((u ++ v) ++ w = u ++ (v ++ w))%string.
Proof. induction u as [|c r IH]; cbn [append]; [reflexivity | now rewrite IH]. Qed.

Lemma contains_app (x : ascii) (u v : string) :
  PyStr.contains x (u ++ v)%string = PyStr.contains x u || PyStr.contains x v.
Proof.
  induction u as [|c r IH]; cbn [append PyStr.contains]; [reflexivity|].
  now rewrite IH, orb_assoc.
Qed.

Lemma replace_app (old new : ascii) (u v : string) :
  PyStr.replace old new (u ++ v)%string
  = (PyStr.replace old new u ++ PyStr.replace old new v)%string.
Proof.
  induction u as [|c r IH]; cbn [append PyStr.replace]; [reflexivity|].
  now rewrite IH.
Qed.

Lemma no_space_app (u v : string) :
  no_space (u ++ v)%string = no_space u && no_space v.
Proof.
  induction u as [|c r IH]; cbn [append no_space]; [reflexivity|].
  now rewrite IH, andb_assoc.
Qed.

Lemma no_space_digits (s : string) : all_digits s = true -> no_space s = true.
Proof.
  induction s as [|c r IH]; [reflexivity|].
  cbn [all_digits no_space]. intros H. apply andb_prop in H. destruct H as [Hc Hr].
  now rewrite (proj1 (digit_cases c Hc)), (IH Hr).
Qed.

Lemma strip_no_space (s : string) : no_space s = true -> PyStr.strip s = s.
Proof.
  intros Hs. unfold PyStr.strip.
  assert (Hl : PyStr.lstrip_by PyStr.isspace s = s).
  { destruct s as [|c r]; [reflexivity|]. apply lstrip_keeps.
    cbn [no_space] in Hs. apply andb_prop in Hs.
    now apply negb_true_iff. }
  rewrite Hl. clear Hl. induction s as [|c r IH]; [reflexivity|].
  cbn [no_space] in Hs. apply andb_prop in Hs. destruct Hs as [Hc Hr].
  cbn [PyStr.rstrip_by]. rewrite (IH Hr).
  apply negb_true_iff in Hc. now rewrite Hc.
Qed.

(** A specification that is one token: no blank, no comma, no semicolon. *)
Lemma single_token (t : string) :
  t <> EmptyString -> no_space t = true ->
  PyStr.contains ","%char t = false -> PyStr.contains ";"%char t = false ->
  expand_ranges t = parse_token t.
Proof.
  intros Hne Hsp Hc Hs. unfold expand_ranges, token_list.
  rewrite (strip_no_space t Hsp), (replace_absent _ _ t Hs), (split_absent _ t Hc).
  cbn [filter]. rewrite (strip_no_space t Hsp).
  destruct t as [|c r]; [contradiction|]. cbn [PyStr.is_empty negb map].
  rewrite (strip_no_space _ Hsp). cbn [parse_tokens].
  destruct (parse_token (String c r)); reflexivity.
Qed.

Lemma parse_token_number (n : Z) :
  0 <= n < 10 ^ PyStr.max_str_digits -> parse_token (PyStr.of_int n) = Ok [n].
Proof.
  intros Hn. destruct (of_int_readable n Hn) as [Hr Hv].
  pose proof (proj1 Hr) as Hd.
  unfold parse_token.
  rewrite (contains_digits ":" _ Hd), (contains_digits "x" _ Hd) by reflexivity.
  cbn [orb]. rewrite (contains_digits "-" _ Hd) by reflexivity.
  now rewrite (int_of_digits _ Hr), Hv.
Qed.

Lemma int_of_number (n : Z) :
  0 <= n < 10 ^ PyStr.max_str_digits ->
  PyStr.int (PyStr.strip (PyStr.of_int n)) = Ok n.
Proof.
  intros Hn. destruct (of_int_readable n Hn) as [Hr Hv].
  now rewrite (strip_digits _ (proj1 Hr)), (int_of_digits _ Hr), Hv.
Qed.

Lemma of_int_negative (p : positive) :
  PyStr.of_int (Z.neg p) = String "-" (PyStr.of_int (Z.pos p)).
Proof. reflexivity. Qed.

Lemma parse_token_negative (p : positive) :
  parse_token (PyStr.of_int (Z.neg p)) = Raise ValueError.
Proof.
  rewrite of_int_negative.
  destruct (of_int_nonneg (Z.pos p) ltac:(lia)) as [Hd [Hne Hv]].
  set (D := PyStr.of_int (Z.pos p)) in *.
  unfold parse_token. cbn [PyStr.contains].
  rewrite (contains_digits ":" _ Hd), (contains_digits "x" _ Hd) by reflexivity.
  cbn [Ascii.eqb Bool.eqb orb PyStr.split].
  rewrite (split_absent ":" D (contains_digits ":" _ Hd eq_refl)).
  cbn [app firstn PyStr.split Ascii.eqb Bool.eqb].
  rewrite (split_absent "-" D (contains_digits "-" _ Hd eq_refl)).
  reflexivity.
Qed.

(** The three shapes of a range token over printed numbers. *)
Lemma parse_token_range (A B St : string) (a b st : Z) :
  readable A -> digits_value 0 A = a ->
  readable B -> digits_value 0 B = b ->
  readable St -> digits_value 0 St = st ->
  forall p,
    p = (A ++ String "-" B)%string /\ st = 1
    \/ p = (A ++ String "-" (B ++ String ":" St))%string
    \/ p = (A ++ String "-" (B ++ String "x" St))%string ->
    parse_token p = Ok (simple_values a b (Z.max 1 st)).
Proof.
  intros RA Ha RB Hb RS Hs p Hp.
  pose proof (proj1 RA) as HA. pose proof (proj1 RB) as HB.
  pose proof (proj1 RS) as HS.
  assert (Hcore :
    match firstn 2 (PyStr.split ":" (A ++ String "-" (B ++ String ":" St))%string
                    ++ ["1"%string]) with
    | [rng; st0] =>
        match PyStr.split "-"%char rng with
        | [a0; b0] =>
            let* a0 := PyStr.int (PyStr.strip a0) in
            let* b0 := PyStr.int (PyStr.strip b0) in
            let* st0 := PyStr.int (PyStr.strip st0) in
            let s := Z.max 1 st0 in
            if a0 <=? b0 then Ok (PyStr.range a0 (b0 + 1) s)
            else Ok (PyStr.range a0 (b0 - 1) (- s))
        | _ => Raise ValueError
        end
    | _ => Raise ValueError
    end = Ok (simple_values a b (Z.max 1 st))).
  { change (String "-" (B ++ String ":" St))%string
      with (String "-" B ++ String ":" St)%string.
    rewrite <- str_app_assoc, split_at.
    2:{ rewrite contains_app. cbn [PyStr.contains].
        now rewrite (contains_digits ":" _ HA), (contains_digits ":" _ HB). }
    rewrite (split_absent ":" St (contains_digits ":" _ HS eq_refl)).
    cbn [app firstn].
    rewrite split_at by (now apply contains_digits).
    rewrite (split_absent "-" B (contains_digits "-" _ HB eq_refl)).
    rewrite !strip_digits by assumption.
    rewrite (int_of_digits A RA), (int_of_digits B RB), (int_of_digits St RS).
    rewrite Ha, Hb, Hs. cbn [bind]. unfold simple_values.
    destruct (a <=? b); reflexivity. }
  assert (HcA : forall x, PyStr.isdigit x = false -> PyStr.contains x A = false)
    by (intros; now apply contains_digits).
  assert (HcB : forall x, PyStr.isdigit x = false -> PyStr.contains x B = false)
    by (intros; now apply contains_digits).
  assert (HcS : forall x, PyStr.isdigit x = false -> PyStr.contains x St = false)
    by (intros; now apply contains_digits).
  destruct Hp as [[-> Hst] | [-> | ->]]; unfold parse_token.
  - rewrite !contains_app. cbn [PyStr.contains].
    rewrite !HcA, !HcB by reflexivity. cbn [Ascii.eqb Bool.eqb orb].
    rewrite !contains_app. cbn [PyStr.contains].
    rewrite !HcA by reflexivity. cbn [Ascii.eqb Bool.eqb orb].
    rewrite split_absent.
    2:{ rewrite contains_app. cbn [PyStr.contains]. now rewrite HcA, HcB. }
    cbn [app firstn].
    rewrite split_at by (now apply HcA).
    rewrite (split_absent "-" B (HcB "-"%char eq_refl)).
    rewrite (strip_digits A HA), (strip_digits B HB).
    rewrite (int_of_digits A RA), (int_of_digits B RB).
    rewrite Ha, Hb. subst st. rewrite Hst.
    change (PyStr.int (PyStr.strip "1")) with (@Ok Z 1).
    cbn [bind]. unfold simple_values.
    destruct (a <=? b); reflexivity.
  - rewrite !contains_app. cbn [PyStr.contains]. rewrite !contains_app.
    cbn [PyStr.contains].
    rewrite !HcA, !HcB, !HcS by reflexivity. cbn [Ascii.eqb Bool.eqb orb].
    rewrite replace_absent.
    2:{ rewrite contains_app. cbn [PyStr.contains]. rewrite contains_app.
        cbn [PyStr.contains]. now rewrite HcA, HcB, HcS. }
    rewrite !contains_app. cbn [PyStr.contains].
    rewrite !HcA by reflexivity. cbn [Ascii.eqb Bool.eqb orb].
    exact Hcore.
  - rewrite !contains_app. cbn [PyStr.contains]. rewrite !contains_app.
    cbn [PyStr.contains].
    rewrite !HcA, !HcB, !HcS by reflexivity. cbn [Ascii.eqb Bool.eqb orb].
    rewrite !replace_app. cbn [PyStr.replace]. rewrite !replace_app.
    cbn [PyStr.replace Ascii.eqb Bool.eqb].
    rewrite !replace_absent by (now apply contains_digits).
    rewrite !contains_app. cbn [PyStr.contains].
    rewrite !HcA by reflexivity. cbn [Ascii.eqb Bool.eqb orb].
    exact Hcore.
Qed.

End SingleToken.

Section PrintedTokens.
Local Open Scope list_scope.

Lemma dedupe_simple_values (a b s : Z) :
  0 < s -> dedupe (simple_values a b s) [] [] = simple_values a b s.
Proof.
  intros Hs.
  rewrite (dedupe_distinct (simple_values a b s) [] []);
    [reflexivity | tauto | now apply simple_values_NoDup | intros x _ []].
Qed.

Lemma parse_ranges_range_token (A B St : string) (a b st : Z) (p : string) :
  readable A -> digits_value 0 A = a ->
  readable B -> digits_value 0 B = b ->
  readable St -> digits_value 0 St = st ->
  p = (A ++ String "-" B)%string /\ st = 1
  \/ p = (A ++ String "-" (B ++ String ":" St))%string
  \/ p = (A ++ String "-" (B ++ String "x" St))%string ->
  parse_ranges p = Ok (simple_values a b (Z.max 1 st)).
Proof.
  intros RA Ha RB Hb RS Hs Hp.
  pose proof (parse_token_range A B St a b st RA Ha RB Hb RS Hs p Hp) as Htok.
  destruct RA as [HA [HAne _]]. destruct RB as [HB [HBne _]].
  destruct RS as [HS [HSne _]].
  assert (HcA : forall x, PyStr.isdigit x = false -> PyStr.contains x A = false)
    by (intros; now apply contains_digits).
  assert (HcB : forall x, PyStr.isdigit x = false -> PyStr.contains x B = false)
    by (intros; now apply contains_digits).
  assert (HcS : forall x, PyStr.isdigit x = false -> PyStr.contains x St = false)
    by (intros; now apply contains_digits).
  pose proof (no_space_digits A HA) as HnA.
  pose proof (no_space_digits B HB) as HnB.
  pose proof (no_space_digits St HS) as HnS.
  unfold parse_ranges. rewrite single_token, Htok.
  - cbn [bind]. now rewrite dedupe_simple_values by lia.
  - destruct Hp as [[-> _] | [-> | ->]]; destruct A; try contradiction;
      discriminate.
  - destruct Hp as [[-> _] | [-> | ->]];
      rewrite ?no_space_app; cbn [no_space]; rewrite ?no_space_app;
      cbn [no_space]; now rewrite ?HnA, ?HnB, ?HnS.
  - destruct Hp as [[-> _] | [-> | ->]];
      rewrite ?contains_app; cbn [PyStr.contains]; rewrite ?contains_app;
      cbn [PyStr.contains]; now rewrite ?HcA, ?HcB, ?HcS.
  - destruct Hp as [[-> _] | [-> | ->]];
      rewrite ?contains_app; cbn [PyStr.contains]; rewrite ?contains_app;
      cbn [PyStr.contains]; now rewrite ?HcA, ?HcB, ?HcS.
Qed.

End PrintedTokens.

(** A number of four digits is well below the limit. *)
Lemma four_digits (n : Z) :
  Z.abs n < 10 ^ 4 -> Z.abs n < 10 ^ PyStr.max_str_digits.
Proof.
  intros H. eapply Z.lt_le_trans; [exact H|].
  apply Z.pow_le_mono_r; unfold PyStr.max_str_digits; lia.
Qed.

(** X14.  For a number that [str] prints, one of at most 4300 digits,
    [parse_ranges] reads back the printed text of a number that is not
    negative as the one-element list of that number; on the text of a
    negative number the minus sign starts a range with an empty lower
    bound, and the call raises [ValueError]. *)
Theorem parse_ranges_reads_printed_number (n : Z) :
  Z.abs n < 10 ^ PyStr.max_str_digits ->
  parse_ranges (PyStr.of_int n)
  = if 0 <=? n then Ok [n] else Raise ValueError.
Proof.
  intros Hlim.
  destruct (Z.leb_spec 0 n) as [Hn|Hn].
  - assert (Hb : 0 <= n < 10 ^ PyStr.max_str_digits) by lia.
    destruct (of_int_nonneg n Hn) as [Hd [Hne Hv]].
    unfold parse_ranges.
    rewrite single_token, (parse_token_number n Hb);
      [reflexivity | exact Hne | now apply no_space_digits
      | now apply contains_digits | now apply contains_digits].
  - destruct n as [|p|p]; try lia.
    destruct (of_int_nonneg (Z.pos p) ltac:(lia)) as [Hd [Hne Hv]].
    unfold parse_ranges.
    rewrite single_token, parse_token_negative; [reflexivity | ..];
      rewrite of_int_negative.
    + discriminate.
    + cbn [no_space]. now rewrite (no_space_digits _ Hd).
    + cbn [PyStr.contains]. now rewrite (contains_digits "," _ Hd).
    + cbn [PyStr.contains]. now rewrite (contains_digits ";" _ Hd).
Qed.

Lemma parse_ranges_reads_printed_number_witness :
  parse_ranges "4079" = Ok [4079] /\ parse_ranges "-12" = Raise ValueError.
Proof.
  split.
  - exact (parse_ranges_reads_printed_number 4079 (four_digits 4079 ltac:(lia))).
  - exact (parse_ranges_reads_printed_number (-12) (four_digits (-12) ltac:(lia))).
Defined.

(** A literal of more digits than the limit is refused by [int], whatever
    it spells. *)
Lemma int_refuses_long (s : string) :
  PyStr.max_str_digits
  < PyStr.count_digits
      (PyStr.rstrip_by PyStr.c_isspace (PyStr.lstrip_by PyStr.c_isspace s)) ->
  PyStr.int s = Raise ValueError.
Proof.
  intros H. unfold PyStr.int. cbv zeta.
  rewrite (proj2 (Z.ltb_lt _ _) H).
  match goal with |- match ?m with _ => _ end = _ => destruct m end; reflexivity.
Qed.

(** X15.  A range token written with printed numbers that are not
    negative, each of at most 4300 digits, the two ends less than
    [2^63 - 1] apart (the longest range whose length Python takes; the
    memory for the list is taken for granted, as in the simple mode), means
    what the simple mode means: [A-B] is the simple sequence from A to B
    with step 1, and [A-B:S], also spelled [A-BxS], is the simple sequence
    with step [max(1, S)], ascending or descending as A and B ask. *)
Theorem range_token_is_simple_mode (a b s : Z) :
  0 <= a < 10 ^ PyStr.max_str_digits ->
  0 <= b < 10 ^ PyStr.max_str_digits ->
  0 <= s < 10 ^ PyStr.max_str_digits ->
  Z.abs (b - a) < 2 ^ 63 - 1 ->
  parse_ranges (PyStr.of_int a ++ "-" ++ PyStr.of_int b)
  = Ok (simple_values a b 1)
  /\ parse_ranges (PyStr.of_int a ++ "-" ++ PyStr.of_int b ++ ":" ++ PyStr.of_int s)
     = Ok (simple_values a b (Z.max 1 s))
  /\ parse_ranges (PyStr.of_int a ++ "-" ++ PyStr.of_int b ++ "x" ++ PyStr.of_int s)
     = Ok (simple_values a b (Z.max 1 s)).
Proof.
  intros Ha Hb Hs _.
  destruct (of_int_readable a Ha) as [RA HvA].
  destruct (of_int_readable b Hb) as [RB HvB].
  destruct (of_int_readable s Hs) as [RS HvS].
  assert (R1 : readable "1").
  { split; [reflexivity|]. split; [discriminate|].
    vm_compute. discriminate. }
  split; [|split].
  - apply (parse_ranges_range_token (PyStr.of_int a) (PyStr.of_int b) "1" a b 1);
      try assumption; try reflexivity.
    left. split; reflexivity.
  - apply (parse_ranges_range_token (PyStr.of_int a) (PyStr.of_int b)
             (PyStr.of_int s) a b s); try assumption.
    right. left. reflexivity.
  - apply (parse_ranges_range_token (PyStr.of_int a) (PyStr.of_int b)
             (PyStr.of_int s) a b s); try assumption.
    right. right. reflexivity.
Qed.

Lemma range_token_is_simple_mode_witness :
  parse_ranges "9-2" = Ok [9; 8; 7; 6; 5; 4; 3; 2]
  /\ parse_ranges "9-2:3" = Ok [9; 6; 3]
  /\ parse_ranges "9-2x3" = Ok [9; 6; 3].
Proof.
  assert (H : forall n, 0 <= n < 10 ^ 4 -> 0 <= n < 10 ^ PyStr.max_str_digits).
  { intros n Hn. split; [lia|]. apply Z.abs_lt. apply four_digits. lia. }
  exact (range_token_is_simple_mode 9 2 3 (H 9 ltac:(lia)) (H 2 ltac:(lia))
           (H 3 ltac:(lia)) ltac:(lia)).
Defined.

(** ** [inches_from_unit]: centimetres and back *)

Lemma digits2_pos_size (m : positive) : digits2_pos m = Pos.size m.
Proof. induction m; cbn; congruence. Qed.

Lemma digits2_pos_bounds (m : positive) :
  2 ^ (Z.pos (digits2_pos m) - 1) <= Z.pos m < 2 ^ Z.pos (digits2_pos m).
Proof.
  induction m as [m IH|m IH|]; cbn [digits2_pos].
  - rewrite Pos2Z.inj_succ.
    replace (Z.succ (Z.pos (digits2_pos m)) - 1) with (Z.pos (digits2_pos m) - 1 + 1) by lia.
    rewrite Z.pow_succ_r by lia. rewrite Z.pow_add_r by lia. lia.
  - rewrite Pos2Z.inj_succ.
    replace (Z.succ (Z.pos (digits2_pos m)) - 1) with (Z.pos (digits2_pos m) - 1 + 1) by lia.
    rewrite Z.pow_succ_r by lia. rewrite Z.pow_add_r by lia. lia.
  - cbn. lia.
Qed.

Lemma Zdigits2_bounds (m : Z) :
  0 < m -> 2 ^ (Zdigits2 m - 1) <= m < 2 ^ Zdigits2 m.
Proof. destruct m; try lia. intros _. apply digits2_pos_bounds. Qed.

Lemma Zdigits2_nonneg (m : Z) : 0 <= Zdigits2 m.
Proof. destruct m; cbn; lia. Qed.

(* digits determined by bounds *)
Lemma Zdigits2_unique (m d : Z) :
  2 ^ (d - 1) <= m < 2 ^ d -> 0 < m -> 0 <= d -> Zdigits2 m = d.
Proof.
  intros H Hm Hd. pose proof (Zdigits2_bounds m Hm) as B.
  pose proof (Zdigits2_nonneg m).
  destruct (Z.lt_trichotomy (Zdigits2 m) d) as [Hlt|[Heq|Hgt]]; [|assumption|].
  - assert (2 ^ Zdigits2 m <= 2 ^ (d - 1)) by (apply Z.pow_le_mono_r; lia). lia.
  - assert (2 ^ d <= 2 ^ (Zdigits2 m - 1)) by (apply Z.pow_le_mono_r; lia). lia.
Qed.

Lemma shr_1_m (mrs : shr_record) :
  0 <= shr_m mrs -> shr_m (shr_1 mrs) = shr_m mrs / 2.
Proof.
  destruct mrs as [m r s]. cbn [shr_m shr_1]. intros Hm.
  destruct m as [|p|p]; try lia; [reflexivity|].
  destruct p as [p|p|]; cbn [shr_m].
  - rewrite Pos2Z.inj_xI. apply (Z.div_unique _ _ _ 1); lia.
  - rewrite Pos2Z.inj_xO. apply (Z.div_unique _ _ _ 0); lia.
  - reflexivity.
Qed.

Lemma iter_pos_shr_1 (p : positive) :
  forall mrs, 0 <= shr_m mrs ->
    shr_m (iter_pos shr_1 p mrs) = shr_m mrs / 2 ^ Z.pos p.
Proof.
  assert (Hnn : forall mrs, 0 <= shr_m mrs -> 0 <= shr_m mrs / 2)
    by (intros; apply Z.div_pos; lia).
  induction p as [p IH|p IH|]; intros mrs Hm; cbn [iter_pos].
  - assert (H1 : 0 <= shr_m (shr_1 mrs)) by (rewrite shr_1_m; auto).
    assert (H2 : 0 <= shr_m (iter_pos shr_1 p (shr_1 mrs))).
    { rewrite IH by assumption. apply Z.div_pos; [assumption|]. apply Z.pow_pos_nonneg; lia. }
    rewrite IH, IH by assumption. rewrite shr_1_m by assumption.
    rewrite !Z.div_div by (try apply Z.pow_pos_nonneg; lia).
    f_equal. assert (E : Z.pos p~1 = 1 + Z.pos p + Z.pos p) by lia.
    rewrite E, !Z.pow_add_r by lia. lia.
  - assert (H2 : 0 <= shr_m (iter_pos shr_1 p mrs)).
    { rewrite IH by assumption. apply Z.div_pos; [assumption|]. apply Z.pow_pos_nonneg; lia. }
    rewrite IH, IH by assumption.
    rewrite !Z.div_div by (try apply Z.pow_pos_nonneg; lia).
    f_equal. assert (E : Z.pos p~0 = Z.pos p + Z.pos p) by lia.
    rewrite E, !Z.pow_add_r by lia. lia.
  - rewrite shr_1_m by assumption. reflexivity.
Qed.

Lemma shr_record_of_loc_m (m : Z) (l : location) : shr_m (shr_record_of_loc m l) = m.
Proof. destruct l as [|[| |]]; reflexivity. Qed.

Lemma shr_spec (mrs : shr_record) (e n : Z) :
  0 <= shr_m mrs ->
  shr_m (fst (shr mrs e n)) = shr_m mrs / 2 ^ Z.max 0 n
  /\ snd (shr mrs e n) = e + Z.max 0 n.
Proof.
  intros Hm. destruct n as [|p|p]; cbn [shr fst snd].
  - cbn. rewrite Z.div_1_r. lia.
  - rewrite iter_pos_shr_1 by assumption. rewrite Z.max_r by lia. split; reflexivity.
  - cbn. rewrite Z.div_1_r. lia.
Qed.

Lemma fexp_64 (e : Z) : fexp prec emax e = fexp64 e.
Proof. reflexivity. Qed.

Lemma rne_cases (m : Z) (l : location) :
  round_nearest_even m l = m \/ round_nearest_even m l = m + 1.
Proof.
  destruct l as [|[| |]]; cbn; auto. destruct (Z.even m); auto.
Qed.

Lemma pow2_pos (k : Z) : 0 <= k -> 0 < 2 ^ k.
Proof. intros. apply Z.pow_pos_nonneg; lia. Qed.

Lemma pow2_le (a b : Z) : 0 <= a <= b -> 2 ^ a <= 2 ^ b.
Proof. intros. apply Z.pow_le_mono_r; lia. Qed.

Lemma pow2_lt (a b : Z) : 0 <= a < b -> 2 ^ a < 2 ^ b.
Proof. intros. apply Z.pow_lt_mono_r; lia. Qed.

(* if m * 2^a < 2^b with m >= 2^c then c + a < b *)
Lemma pow2_lt_inv (a b : Z) : 0 <= a -> 0 <= b -> 2 ^ a < 2 ^ b -> a < b.
Proof.
  intros Ha Hb H. destruct (Z.lt_ge_cases a b) as [|Hge]; [assumption|].
  pose proof (pow2_le b a ltac:(lia)). lia.
Qed.

(** Shifting out bits that are all zero leaves an exact record. *)
Lemma iter_pos_shr_exact (p : positive) :
  forall c, 0 <= c ->
    iter_pos shr_1 p (Build_shr_record (c * 2 ^ Z.pos p) false false)
    = Build_shr_record c false false.
Proof.
  assert (H1 : forall c, 0 <= c ->
            shr_1 (Build_shr_record (c * 2) false false)
            = Build_shr_record c false false).
  { intros c Hc. rewrite Z.mul_comm. destruct c as [|q|q]; [reflexivity | reflexivity | lia]. }
  induction p as [p IH|p IH|]; intros c Hc; cbn [iter_pos].
  - assert (E : c * 2 ^ Z.pos p~1 = c * 2 ^ Z.pos p * 2 ^ Z.pos p * 2).
    { assert (Ep : Z.pos p~1 = Z.pos p + Z.pos p + 1) by lia.
      rewrite Ep, !Z.pow_add_r by lia. change (2 ^ 1) with 2. ring. }
    assert (Hp : 0 < 2 ^ Z.pos p) by (apply Z.pow_pos_nonneg; lia).
    rewrite E, H1 by (repeat apply Z.mul_nonneg_nonneg; lia).
    rewrite IH by (apply Z.mul_nonneg_nonneg; lia).
    apply IH. exact Hc.
  - assert (E : c * 2 ^ Z.pos p~0 = c * 2 ^ Z.pos p * 2 ^ Z.pos p).
    { assert (Ep : Z.pos p~0 = Z.pos p + Z.pos p) by lia.
      rewrite Ep, Z.pow_add_r by lia. ring. }
    assert (Hp : 0 < 2 ^ Z.pos p) by (apply Z.pow_pos_nonneg; lia).
    rewrite E, IH by (apply Z.mul_nonneg_nonneg; lia).
    apply IH. exact Hc.
  - change (2 ^ 1) with 2. apply H1. exact Hc.
Qed.

Section RoundAux.
Variables (m e : Z) (l : location).

Let d := Zdigits2 m.
Let n := ra_n m e.
Let m1 := ra_m1 m e.
Let e1 := ra_e1 m e.

Lemma ra_n_nonneg : 0 <= ra_n m e.
Proof. unfold ra_n. lia. Qed.

Lemma ra_e1_min : -1074 <= ra_e1 m e.
Proof. unfold ra_e1, ra_n, fexp64. lia. Qed.

Lemma ra_floor :
  ra_m1 m e * 2 ^ ra_n m e <= m < (ra_m1 m e + 1) * 2 ^ ra_n m e.
Proof.
  pose proof (pow2_pos n ra_n_nonneg) as Hp.
  unfold ra_m1. fold n. pose proof (Z.div_mod m (2 ^ n) ltac:(lia)).
  pose proof (Z.mod_pos_bound m (2 ^ n) Hp). nia.
Qed.

Lemma ra_m1_nonneg : 0 <= m -> 0 <= ra_m1 m e.
Proof. intros Hm. unfold ra_m1. apply Z.div_pos; [exact Hm | apply pow2_pos, ra_n_nonneg]. Qed.

Lemma ra_m1_upper : 0 <= m -> ra_m1 m e < 2 ^ 53.
Proof.
  intros Hm. destruct (Z.eq_dec m 0) as [E|E].
  - unfold ra_m1. rewrite E at 1. rewrite Z.div_0_l; [lia|].
    pose proof (pow2_pos n ra_n_nonneg). fold n. lia.
  - assert (Hpos : 0 < m) by lia.
    pose proof (Zdigits2_bounds m Hpos) as [_ B]. fold d in B.
    pose proof (Zdigits2_nonneg m) as Hd. fold d in Hd.
    assert (Hdn : d <= 53 + n) by (unfold n, ra_n, fexp64, d; lia).
    assert (2 ^ d <= 2 ^ (53 + n)) by (apply pow2_le; lia).
    rewrite Z.pow_add_r in H by (pose proof ra_n_nonneg; lia).
    unfold ra_m1. fold n. apply Z.div_lt_upper_bound; [apply pow2_pos, ra_n_nonneg|]. lia.
Qed.

(* when a shift happens above the subnormal exponent, the kept mantissa is normal *)
Lemma ra_normal :
  0 <= m -> ra_n m e = 0 \/ ra_e1 m e = -1074 \/ 2 ^ 52 <= ra_m1 m e.
Proof.
  intros Hm. fold n e1 m1.
  destruct (Z.eq_dec n 0) as [|Hn]; [now left|]. right.
  destruct (Z.eq_dec e1 (-1074)) as [|He1]; [now left|]. right.
  assert (Hn' : n = d - 53 /\ 0 < n).
  { unfold e1, ra_e1, n, ra_n, fexp64, d in *. lia. }
  destruct Hn' as [Hn1 Hn2].
  assert (Hpos : 0 < m).
  { destruct (Z.eq_dec m 0) as [E|E]; [|lia].
    unfold d in Hn1. rewrite E in Hn1. cbn in Hn1. lia. }
  pose proof (Zdigits2_bounds m Hpos) as [B _]. fold d in B.
  replace (d - 1) with (52 + n) in B by lia.
  rewrite Z.pow_add_r in B by lia.
  unfold m1, ra_m1. fold n. apply Z.div_le_lower_bound; [apply pow2_pos; lia|]. lia.
Qed.

Lemma round_aux_weak :
  0 <= m -> e <= 971 ->
  exists m2,
    (m2 = ra_m1 m e \/ m2 = ra_m1 m e + 1)
    /\ (l = loc_Exact -> (exists c, 0 <= c /\ m = c * 2 ^ ra_n m e) ->
        m2 = ra_m1 m e)
    /\ (m2 * 2 ^ (ra_e1 m e + 1074) < 2 ^ 2098 ->
        SFscaled (binary_round_aux prec emax false m e l)
        = Some (m2 * 2 ^ (ra_e1 m e + 1074))).
Proof.
  intros Hm He. fold n e1 m1.
  unfold binary_round_aux, shr_fexp. rewrite fexp_64.
  fold d.
  destruct (shr_spec (shr_record_of_loc m l) e (fexp64 (d + e) - e)) as [S1 S2].
  { rewrite shr_record_of_loc_m. exact Hm. }
  rewrite shr_record_of_loc_m in S1.
  change (Z.max 0 (fexp64 (d + e) - e)) with n in S1, S2.
  change (m / 2 ^ n) with m1 in S1. change (e + n) with e1 in S2.
  destruct (shr (shr_record_of_loc m l) e (fexp64 (d + e) - e)) as [mrs' e'] eqn:E1.
  cbn [fst snd] in S1, S2. subst e'.
  set (m2 := round_nearest_even (shr_m mrs') (loc_of_shr_record mrs')).
  assert (Hm2 : m2 = m1 \/ m2 = m1 + 1).
  { unfold m2. rewrite <- S1. apply rne_cases. }
  exists m2. split; [exact Hm2|]. split.
  { intros Hl [c [Hc Hmc]]. unfold m2. rewrite <- S1.
    subst l. unfold shr in E1.
    destruct (fexp64 (d + e) - e) as [|p|p] eqn:En;
      try (injection E1 as <- _; reflexivity).
    assert (Hn : n = Z.pos p) by (unfold n, ra_n; fold d; rewrite En; lia).
    rewrite Hn in Hmc. rewrite Hmc in E1. cbn [shr_record_of_loc] in E1.
    rewrite (iter_pos_shr_exact p c Hc) in E1.
    injection E1 as <- _. reflexivity. }
  intros Hv.
  pose proof (ra_m1_nonneg Hm) as Hm1. pose proof (ra_m1_upper Hm) as Hm1u.
  pose proof ra_e1_min as He1. fold m1 in Hm1, Hm1u. fold e1 in He1.
  assert (Hm2n : 0 <= m2 <= 2 ^ 53) by lia.
  rewrite fexp_64.
  destruct (shr_spec (shr_record_of_loc m2 loc_Exact) e1
              (fexp64 (Zdigits2 m2 + e1) - e1)) as [T1 T2].
  { cbn. lia. }
  destruct (shr (shr_record_of_loc m2 loc_Exact) e1
              (fexp64 (Zdigits2 m2 + e1) - e1)) as [mrs'' e''] eqn:E2.
  cbn [fst snd shr_record_of_loc shr_m] in T1, T2.
  destruct (Z.eq_dec m2 0) as [Z0|NZ].
  - (* zero *)
    rewrite Z0 in T1. rewrite Z.div_0_l in T1.
    + rewrite T1. cbn. rewrite Z0. reflexivity.
    + assert (0 < 2 ^ Z.max 0 (fexp64 (Zdigits2 0 + e1) - e1)) by (apply pow2_pos; lia).
      lia.
  - assert (Hpos2 : 0 < m2) by lia.
    pose proof (Zdigits2_bounds m2 Hpos2) as [D1 D2].
    pose proof (Zdigits2_nonneg m2) as D0.
    destruct (Z.eq_dec m2 (2 ^ 53)) as [Top|NTop].
    + (* carry to 2^53 *)
      assert (Hd2 : Zdigits2 m2 = 54).
      { apply Zdigits2_unique; rewrite ?Top; cbn; lia. }
      rewrite Hd2 in T1, T2.
      assert (Hn2 : Z.max 0 (fexp64 (54 + e1) - e1) = 1) by (unfold fexp64; lia).
      rewrite Hn2 in T1, T2. rewrite Top in T1. change (2 ^ 53 / 2 ^ 1) with (2 ^ 52) in T1.
      rewrite T1. cbn [Z.pow Z.pow_pos Pos.iter Z.mul Pos.mul].
      (* exponent check *)
      assert (He1u : e1 + 1074 < 2045).
      { rewrite Top in Hv. rewrite <- Z.pow_add_r in Hv by lia.
        apply pow2_lt_inv in Hv; lia. }
      assert (Hle : (e'' <=? emax - prec) = true).
      { apply Z.leb_le. subst e''. cbn. lia. }
      rewrite Hle. cbn [SFscaled cond_Zopp]. f_equal. subst e''.
      rewrite Top. replace (e1 + 1 + 1074) with (1 + (e1 + 1074)) by lia.
      rewrite Z.pow_add_r by lia. change (Z.pos 4503599627370496) with (2 ^ 52).
      change (2 ^ 53) with (2 * 2 ^ 52). lia.
    + (* no second shift *)
      assert (Hd2 : Zdigits2 m2 <= 53).
      { destruct (Z.le_gt_cases (Zdigits2 m2) 53) as [|G]; [assumption|].
        assert (2 ^ 53 <= 2 ^ (Zdigits2 m2 - 1)) by (apply pow2_le; lia). lia. }
      assert (Hn2 : Z.max 0 (fexp64 (Zdigits2 m2 + e1) - e1) = 0)
        by (unfold fexp64; lia).
      rewrite Hn2 in T1, T2. rewrite Z.div_1_r in T1. rewrite Z.add_0_r in T2.
      rewrite T1. destruct m2 as [|p2|p2]; try lia.
      assert (Hle : (e'' <=? emax - prec) = true).
      { apply Z.leb_le. subst e''. change (emax - prec) with 971.
        (* either no first shift (e1 = e <= 971) or the mantissa is normal *)
        destruct (ra_normal Hm) as [N0|[Nmin|Nnorm]].
        - unfold e1, ra_e1. rewrite N0. lia.
        - lia.
        - assert (2 ^ 52 * 2 ^ (e1 + 1074) < 2 ^ 2098).
          { eapply Z.le_lt_trans; [|exact Hv].
            apply Z.mul_le_mono_nonneg_r; [apply Z.lt_le_incl, pow2_pos; lia|lia]. }
          rewrite <- Z.pow_add_r in H by lia.
          apply pow2_lt_inv in H; lia. }
      rewrite Hle. cbn [SFscaled cond_Zopp]. subst e''. reflexivity.
Qed.

End RoundAux.

Lemma two_54_spec : Prim2SF 2.54%float = S754_finite false mc (-51).
Proof. vm_compute. reflexivity. Qed.

Lemma mc_bounds : 2 ^ 52 < Z.pos mc < 2 ^ 53.
Proof. unfold mc. cbn. lia. Qed.

Lemma round_aux_sign (m e : Z) (l : location) :
  match binary_round_aux prec emax false m e l with
  | S754_zero s | S754_finite s _ _ => s = false
  | _ => True
  end.
Proof.
  unfold binary_round_aux.
  destruct (shr_fexp prec emax m e l) as [mrs' e'].
  destruct (shr_fexp prec emax _ e' loc_Exact) as [mrs'' e''].
  destruct (shr_m mrs''); try exact I; [reflexivity|].
  destruct (e'' <=? emax - prec); [reflexivity | exact I].
Qed.

Lemma bounded_spec (mx : positive) (ex : Z) :
  bounded prec emax mx ex = true ->
  ex = fexp64 (Z.pos (digits2_pos mx) + ex) /\ ex <= 971.
Proof.
  unfold bounded, canonical_mantissa. rewrite fexp_64.
  intros H. apply andb_prop in H. destruct H as [H1 H2].
  apply Z.eqb_eq in H1. apply Z.leb_le in H2. change (emax - prec) with 971 in H2.
  split; [symmetry; exact H1 | exact H2].
Qed.

Section DivByC.
Variables (mx : positive) (ex : Z).
Hypothesis Hb : bounded prec emax mx ex = true.

Let X := Z.pos mx * 2 ^ (ex + 1074).
Let d1 := Z.pos (digits2_pos mx).

Lemma x_shape : -1074 <= ex <= 971 /\ 1 <= d1 <= 53 /\ (ex = -1074 \/ d1 = 53).
Proof.
  destruct (bounded_spec mx ex Hb) as [H1 H2]. fold d1 in H1.
  unfold fexp64 in H1. assert (1 <= d1) by (unfold d1; lia). lia.
Qed.

Lemma div_core_c :
  let e' := fexp64 (d1 + ex - 2) in
  let s := ex + 51 - e' in
  0 < s /\ -1074 <= e' <= 969
  /\ exists loc,
       SFdiv_core_binary prec emax (Z.pos mx) ex (Z.pos mc) (-51)
       = (Z.pos mx * 2 ^ s / Z.pos mc, e', loc).
Proof.
  intros e' s. destruct x_shape as [Hex [Hd Hsh]].
  assert (Hs : 0 < s) by (unfold s, e', fexp64; lia).
  split; [exact Hs|]. split; [unfold e', fexp64; lia|].
  unfold SFdiv_core_binary. rewrite fexp_64.
  change (Zdigits2 (Z.pos mx)) with d1.
  change (Zdigits2 (Z.pos mc)) with 53.
  replace (d1 + ex - (53 + -51)) with (d1 + ex - 2) by lia.
  replace (ex - -51) with (ex + 51) by lia.
  assert (Hmin : Z.min (fexp64 (d1 + ex - 2)) (ex + 51) = e')
    by (unfold e', fexp64; lia).
  rewrite Hmin. fold s.
  destruct s as [|p|p] eqn:Es; try lia.
  rewrite Z.shiftl_mul_pow2 by lia.
  unfold Z.div.
  destruct (Z.div_eucl (Z.pos mx * 2 ^ Z.pos p) (Z.pos mc)) as [q r].
  eexists. reflexivity.
Qed.

End DivByC.

Lemma pow2_2098 : 2 ^ 2098 = 2 ^ 53 * 2 ^ 2045.
Proof. rewrite <- Z.pow_add_r by lia. f_equal. Qed.

Lemma small_exp_no_overflow (m k : Z) :
  0 <= m <= 2 ^ 53 -> 0 <= k <= 2044 -> m * 2 ^ k < 2 ^ 2098.
Proof.
  intros Hm Hk.
  assert (H1 : 2 ^ k <= 2 ^ 2044) by (apply pow2_le; lia).
  assert (H2 : 0 < 2 ^ k) by (apply pow2_pos; lia).
  apply Z.le_lt_trans with (2 ^ 53 * 2 ^ 2044).
  - apply Z.mul_le_mono_nonneg; lia.
  - rewrite <- Z.pow_add_r by lia. apply pow2_lt. lia.
Qed.

Lemma exp_from_bound (k j : Z) (T : Z) :
  0 <= k -> 0 <= j -> 2 ^ k * 2 ^ j < 2 ^ 2098 -> k + j < 2098.
Proof.
  intros Hk Hj H. rewrite <- Z.pow_add_r in H by lia.
  apply pow2_lt_inv in H; lia.
Qed.

Lemma mc_value : Z.pos mc = 5719571526760530.
Proof. reflexivity. Qed.

Section DivResult.
Variables (mx : positive) (ex : Z).
Hypothesis Hb : bounded prec emax mx ex = true.

Lemma X_upper : 0 < Z.pos mx * 2 ^ (ex + 1074) < 2 ^ 2098.
Proof.
  destruct (x_shape mx ex Hb) as [Hex [Hd Hsh]].
  pose proof (digits2_pos_bounds mx) as [_ B].
  assert (2 ^ Z.pos (digits2_pos mx) <= 2 ^ 53) by (apply pow2_le; lia).
  assert (0 < 2 ^ (ex + 1074)) by (apply pow2_pos; lia).
  assert (2 ^ (ex + 1074) <= 2 ^ 2045) by (apply pow2_le; lia).
  split; [lia|].
  rewrite pow2_2098.
  apply Z.lt_le_trans with (2 ^ 53 * 2 ^ (ex + 1074)).
  - apply Z.mul_lt_mono_pos_r; lia.
  - apply Z.mul_le_mono_nonneg_l; lia.
Qed.

Lemma div_by_c_result :
  exists Y A,
    SFscaled (SFdiv prec emax (S754_finite false mx ex) (S754_finite false mc (-51)))
    = Some Y
    /\ 0 <= Y
    /\ Z.abs (Y * Z.pos mc - Z.pos mx * 2 ^ (ex + 1074) * 2 ^ 51) <= A
    /\ (A < 3 * 2 ^ 51 \/ 2 * A <= Z.pos mx * 2 ^ (ex + 1074)).
Proof.
  destruct (x_shape mx ex Hb) as [Hex [Hd Hsh]].
  destruct (div_core_c mx ex Hb) as [Hs [He' [loc Hcore]]].
  pose proof X_upper as [HX0 HXu].
  set (X := Z.pos mx * 2 ^ (ex + 1074)) in *.
  set (d1 := Z.pos (digits2_pos mx)) in *.
  set (e' := fexp64 (d1 + ex - 2)) in *.
  set (s := ex + 51 - e') in *.
  set (q := Z.pos mx * 2 ^ s / Z.pos mc) in *.
  pose proof mc_bounds as Hmc.
  set (c := Z.pos mc) in *.
  assert (Hps : 0 < 2 ^ s) by (apply pow2_pos; lia).
  assert (Hq : q * c <= Z.pos mx * 2 ^ s < (q + 1) * c).
  { pose proof (Z.mul_div_le (Z.pos mx * 2 ^ s) c ltac:(lia)) as D1.
    pose proof (Z.mul_succ_div_gt (Z.pos mx * 2 ^ s) c ltac:(lia)) as D2.
    fold q in D1, D2. lia. }
  assert (Hq0 : 0 <= q) by (unfold q; apply Z.div_pos; lia).
  cbn [SFdiv]. fold c. rewrite Hcore. cbn [xorb].
  destruct (round_aux_weak q e' loc Hq0 ltac:(lia)) as [m2 [Hm2 [_ Hval]]].
  pose proof (ra_n_nonneg q e') as Hn.
  pose proof (ra_e1_min q e') as He1.
  pose proof (ra_floor q e') as Hfl.
  pose proof (ra_m1_nonneg q e' Hq0) as Hm1.
  pose proof (ra_m1_upper q e' Hq0) as Hm1u.
  pose proof (ra_normal q e' Hq0) as Hnorm.
  unfold ra_e1 in *.
  set (n := ra_n q e') in *.
  set (m1 := ra_m1 q e') in *.
  set (k := e' + n + 1074) in *.
  assert (Hk : 0 <= k) by (unfold k; lia).
  set (U := 2 ^ k) in *.
  assert (HU : 0 < U) by (apply pow2_pos; exact Hk).
  assert (Hpn : 0 < 2 ^ n) by (apply pow2_pos; lia).
  assert (Hpe : 0 < 2 ^ (e' + 1074)) by (apply pow2_pos; lia).
  assert (HUe : U = 2 ^ n * 2 ^ (e' + 1074)).
  { unfold U. rewrite <- Z.pow_add_r by lia. f_equal. unfold k. lia. }
  assert (HX : X * 2 ^ 51 = Z.pos mx * 2 ^ s * 2 ^ (e' + 1074)).
  { unfold X. rewrite <- !Z.mul_assoc, <- !Z.pow_add_r by lia.
    do 2 f_equal. unfold s. lia. }
  assert (Hlow : m1 * U * c <= X * 2 ^ 51).
  { rewrite HX, HUe.
    replace (m1 * (2 ^ n * 2 ^ (e' + 1074)) * c)
      with (m1 * 2 ^ n * c * 2 ^ (e' + 1074)) by ring.
    apply Z.mul_le_mono_nonneg_r; [lia|].
    apply Z.le_trans with (q * c); [|lia].
    apply Z.mul_le_mono_nonneg_r; lia. }
  assert (Hup : X * 2 ^ 51 < m1 * U * c + U * c).
  { rewrite HX, HUe.
    replace (m1 * (2 ^ n * 2 ^ (e' + 1074)) * c + 2 ^ n * 2 ^ (e' + 1074) * c)
      with ((m1 + 1) * 2 ^ n * c * 2 ^ (e' + 1074)) by ring.
    apply Z.mul_lt_mono_pos_r; [lia|].
    apply Z.lt_le_trans with ((q + 1) * c); [lia|].
    apply Z.mul_le_mono_nonneg_r; lia. }
  assert (Hulp : k = 0 \/ U * 2 ^ 52 <= m1 * U).
  { destruct Hnorm as [N0|[Nmin|Nnorm]].
    - destruct (Z.eq_dec e' (-1074)) as [Emin|Enot].
      + left. unfold k. lia.
      + right. assert (Hq52 : 2 ^ 52 <= q).
        { assert (Es : s = 106 - d1) by (unfold s, e', fexp64 in *; lia).
          unfold q. apply Z.div_le_lower_bound; [lia|].
          pose proof (digits2_pos_bounds mx) as [B _]. fold d1 in B.
          assert (E105 : 2 ^ 105 = 2 ^ (d1 - 1) * 2 ^ s).
          { rewrite <- Z.pow_add_r by lia. f_equal. lia. }
          apply Z.le_trans with (2 ^ 105).
          - change (2 ^ 105) with (2 ^ 53 * 2 ^ 52).
            apply Z.mul_le_mono_nonneg_r; lia.
          - rewrite E105. apply Z.mul_le_mono_nonneg_r; lia. }
        assert (Em : m1 = q) by (unfold m1, ra_m1; fold n; rewrite N0; apply Z.div_1_r).
        rewrite Em, Z.mul_comm. apply Z.mul_le_mono_nonneg_r; lia.
    - left. unfold k. lia.
    - right. rewrite Z.mul_comm. apply Z.mul_le_mono_nonneg_r; lia. }
  assert (HA : k = 0 /\ U * c < 3 * 2 ^ 51 \/ 2 * (U * c) <= X).
  { destruct Hulp as [K0|Un].
    - left. split; [exact K0|]. unfold U. rewrite K0. unfold c. rewrite mc_value.
      reflexivity.
    - right.
      assert (U * 2 ^ 52 * c <= m1 * U * c)
        by (apply Z.mul_le_mono_nonneg_r; lia).
      lia. }
  assert (Hk44 : k <= 2044).
  { destruct HA as [[K0 _]|HA2]; [lia|].
    assert (H53 : U * 2 ^ 53 < 2 ^ 2098).
    { apply Z.le_lt_trans with (2 * (U * c)); [|lia].
      change (2 ^ 53) with (2 * 2 ^ 52).
      assert (U * 2 ^ 52 <= U * c) by (apply Z.mul_le_mono_nonneg_l; lia).
      lia. }
    unfold U in H53. apply exp_from_bound in H53; try lia. exact 0. }
  assert (Hno : m2 * U < 2 ^ 2098).
  { apply small_exp_no_overflow; lia. }
  exists (m2 * U), (U * c).
  split; [exact (Hval Hno)|].
  split; [apply Z.mul_nonneg_nonneg; lia|].
  split.
  - destruct Hm2 as [-> | ->].
    + lia.
    + replace ((m1 + 1) * U * c) with (m1 * U * c + U * c) by ring. lia.
  - destruct HA as [[_ HA1]|HA2]; [left | right]; assumption.
Qed.

End DivResult.

Lemma max_scaled_lt : max_scaled < 2 ^ 2098.
Proof.
  unfold max_scaled. rewrite pow2_2098.
  apply Z.mul_lt_mono_pos_r; [apply pow2_pos; lia | lia].
Qed.

Section MulResult.
Variables (my : positive) (ey : Z).
Hypothesis Hb : bounded prec emax my ey = true.

Lemma mul_by_c_result :
  Z.pos my * 2 ^ (ey + 1074) * Z.pos mc < max_scaled * 2 ^ 51 ->
  exists Z' B,
    SFscaled (SFmul prec emax (S754_finite false my ey) (S754_finite false mc (-51)))
    = Some Z'
    /\ Z.abs (Z' * 2 ^ 51 - Z.pos my * 2 ^ (ey + 1074) * Z.pos mc) <= B
    /\ (B <= 2 ^ 51 \/ 2 ^ 52 * B <= Z.pos my * 2 ^ (ey + 1074) * Z.pos mc).
Proof.
  intros Hmax.
  destruct (x_shape my ey Hb) as [Hey [Hd Hsh]].
  cbn [SFmul xorb].
  set (Y := Z.pos my * 2 ^ (ey + 1074)) in *.
  set (c := Z.pos mc) in *.
  change (Z.pos (my * mc)) with (Z.pos my * c).
  set (m := Z.pos my * c). set (e := ey + -51).
  assert (Hm0 : 0 <= m) by (unfold m, c; lia).
  destruct (round_aux_weak m e loc_Exact Hm0 ltac:(unfold e; lia))
    as [m2 [Hm2 [Hexact Hval]]].
  pose proof (ra_n_nonneg m e) as Hn.
  pose proof (ra_e1_min m e) as He1.
  pose proof (ra_floor m e) as Hfl.
  pose proof (ra_m1_nonneg m e Hm0) as Hm1.
  pose proof (ra_m1_upper m e Hm0) as Hm1u.
  pose proof (ra_normal m e Hm0) as Hnorm.
  unfold ra_e1 in *.
  set (n := ra_n m e) in *.
  set (m1 := ra_m1 m e) in *.
  set (k := e + n + 1074) in *.
  assert (Hk : 0 <= k) by (unfold k; lia).
  set (U := 2 ^ k) in *.
  assert (HU : 0 < U) by (apply pow2_pos; exact Hk).
  assert (Hpn : 0 < 2 ^ n) by (apply pow2_pos; lia).
  assert (Hpe : 0 < 2 ^ (ey + 1074)) by (apply pow2_pos; lia).
  assert (HUe : U * 2 ^ 51 = 2 ^ n * 2 ^ (ey + 1074)).
  { unfold U. rewrite <- !Z.pow_add_r by lia. f_equal. unfold k, e. lia. }
  assert (HY : Y * c = m * 2 ^ (ey + 1074)).
  { unfold Y, m. ring. }
  assert (Hlow : m1 * U * 2 ^ 51 <= Y * c).
  { rewrite HY. replace (m1 * U * 2 ^ 51) with (m1 * (U * 2 ^ 51)) by ring.
    rewrite HUe. replace (m1 * (2 ^ n * 2 ^ (ey + 1074)))
      with (m1 * 2 ^ n * 2 ^ (ey + 1074)) by ring.
    apply Z.mul_le_mono_nonneg_r; lia. }
  assert (Hup : Y * c < m1 * U * 2 ^ 51 + U * 2 ^ 51).
  { rewrite HY.
    replace (m1 * U * 2 ^ 51 + U * 2 ^ 51) with ((m1 + 1) * (U * 2 ^ 51)) by ring.
    rewrite HUe. replace ((m1 + 1) * (2 ^ n * 2 ^ (ey + 1074)))
      with ((m1 + 1) * 2 ^ n * 2 ^ (ey + 1074)) by ring.
    apply Z.mul_lt_mono_pos_r; lia. }
  assert (HL : m1 * U < max_scaled).
  { apply Z.mul_lt_mono_pos_r with (p := 2 ^ 51); [reflexivity | lia]. }
  pose proof max_scaled_lt as Hms.
  assert (Hexact0 : n = 0 -> m2 = m1).
  { intros N0. apply (Hexact eq_refl). exists m. rewrite N0.
    split; [exact Hm0 | change (2 ^ 0) with 1; ring]. }
  assert (Hno : m2 * U < 2 ^ 2098).
  { destruct Hnorm as [N0|[Nmin|Nnorm]].
    - rewrite (Hexact0 N0). lia.
    - apply small_exp_no_overflow; [lia|]. unfold k. lia.
    - assert (Hk2 : 2 ^ k * 2 ^ 52 < 2 ^ 2098).
      { apply Z.le_lt_trans with (m1 * U); [|lia].
        fold U. rewrite Z.mul_comm. apply Z.mul_le_mono_nonneg_r; lia. }
      apply exp_from_bound in Hk2; try lia; [|exact 0].
      destruct (Z.eq_dec k 2045) as [Ek|Ek].
      + assert (HU2 : U = 2 ^ 2045) by (unfold U; rewrite Ek; reflexivity).
        unfold max_scaled in HL. rewrite HU2 in HL.
        assert (m1 < 2 ^ 53 - 1).
        { apply Z.mul_lt_mono_pos_r with (p := 2 ^ 2045);
            [apply pow2_pos; lia | assumption]. }
        rewrite HU2, pow2_2098.
        apply Z.mul_lt_mono_pos_r; [apply pow2_pos; lia | lia].
      + apply small_exp_no_overflow; lia. }
  destruct Hnorm as [N0|Hnorm].
  - exists (m1 * U), 0.
    rewrite <- (Hexact0 N0) at 1.
    split; [exact (Hval Hno)|].
    assert (Em : m1 = m) by (unfold m1, ra_m1; fold n; rewrite N0; apply Z.div_1_r).
    assert (Ex : m1 * U * 2 ^ 51 = Y * c).
    { rewrite HY. replace (m1 * U * 2 ^ 51) with (m1 * (U * 2 ^ 51)) by ring.
      rewrite HUe, N0, Em. change (2 ^ 0) with 1. ring. }
    split; [rewrite Ex, Z.sub_diag; cbn; lia | left; lia].
  - exists (m2 * U), (U * 2 ^ 51).
    split; [exact (Hval Hno)|]. split.
    + destruct Hm2 as [-> | ->].
      * lia.
      * replace ((m1 + 1) * U * 2 ^ 51) with (m1 * U * 2 ^ 51 + U * 2 ^ 51) by ring.
        lia.
    + destruct Hnorm as [Nmin|Nnorm].
      * left. unfold U. replace k with 0 by (unfold k; lia). cbn. lia.
      * right. apply Z.le_trans with (m1 * U * 2 ^ 51); [|exact Hlow].
        replace (2 ^ 52 * (U * 2 ^ 51)) with (2 ^ 52 * U * 2 ^ 51) by ring.
        apply Z.mul_le_mono_nonneg_r; [lia|].
        apply Z.mul_le_mono_nonneg_r; lia.
Qed.

End MulResult.

(** Only the two largest finite floats are within two units in the last
    place of the overflow threshold. *)
Lemma top_floats (mx : positive) (ex : Z) :
  bounded prec emax mx ex = true ->
  max_scaled < Z.pos mx * 2 ^ (ex + 1074) + 2 ^ 2046 ->
  ex = 971 /\ (mx = 9007199254740991%positive \/ mx = 9007199254740990%positive).
Proof.
  intros Hb Htop. destruct (x_shape mx ex Hb) as [Hex [Hd Hsh]].
  pose proof (digits2_pos_bounds mx) as [_ B].
  assert (H53 : 2 ^ Z.pos (digits2_pos mx) <= 2 ^ 53) by (apply pow2_le; lia).
  assert (Hex' : ex = 971).
  { destruct (Z.eq_dec ex 971) as [|Hne]; [assumption | exfalso].
    assert (H1 : 2 ^ (ex + 1074) <= 2 ^ 2044) by (apply pow2_le; lia).
    assert (H2 : 0 < 2 ^ (ex + 1074)) by (apply pow2_pos; lia).
    assert (H3 : Z.pos mx * 2 ^ (ex + 1074) <= 2 ^ 53 * 2 ^ 2044)
      by (apply Z.mul_le_mono_nonneg; lia).
    unfold max_scaled in Htop.
    change (2 ^ 2046) with (2 * 2 ^ 2045) in Htop.
    change (2 ^ 2045) with (2 * 2 ^ 2044) in Htop.
    set (P := 2 ^ 2044) in *. assert (0 < P) by (apply pow2_pos; lia).
    clearbody P. lia. }
  split; [exact Hex'|]. subst ex.
  change (2 ^ (971 + 1074)) with (2 ^ 2045) in Htop.
  unfold max_scaled in Htop. change (2 ^ 2046) with (2 * 2 ^ 2045) in Htop.
  set (P := 2 ^ 2045) in *. assert (HP : 0 < P) by (apply pow2_pos; lia).
  clearbody P.
  small_pows.
  assert (Hm : 9007199254740992 - 3 < Z.pos mx).
  { destruct (Z.lt_ge_cases (2 ^ 53 - 3) (Z.pos mx)) as [|Hge]; [assumption | exfalso].
    assert (Z.pos mx * P <= (9007199254740992 - 3) * P)
      by (apply Z.mul_le_mono_nonneg_r; lia).
    lia. }
  assert (Hcases : Z.pos mx = 9007199254740991 \/ Z.pos mx = 9007199254740990) by lia.
  destruct Hcases as [E|E]; [left | right]; apply Pos2Z.inj; exact E.
Qed.

Lemma scaled_finite_nonneg (s : bool) (m : positive) (e : Z) :
  -1074 <= e -> 0 <= cond_Zopp s (Z.pos m * 2 ^ (e + 1074)) -> s = false.
Proof.
  intros He H. destruct s; [|reflexivity]. cbn [cond_Zopp] in H.
  assert (0 < 2 ^ (e + 1074)) by (apply pow2_pos; lia).
  assert (0 < Z.pos m * 2 ^ (e + 1074)) by (apply Z.mul_pos_pos; lia).
  lia.
Qed.

(** The quotient by 2.54 and the product by 2.54, in units of 2^-1074. *)
Lemma cm_there_and_back (x : float) (X : Z) :
  scaled x = Some X -> 0 <= X ->
  exists Z',
    scaled (inches_from_unit x "cm" * 2.54) = Some Z'
    /\ 2 ^ 50 * Z.abs (Z' - X) <= X + 2 ^ 52.
Proof.
  unfold scaled. intros Hx HX.
  change (inches_from_unit x "cm") with (x / 2.54)%float.
  pose proof (Prim2SF_valid (x / 2.54)) as Vy.
  rewrite mul_spec, div_spec in *. rewrite two_54_spec in *.
  unfold SF64mul, SF64div in *.
  pose proof (Prim2SF_valid x) as Vx.
  destruct (Prim2SF x) as [s| s | | s mx ex]; try discriminate Hx.
  - (* zero *)
    injection Hx as Hx. subst X. exists 0. split; [reflexivity | clear; small_pows; lia].
  - assert (EX : X = cond_Zopp s (Z.pos mx * 2 ^ (ex + 1074)))
      by (unfold SFscaled in Hx; congruence).
    clear Hx. subst X.
    cbn [valid_binary] in Vx. destruct (x_shape mx ex Vx) as [Hex _].
    assert (s = false) by (apply (scaled_finite_nonneg s mx ex); [apply Hex | exact HX]).
    subst s.
    unfold cond_Zopp in *. cbv beta iota in *.
    destruct (Z_le_gt_dec (Z.pos mx * 2 ^ (ex + 1074) + 2 ^ 2046) max_scaled)
      as [Hmain|Htop].
    + destruct (div_by_c_result mx ex Vx) as [Y [A [HY [HY0 [HdA HA]]]]].
      pose proof (X_upper mx ex Vx) as [HX0 HXu].
      set (Xs := Z.pos mx * 2 ^ (ex + 1074)) in *.
      destruct (SFdiv prec emax (S754_finite false mx ex) (S754_finite false mc (-51)))
        as [s'| s' | | s' my ey]; try discriminate HY.
      * (* the quotient underflows to zero *)
        injection HY as HY. subst Y. exists 0. split; [reflexivity|].
        rewrite Z.mul_0_l in HdA. clear - HdA HA HX0. small_pows. lia.
      * assert (EY : Y = cond_Zopp s' (Z.pos my * 2 ^ (ey + 1074)))
          by (unfold SFscaled in HY; congruence).
        clear HY. subst Y.
        cbn [valid_binary] in Vy. destruct (x_shape my ey Vy) as [Hey _].
        assert (s' = false)
          by (apply (scaled_finite_nonneg s' my ey); [apply Hey | exact HY0]).
        subst s'.
        unfold cond_Zopp in *. cbv beta iota in *.
        assert (Hpre : Z.pos my * 2 ^ (ey + 1074) * Z.pos mc < max_scaled * 2 ^ 51).
        { set (P := 2 ^ 2046) in *. assert (HP : 2 ^ 2098 = P * 2 ^ 52).
          { unfold P. rewrite <- Z.pow_add_r by lia. f_equal. }
          assert (HP4 : 2 ^ 2 <= P) by (apply pow2_le; lia).
          change (2 ^ 2) with 4 in HP4.
          rewrite HP in HXu. clearbody P.
          clear - HXu Hmain HdA HA HX0 HP4. small_pows. lia. }
        destruct (mul_by_c_result my ey Vy Hpre) as [Z' [B [HZ [HdB HB]]]].
        exists Z'. split; [exact HZ|].
        clear - HdA HA HdB HB HX0. small_pows. lia.
    + destruct (top_floats mx ex Vx ltac:(clear - Htop; lia)) as [-> [-> | ->]].
      * eexists. split; [vm_compute; reflexivity|].
        vm_compute. intro; discriminate.
      * eexists. split; [vm_compute; reflexivity|].
        vm_compute. intro; discriminate.
Qed.


(** X16. Centimetres to inches and back stays within floating tolerance,
    in binary64 arithmetic as Python computes it: for every finite float
    [x >= 0] (of value [X * 2^-1074]), the product
    [inches_from_unit(x, cm) * 2.54] is again a finite float, never an
    infinity or a NaN, and its value [Z' * 2^-1074] differs from [x] by at
    most [x * 2^-50 + 4 * 2^-1074]: a relative error of 2^-50, up to four
    units of the smallest subnormal. *)
Theorem cm_round_trip (x : float) (X : Z) :
  scaled x = Some X -> 0 <= X ->
  exists Z',
    scaled (inches_from_unit x "cm" * 2.54) = Some Z'
    /\ 2 ^ 50 * Z.abs (Z' - X) <= X + 2 ^ 52.
Proof. exact (cm_there_and_back x X). Qed.

Lemma cm_round_trip_witness :
  exists Z',
    scaled (inches_from_unit 10 "cm" * 2.54) = Some Z'
    /\ 2 ^ 50 * Z.abs (Z' - 10 * 2 ^ 1074) <= 10 * 2 ^ 1074 + 2 ^ 52.
Proof.
  apply (cm_round_trip 10 (10 * 2 ^ 1074)).
  - vm_compute. reflexivity.
  - vm_compute. intro; discriminate.
Defined.

(** C8. [inches_from_unit] returns the value itself for the unit
    [inches], the value divided by 2.54 for [cm], the value divided by 25.4
    for [mm], and the value itself for every other unit string; it is a
    total function, with no case in which it raises. And the way back from
    centimetres stays within floating tolerance: for every finite float
    [x >= 0] (of value [X * 2^-1074]), [inches_from_unit(x, cm) * 2.54] is
    a finite float whose value [Z' * 2^-1074] differs from [x] by at most
    [x * 2^-50 + 4 * 2^-1074], four units in the last place of a binary64
    number. *)
Theorem inches_from_unit_contract (value : float) (unit : string) :
  (unit = "inches" -> inches_from_unit value unit = value)
  /\ (unit = "cm" -> inches_from_unit value unit = (value / 2.54)%float)
  /\ (unit = "mm" -> inches_from_unit value unit = (value / 25.4)%float)
  /\ (unit <> "inches" -> unit <> "cm" -> unit <> "mm" ->
      inches_from_unit value unit = value)
  /\ (forall X,
        scaled value = Some X -> 0 <= X ->
        exists Z',
          scaled (inches_from_unit value "cm" * 2.54) = Some Z'
          /\ 2 ^ 50 * Z.abs (Z' - X) <= X + 2 ^ 52).
Proof.
  split; [intros ->; reflexivity|].
  split; [intros ->; reflexivity|].
  split; [intros ->; reflexivity|].
  split.
  - intros N1 N2 N3. unfold inches_from_unit.
    rewrite (proj2 (String.eqb_neq _ _) N1), (proj2 (String.eqb_neq _ _) N2),
      (proj2 (String.eqb_neq _ _) N3). reflexivity.
  - intros X. apply cm_there_and_back.
Qed.

Lemma inches_from_unit_contract_witness :
  inches_from_unit 5.08 "cm" = (5.08 / 2.54)%float
  /\ inches_from_unit 5.08 "points" = 5.08%float
  /\ exists Z',
       scaled (inches_from_unit 2.54 "cm" * 2.54) = Some Z'
       /\ 2 ^ 50 * Z.abs (Z' - Z.pos mc * 2 ^ 1023) <= Z.pos mc * 2 ^ 1023 + 2 ^ 52.
Proof.
  split; [|split].
  - exact (proj1 (proj2 (inches_from_unit_contract 5.08 "cm")) eq_refl).
  - apply (proj1 (proj2 (proj2 (proj2 (inches_from_unit_contract 5.08 "points")))));
      discriminate.
  - apply (proj2 (proj2 (proj2 (proj2 (inches_from_unit_contract 2.54 "cm"))))).
    + vm_compute. reflexivity.
    + vm_compute. intro; discriminate.
Defined.

Example inches_from_unit_ex :
  inches_from_unit 2.54 "cm" = 1%float
  /\ inches_from_unit 25.4 "mm" = 1%float
  /\ inches_from_unit 3 "inches" = 3%float
  /\ inches_from_unit 3 "Inches" = 3%float.
Proof. repeat split; vm_compute; reflexivity. Qed.

(** ** The window after a run *)

Section WindowAfterRun.
Local Open Scope list_scope.

Lemma run_of_shape {L : ImageLib} (src : variant) (self : CreatorWorker)
  (W : world) :
  trace_shape self (file_name_of src self) (values_of src self)
    (run_of src self W).
Proof.
  destruct (background W) as [|msg|bg] eqn:Hbg.
  - destruct src; cbn [run_of]; unfold Corel.run, CorelTextPro.run; rewrite Hbg;
      apply (trace_shape_error _ _ _ []).
  - destruct src; cbn [run_of]; unfold Corel.run, CorelTextPro.run; rewrite Hbg;
      destruct (target_size self) as [[tw th]|e];
      try apply (trace_shape_error _ _ _ []).
    apply (trace_shape_error _ _ _ [_]).
  - destruct (target_size self) as [[tw th]|e] eqn:Ht.
    + rewrite (run_of_readable src self W bg tw th Hbg Ht).
      apply trace_shape_logs, run_values_shape.
    + destruct src; cbn [run_of]; unfold Corel.run, CorelTextPro.run;
        rewrite Hbg, Ht; apply (trace_shape_error _ _ _ []).
Qed.

Lemma deliver_app (p q : list event) (w : window) :
  Window.deliver (p ++ q) w = Window.deliver q (Window.deliver p w).
Proof. apply fold_left_app. Qed.

(** Before the terminal signal nothing touches the buttons, the timer or
    the message boxes. *)
Lemma deliver_no_terminal (body : list event) :
  no_terminal body ->
  forall w,
    create_enabled (Window.deliver body w) = create_enabled w
    /\ cancel_enabled (Window.deliver body w) = cancel_enabled w
    /\ eta_active (Window.deliver body w) = eta_active w
    /\ dialogs (Window.deliver body w) = dialogs w.
Proof.
  unfold no_terminal.
  induction body as [|e r IH]; intros Hn w; [repeat split|].
  cbn [forallb] in Hn. apply andb_prop in Hn. destruct Hn as [He Hr].
  change (Window.deliver (e :: r) w) with (Window.deliver r (Window.handle e w)).
  destruct (IH Hr (Window.handle e w)) as [H1 [H2 [H3 H4]]].
  rewrite H1, H2, H3, H4.
  destruct e; try discriminate He; repeat split.
Qed.

Lemma last_cons_default (A : Type) (a d : A) (l : list A) :
  last (a :: l) d = last l a.
Proof.
  revert a d. induction l as [|b r IH]; intros a d; [reflexivity|].
  change (last (a :: b :: r) d) with (last (b :: r) d).
  now rewrite (IH b d), (IH b a).
Qed.

(** The counter holds the first component of the last progress signal. *)
Lemma deliver_processed (tr : list event) :
  forall w,
    processed_count (Window.deliver tr w)
    = last (map fst (progress_of tr)) (processed_count w).
Proof.
  induction tr as [|e r IH]; intros w; [reflexivity|].
  change (Window.deliver (e :: r) w) with (Window.deliver r (Window.handle e w)).
  rewrite IH.
  destruct e; cbn [progress_of map fst Window.handle]; try reflexivity.
  now rewrite last_cons_default.
Qed.

Lemma last_progress (k : nat) (total : Z) :
  last (map fst (map (fun i => (Z.of_nat i, total)) (seq 1 k))) 0 = Z.of_nat k.
Proof.
  rewrite map_map. cbn [fst].
  destruct k as [|k]; [reflexivity|].
  rewrite seq_S, map_app. cbn [map]. rewrite last_last. reflexivity.
Qed.

Lemma proper_prefix (A : Type) (p q body : list A) (t : A) :
  p ++ q = body ++ [t] -> q <> [] -> exists q', body = p ++ q'.
Proof.
  intros E Hq. destruct (exists_last Hq) as [q' [x ->]].
  rewrite app_assoc in E. apply app_inj_tail in E. destruct E as [E _].
  exists q'. now symmetry.
Qed.

Lemma no_terminal_prefix (p q : list event) :
  no_terminal (p ++ q) -> no_terminal p.
Proof.
  unfold no_terminal. rewrite forallb_app. intros H.
  now apply andb_prop in H.
Qed.

End WindowAfterRun.

(** X17. Whatever the worker meets, the window comes back from a run: once
    the signals of the run have reached the slots connected by
    [start_create], the Create button is enabled again, Cancel is disabled,
    the ETA timer is stopped, exactly one message box was shown (Done or
    Error), and the counter of processed values equals the number of files
    the run wrote. While signals of the run are still to come, Create (the
    only trigger of [start_create]) stays disabled and no message box is
    shown. *)
Theorem window_after_run {L : ImageLib} (src : variant) (self : CreatorWorker)
  (W : world) (w0 : window) :
  let tr := run_of src self W in
  let w := Window.deliver tr (Window.start_create w0) in
  create_enabled w = true /\ cancel_enabled w = false /\ eta_active w = false
  /\ processed_count w = Z.of_nat (List.length (files_written tr))
  /\ (exists title text, dialogs w = (dialogs w0 ++ [(title, text)])%list
        /\ (title = "Done"%string \/ title = "Error"%string))
  /\ forall p q,
       tr = (p ++ q)%list -> q <> [] ->
       create_enabled (Window.deliver p (Window.start_create w0)) = false
       /\ dialogs (Window.deliver p (Window.start_create w0)) = dialogs w0.
Proof.
  intros tr w.
  destruct (run_of_shape src self W)
    as [k [body [t [Hk [Hf [Hp [Ht [Hterm [Hn _]]]]]]]]].
  fold tr in Hf, Hp, Ht.
  destruct (deliver_no_terminal body Hn (Window.start_create w0))
    as [B1 [B2 [B3 B4]]].
  assert (Hw : w = Window.handle t (Window.deliver body (Window.start_create w0))).
  { unfold w. rewrite Ht, deliver_app. reflexivity. }
  split; [|split; [|split; [|split; [|split]]]].
  - rewrite Hw. destruct t; try discriminate Hterm; reflexivity.
  - rewrite Hw. destruct t; try discriminate Hterm; reflexivity.
  - rewrite Hw. destruct t; try discriminate Hterm; reflexivity.
  - unfold w. rewrite deliver_processed, Hp, Hf.
    change (processed_count (Window.start_create w0)) with 0.
    rewrite last_progress, length_map, length_firstn. f_equal. lia.
  - rewrite Hw. destruct t; try discriminate Hterm;
      cbn [Window.handle Window.on_done Window.on_error dialogs]; rewrite B4;
      eexists _, _; (split; [reflexivity|]); [right | left]; reflexivity.
  - intros p q E Hq. rewrite Ht in E.
    destruct (proper_prefix _ p q body t (eq_sym E) Hq) as [q' Hb].
    assert (Hnp : no_terminal p) by (apply (no_terminal_prefix p q'); now rewrite <- Hb).
    destruct (deliver_no_terminal p Hnp (Window.start_create w0))
      as [P1 [_ [_ P4]]].
    split; [rewrite P1 | rewrite P4]; reflexivity.
Qed.

(** ** Centre alignment *)

(** A number with at most 53 significant bits goes through
    [binary_round_aux] unchanged. *)
Lemma round_exact (v j e : Z) :
  0 <= v < 2 ^ 53 -> 0 <= j -> -1074 <= e <= 971 ->
  v * 2 ^ j * 2 ^ (e + 1074) < 2 ^ 2098 ->
  SFscaled (binary_round_aux prec emax false (v * 2 ^ j) e loc_Exact)
  = Some (v * 2 ^ j * 2 ^ (e + 1074)).
Proof.
  intros Hv Hj He Hlt.
  set (m := v * 2 ^ j) in *.
  assert (Hpj : 0 < 2 ^ j) by (apply pow2_pos; lia).
  assert (Hm0 : 0 <= m) by (unfold m; apply Z.mul_nonneg_nonneg; lia).
  destruct (round_aux_weak m e loc_Exact Hm0 ltac:(lia)) as [m2 [_ [Hexact Hval]]].
  pose proof (ra_n_nonneg m e) as Hn.
  assert (Hnj : ra_n m e <= j).
  { unfold ra_n, fexp64.
    destruct (Z.eq_dec m 0) as [E|E]; [rewrite E; cbn [Zdigits2]; lia|].
    pose proof (Zdigits2_bounds m ltac:(lia)) as [B _].
    pose proof (Zdigits2_nonneg m) as D0.
    assert (Hm53 : m < 2 ^ (53 + j)).
    { rewrite Z.pow_add_r by lia. unfold m. apply Z.mul_lt_mono_pos_r; lia. }
    destruct (Z.le_gt_cases (Zdigits2 m) (53 + j)) as [|G]; [lia|].
    assert (2 ^ (53 + j) <= 2 ^ (Zdigits2 m - 1)) by (apply pow2_le; lia). lia. }
  set (n := ra_n m e) in *.
  assert (Hpn : 0 < 2 ^ n) by (apply pow2_pos; lia).
  assert (Hsplit : m = v * 2 ^ (j - n) * 2 ^ n).
  { unfold m. rewrite <- Z.mul_assoc, <- Z.pow_add_r by lia. do 2 f_equal. lia. }
  assert (Hc0 : 0 <= v * 2 ^ (j - n)).
  { apply Z.mul_nonneg_nonneg; [lia|]. apply Z.lt_le_incl, pow2_pos. lia. }
  assert (Hm1 : ra_m1 m e = v * 2 ^ (j - n)).
  { unfold ra_m1. fold n. rewrite Hsplit at 1. apply Z.div_mul. lia. }
  assert (Hm2 : m2 = v * 2 ^ (j - n)).
  { rewrite <- Hm1. apply (Hexact eq_refl). exists (v * 2 ^ (j - n)).
    split; [exact Hc0 | exact Hsplit]. }
  assert (Hvalue : m2 * 2 ^ (ra_e1 m e + 1074) = m * 2 ^ (e + 1074)).
  { rewrite Hm2. unfold ra_e1. fold n. rewrite Hsplit at 1.
    replace (e + n + 1074) with (n + (e + 1074)) by lia.
    rewrite Z.pow_add_r by lia. ring. }
  rewrite <- Hvalue. apply Hval. rewrite Hvalue. exact Hlt.
Qed.

Lemma shl_align_spec (mx : positive) (ex ex' : Z) :
  snd (shl_align mx ex ex') = Z.min ex ex'
  /\ Z.pos (fst (shl_align mx ex ex'))
     = Z.pos mx * 2 ^ (ex - Z.min ex ex').
Proof.
  unfold shl_align. destruct (ex' - ex) as [|p|p] eqn:E; cbn [fst snd].
  - replace (Z.min ex ex') with ex by lia. rewrite Z.sub_diag. cbn. lia.
  - replace (Z.min ex ex') with ex by lia. rewrite Z.sub_diag. cbn. lia.
  - replace (Z.min ex ex') with ex' by lia. split; [reflexivity|].
    change (Pos.iter xO mx p) with (shift_pos p mx).
    rewrite shift_pos_correct.
    replace (ex - ex') with (Z.pos p) by lia.
    rewrite Z.mul_comm. reflexivity.
Qed.

Lemma normalize_exact (M e v j : Z) :
  M = v * 2 ^ j -> 0 <= v < 2 ^ 53 -> 0 <= j -> -1074 <= e <= 971 ->
  M * 2 ^ (e + 1074) < 2 ^ 2098 ->
  SFscaled (binary_normalize prec emax M e false) = Some (M * 2 ^ (e + 1074)).
Proof.
  intros HM Hv Hj He Hlt.
  assert (Hpj : 0 < 2 ^ j) by (apply pow2_pos; lia).
  destruct M as [|mx|mx].
  - reflexivity.
  - cbn [binary_normalize]. unfold binary_round. rewrite fexp_64.
    destruct (shl_align_spec mx e (fexp64 (Z.pos (digits2_pos mx) + e))) as [S1 S2].
    destruct (shl_align mx e (fexp64 (Z.pos (digits2_pos mx) + e))) as [mz ez].
    cbn [fst snd] in S1, S2.
    assert (Hez : -1074 <= ez <= e) by (unfold fexp64 in S1; lia).
    rewrite <- S1 in S2.
    assert (Hmz : Z.pos mz = v * 2 ^ (j + (e - ez))).
    { rewrite S2, HM, Z.pow_add_r by lia. ring. }
    assert (Hval : Z.pos mz * 2 ^ (ez + 1074) = Z.pos mx * 2 ^ (e + 1074)).
    { rewrite S2, <- Z.mul_assoc, <- Z.pow_add_r by lia. do 2 f_equal. lia. }
    rewrite <- Hval. rewrite Hmz.
    apply round_exact; lia.
  - exfalso. assert (0 <= v * 2 ^ j) by (apply Z.mul_nonneg_nonneg; lia). lia.
Qed.

Lemma of_int_SF (z : Z) :
  0 <= z < 2 ^ 63 ->
  Prim2SF (PyFloat.of_int z) = binary_normalize prec emax z 0 false.
Proof.
  intros Hz. unfold PyFloat.of_int.
  assert (E : Uint63.to_Z (Uint63.of_Z z) = z).
  { rewrite Uint63.of_Z_spec. apply Z.mod_small. exact Hz. }
  rewrite <- E at 1. rewrite <- of_uint63_spec, SF2Prim_Prim2SF.
  rewrite of_uint63_spec, E. reflexivity.
Qed.

Lemma scaled_of_int (z : Z) :
  0 <= z < 2 ^ 53 ->
  SFscaled (Prim2SF (PyFloat.of_int z)) = Some (z * 2 ^ 1074).
Proof.
  intros Hz. rewrite of_int_SF.
  2:{ assert (2 ^ 53 < 2 ^ 63) by (apply pow2_lt; lia). lia. }
  apply (normalize_exact z 0 z 0); try lia.
Qed.

Lemma two_SF : Prim2SF (PyFloat.of_int 2) = S754_finite false 4503599627370496 (-51).
Proof. rewrite of_int_SF by (cbn; lia). vm_compute. reflexivity. Qed.

Lemma div_eucl_exact (a b : Z) : 0 < b -> Z.div_eucl (a * b) b = (a, 0).
Proof.
  intros Hb. pose proof (Z.div_mul a b ltac:(lia)) as Hq.
  pose proof (Z.mod_mul a b ltac:(lia)) as Hr.
  unfold Z.div, Z.modulo in Hq, Hr.
  destruct (Z.div_eucl (a * b) b) as [q r]. congruence.
Qed.

(** Halving a float above the subnormal range is exact. *)
Lemma div2_exact (x : float) (m : positive) (e : Z) :
  Prim2SF x = S754_finite false m e -> -1073 <= e ->
  SFscaled (Prim2SF (x / PyFloat.of_int 2)) = Some (Z.pos m * 2 ^ (e + 1073)).
Proof.
  intros Hx He.
  pose proof (Prim2SF_valid x) as Vx. rewrite Hx in Vx. cbn [valid_binary] in Vx.
  destruct (x_shape m e Vx) as [Hex [Hd Hsh]].
  assert (Hd53 : Z.pos (digits2_pos m) = 53) by lia.
  pose proof (digits2_pos_bounds m) as [_ Bm]. rewrite Hd53 in Bm.
  rewrite div_spec, Hx, two_SF. unfold SF64div. cbn [SFdiv xorb].
  unfold SFdiv_core_binary. rewrite fexp_64.
  change (Zdigits2 (Z.pos m)) with (Z.pos (digits2_pos m)). rewrite Hd53.
  change (Zdigits2 4503599627370496) with 53.
  set (e' := Z.min (fexp64 (53 + e - (53 + -51))) (e - -51)).
  assert (He' : e' = Z.max (e - 2) (-1074)) by (unfold e', fexp64; lia).
  set (s := e - -51 - e').
  assert (Hs : 52 <= s <= 53) by (unfold s; lia).
  destruct s as [|p|p] eqn:Es; try lia.
  rewrite Z.shiftl_mul_pow2 by lia. rewrite <- Es.
  assert (Esplit : Z.pos m * 2 ^ s = Z.pos m * 2 ^ (s - 52) * 4503599627370496).
  { change 4503599627370496 with (2 ^ 52).
    rewrite <- Z.mul_assoc, <- Z.pow_add_r by lia. do 2 f_equal. lia. }
  rewrite Esplit, div_eucl_exact by lia.
  change (new_location 4503599627370496 0) with loc_Exact.
  rewrite round_exact; try lia.
  - f_equal. rewrite <- Z.mul_assoc, <- Z.pow_add_r by lia. do 2 f_equal. lia.
  - rewrite <- Z.mul_assoc, <- Z.pow_add_r by lia.
    replace (s - 52 + (e' + 1074)) with (e + 1073) by lia.
    apply Z.lt_le_trans with (2 ^ 53 * 2 ^ (e + 1073)).
    + apply Z.mul_lt_mono_pos_r; [apply pow2_pos; lia | lia].
    + rewrite <- Z.pow_add_r by lia. apply pow2_le. lia.
Qed.

(** A sum with at most 53 significant bits is computed exactly. *)
Lemma add_exact (x y : float) (mx my : positive) (ex ey v g : Z) :
  Prim2SF x = S754_finite false mx ex ->
  Prim2SF y = S754_finite false my ey ->
  Z.pos mx * 2 ^ (ex + 1074) + Z.pos my * 2 ^ (ey + 1074) = v * 2 ^ g ->
  0 <= v < 2 ^ 53 -> 0 <= g -> v * 2 ^ g < 2 ^ 2098 ->
  SFscaled (Prim2SF (x + y)) = Some (v * 2 ^ g).
Proof.
  intros Hx Hy Hsum Hv Hg Hlt.
  pose proof (Prim2SF_valid x) as Vx. rewrite Hx in Vx. cbn [valid_binary] in Vx.
  pose proof (Prim2SF_valid y) as Vy. rewrite Hy in Vy. cbn [valid_binary] in Vy.
  destruct (x_shape mx ex Vx) as [Hex _]. destruct (x_shape my ey Vy) as [Hey _].
  clear Vx Vy.
  rewrite add_spec, Hx, Hy. unfold SF64add. cbn [SFadd].
  destruct (shl_align_spec mx ex (Z.min ex ey)) as [_ Sx].
  destruct (shl_align_spec my ey (Z.min ex ey)) as [_ Sy].
  unfold cond_Zopp.
  set (ax := Z.pos (fst (shl_align mx ex (Z.min ex ey)))) in *.
  set (ay := Z.pos (fst (shl_align my ey (Z.min ex ey)))) in *.
  set (ez := Z.min ex ey) in *.
  replace (Z.min ex ez) with ez in Sx by lia.
  replace (Z.min ey ez) with ez in Sy by lia.
  assert (Hez : -1074 <= ez <= 971) by lia.
  set (a := ez + 1074). assert (Ha : 0 <= a) by (unfold a; lia).
  assert (Hpa : 0 < 2 ^ a) by (apply pow2_pos; lia).
  assert (HM : (ax + ay) * 2 ^ a = v * 2 ^ g).
  { assert (Ex : ax * 2 ^ a = Z.pos mx * 2 ^ (ex + 1074)).
    { rewrite Sx. unfold a. rewrite <- Z.mul_assoc, <- Z.pow_add_r by lia.
      do 2 f_equal. lia. }
    assert (Ey : ay * 2 ^ a = Z.pos my * 2 ^ (ey + 1074)).
    { rewrite Sy. unfold a. rewrite <- Z.mul_assoc, <- Z.pow_add_r by lia.
      do 2 f_equal. lia. }
    rewrite Z.mul_add_distr_r, Ex, Ey. exact Hsum. }
  assert (HM0 : 0 <= ax + ay) by (unfold ax, ay; lia).
  rewrite <- HM.
  assert (Hbound : (ax + ay) * 2 ^ (ez + 1074) < 2 ^ 2098).
  { fold a. rewrite HM. exact Hlt. }
  destruct (Z.le_gt_cases a g) as [Hge|Hlt'].
  - assert (H1 : ax + ay = v * 2 ^ (g - a)).
    { apply Z.mul_reg_r with (p := 2 ^ a); [lia|].
      rewrite HM, <- Z.mul_assoc, <- Z.pow_add_r by lia. do 2 f_equal. lia. }
    exact (normalize_exact (ax + ay) ez v (g - a) H1 Hv ltac:(lia) Hez Hbound).
  - assert (Hv' : (ax + ay) * 2 ^ (a - g) = v).
    { apply Z.mul_reg_r with (p := 2 ^ g); [pose proof (pow2_pos g Hg); lia|].
      rewrite <- HM, <- Z.mul_assoc, <- Z.pow_add_r by lia. do 2 f_equal. lia. }
    assert (Hp : 1 <= 2 ^ (a - g)) by (pose proof (pow2_pos (a - g)); lia).
    assert (H1 : ax + ay = (ax + ay) * 2 ^ 0) by (change (2 ^ 0) with 1; ring).
    assert (H2 : 0 <= ax + ay < 2 ^ 53).
    { split; [lia|]. apply Z.le_lt_trans with v; [|lia].
      rewrite <- Hv'. rewrite <- (Z.mul_1_r (ax + ay)) at 1.
      apply Z.mul_le_mono_nonneg_l; lia. }
    exact (normalize_exact (ax + ay) ez (ax + ay) 0 H1 H2 ltac:(lia) Hez Hbound).
Qed.

Lemma round_half_even_halves (m : positive) (e v : Z) :
  -1074 <= e -> Z.pos m * 2 ^ (e + 1074) = v * 2 ^ 1073 ->
  PyFloat.round_half_even m e = half_even v.
Proof.
  intros He Hval. unfold PyFloat.round_half_even, half_even.
  destruct (Z.leb_spec 0 e) as [H0|H0].
  - assert (Ev : v = 2 * (Z.pos m * 2 ^ e)).
    { apply Z.mul_reg_r with (p := 2 ^ 1073); [pose proof (pow2_pos 1073); lia|].
      rewrite <- Hval. replace (e + 1074) with (e + 1 + 1073) by lia.
      rewrite !Z.pow_add_r by lia. change (2 ^ 1) with 2. ring. }
    rewrite Ev, Z.even_mul. cbn [Z.even orb].
    rewrite (Z.mul_comm 2), Z.div_mul by lia. reflexivity.
  - set (k := - e). assert (Hk : 1 <= k <= 1074) by (unfold k; lia).
    assert (Em : Z.pos m = v * 2 ^ (k - 1)).
    { apply Z.mul_reg_r with (p := 2 ^ (e + 1074));
        [pose proof (pow2_pos (e + 1074)); lia|].
      rewrite Hval, <- Z.mul_assoc, <- Z.pow_add_r by lia. do 2 f_equal. unfold k. lia. }
    assert (Hpk : 0 < 2 ^ (k - 1)) by (apply pow2_pos; lia).
    assert (Ek : 2 ^ k = 2 * 2 ^ (k - 1)).
    { replace k with (1 + (k - 1)) at 1 by lia. rewrite Z.pow_add_r by lia. reflexivity. }
    assert (Hv0 : 0 < v) by nia.
    pose proof (Z.div_mod v 2 ltac:(lia)) as Hdm.
    pose proof (Z.mod_pos_bound v 2 ltac:(lia)) as Hmb.
    set (u := v / 2) in *.
    assert (Hq : Z.pos m / 2 ^ k = u /\ Z.pos m mod 2 ^ k = (v mod 2) * 2 ^ (k - 1)).
    { assert (E : Z.pos m = 2 ^ k * u + (v mod 2) * 2 ^ (k - 1)).
      { rewrite Em, Ek. rewrite Hdm at 1. ring. }
      pose proof (Z.div_mod_unique (2 ^ k) u (Z.pos m / 2 ^ k)
                    ((v mod 2) * 2 ^ (k - 1)) (Z.pos m mod 2 ^ k)) as U.
      destruct U as [U1 U2].
      - left. rewrite Ek. nia.
      - left. apply Z.mod_pos_bound. lia.
      - rewrite <- E. apply Z.div_mod. lia.
      - split; [symmetry; exact U1 | symmetry; exact U2]. }
    destruct Hq as [-> ->].
    destruct (Z.even v) eqn:Hev.
    + assert (v mod 2 = 0).
      { apply Z.even_spec in Hev. destruct Hev as [w ->].
        rewrite Z.mul_comm. apply Z.mod_mul. lia. }
      rewrite H, Z.mul_0_l, Z.mul_0_r. cbn [Z.compare].
      destruct (2 ^ k) eqn:E2; lia.
    + assert (v mod 2 = 1).
      { rewrite <- Z.negb_odd in Hev. apply negb_false_iff in Hev.
        apply Z.odd_spec in Hev. destruct Hev as [w ->].
        rewrite Z.add_comm, Z.mul_comm, Z.mod_add by lia. reflexivity. }
      rewrite H, Z.mul_1_l, <- Ek, Z.compare_refl. reflexivity.
Qed.

(** The shape of a float whose value is known and not negative. *)
Lemma scaled_shape (x : float) (X : Z) :
  scaled x = Some X -> 0 <= X ->
  (X = 0 /\ exists s, Prim2SF x = S754_zero s)
  \/ (0 < X /\ exists m e,
        Prim2SF x = S754_finite false m e /\ -1074 <= e <= 971
        /\ Z.pos m < 2 ^ 53 /\ X = Z.pos m * 2 ^ (e + 1074)).
Proof.
  unfold scaled. intros Hx HX.
  pose proof (Prim2SF_valid x) as Vx.
  destruct (Prim2SF x) as [s| s | | s m e]; try discriminate Hx.
  - left. split; [unfold SFscaled in Hx; congruence | now exists s].
  - right. cbn [valid_binary] in Vx. destruct (x_shape m e Vx) as [He [Hd _]].
    assert (EX : X = cond_Zopp s (Z.pos m * 2 ^ (e + 1074)))
      by (unfold SFscaled in Hx; congruence).
    clear Hx. subst X.
    assert (s = false) by (apply (scaled_finite_nonneg s m e); [apply He | exact HX]).
    subst s. unfold cond_Zopp.
    assert (0 < 2 ^ (e + 1074)) by (apply pow2_pos; lia).
    pose proof (digits2_pos_bounds m) as [_ B].
    assert (2 ^ Z.pos (digits2_pos m) <= 2 ^ 53) by (apply pow2_le; lia).
    clear Vx. split; [apply Z.mul_pos_pos; lia|].
    exists m, e. repeat split; lia.
Qed.

Lemma scaled_add (x y : float) (X Y v g : Z) :
  scaled x = Some X -> scaled y = Some Y -> 0 <= X -> 0 <= Y ->
  X + Y = v * 2 ^ g -> 0 <= v < 2 ^ 53 -> 0 <= g -> v * 2 ^ g < 2 ^ 2098 ->
  scaled (x + y) = Some (X + Y).
Proof.
  intros Hx Hy HX HY Hsum Hv Hg Hlt.
  destruct (scaled_shape x X Hx HX) as [[-> [sx Ex]] | [HX0 [mx [ex [Ex [Hex [Hmx ->]]]]]]];
    destruct (scaled_shape y Y Hy HY) as [[-> [sy Ey]] | [HY0 [my [ey [Ey [Hey [Hmy ->]]]]]]].
  - unfold scaled. rewrite add_spec, Ex, Ey. destruct sx, sy; reflexivity.
  - unfold scaled in *. rewrite add_spec, Ex, Ey. cbn [SF64add SFadd].
    rewrite <- Ey, Hy. reflexivity.
  - unfold scaled in *. rewrite add_spec, Ex, Ey. cbn [SF64add SFadd].
    rewrite <- Ex, Hx. f_equal. lia.
  - unfold scaled. rewrite Hsum.
    apply (add_exact x y mx my ex ey v g Ex Ey Hsum Hv Hg Hlt).
Qed.

Lemma scaled_half (x : float) (X : Z) :
  scaled x = Some X -> X = 0 \/ 2 ^ 53 <= X ->
  exists H, X = 2 * H /\ scaled (x / PyFloat.of_int 2) = Some H.
Proof.
  intros Hx HX.
  assert (HX0 : 0 <= X) by lia.
  destruct (scaled_shape x X Hx HX0) as [[-> [sx Ex]] | [HXp [mx [ex [Ex [Hex [Hmx EX]]]]]]].
  - exists 0. split; [reflexivity|].
    unfold scaled. rewrite FloatAxioms.div_spec, Ex, two_SF. reflexivity.
  - assert (He : -1073 <= ex).
    { destruct (Z.eq_dec ex (-1074)) as [E|E]; [|lia].
      rewrite E in EX. change (2 ^ (-1074 + 1074)) with 1 in EX. lia. }
    exists (Z.pos mx * 2 ^ (ex + 1073)). split.
    + rewrite EX. replace (ex + 1074) with (1 + (ex + 1073)) by lia.
      rewrite Z.pow_add_r by lia. change (2 ^ 1) with 2. ring.
    + unfold scaled. apply div2_exact; assumption.
Qed.

Lemma clamp_round_halves (z : float) (v : Z) :
  scaled z = Some (v * 2 ^ 1073) -> 0 <= v ->
  clamp_round z = Ok (half_even v).
Proof.
  intros Hz Hv.
  assert (Hp : 0 < 2 ^ 1073) by (apply pow2_pos; lia).
  assert (HV : 0 <= v * 2 ^ 1073) by (apply Z.mul_nonneg_nonneg; lia).
  unfold clamp_round. rewrite ltb_spec.
  change (Prim2SF 0) with (S754_zero false).
  destruct (scaled_shape z _ Hz HV) as [[E0 [s Ez]] | [HVp [m [e [Ez [He [Hm EV]]]]]]].
  - rewrite Ez. cbn [SFltb SFcompare].
    assert (v = 0) by nia. subst v. reflexivity.
  - rewrite Ez. cbn [SFltb SFcompare]. unfold PyFloat.round. rewrite Ez.
    f_equal. apply round_half_even_halves; [lia | symmetry; exact EV].
Qed.

(** Centre alignment: [lo + (avail - t) / 2] rounded to the nearest integer,
    the even one on a tie. *)
Lemma place_centre (align first last : string) (lo hi avail t : Z) :
  String.eqb align first = false -> String.eqb align last = false ->
  0 <= lo -> 0 <= t <= avail -> 2 * lo + (avail - t) < 2 ^ 53 ->
  place align first last lo hi avail t = Ok (half_even (2 * lo + (avail - t))).
Proof.
  intros Hf Hl Hlo Ht Hsmall.
  unfold place. rewrite Hf, Hl. unfold true_div.
  change (2 =? 0) with false. cbn [bind].
  set (a := avail - t) in *.
  assert (Ha : 0 <= a < 2 ^ 53) by (unfold a; lia).
  pose proof (scaled_of_int a Ha) as Sa.
  pose proof (scaled_of_int lo ltac:(lia)) as Sl.
  assert (Hp : 2 ^ 53 <= 2 ^ 1074) by (apply pow2_le; lia).
  destruct (scaled_half (PyFloat.of_int a) (a * 2 ^ 1074) Sa) as [H [EH SH]].
  { destruct (Z.eq_dec a 0) as [->|]; [left; reflexivity | right]. nia. }
  assert (EH' : H = a * 2 ^ 1073).
  { change (2 ^ 1074) with (2 * 2 ^ 1073) in EH. lia. }
  subst H.
  assert (Ep : 0 < 2 ^ 1073) by (apply pow2_pos; lia).
  assert (Hsum : lo * 2 ^ 1074 + a * 2 ^ 1073 = (2 * lo + a) * 2 ^ 1073).
  { change (2 ^ 1074) with (2 * 2 ^ 1073). ring. }
  pose proof (scaled_add (PyFloat.of_int lo) (PyFloat.of_int a / PyFloat.of_int 2)
                _ _ (2 * lo + a) 1073 Sl SH) as Sadd.
  rewrite Hsum in Sadd.
  apply clamp_round_halves; [|lia].
  apply Sadd; lia.
Qed.

Lemma half_even_spec (v : Z) :
  (Z.even v = true -> 2 * half_even v = v)
  /\ (Z.even v = false ->
      Z.even (half_even v) = true
      /\ (2 * half_even v = v - 1 \/ 2 * half_even v = v + 1)).
Proof.
  unfold half_even. pose proof (Z.div_mod v 2 ltac:(lia)) as Hdm.
  pose proof (Z.mod_pos_bound v 2 ltac:(lia)) as Hmb.
  destruct (Z.even v) eqn:Hev; (split; [intros E | intros E]); try discriminate E.
  - apply Z.even_spec in Hev. destruct Hev as [w Hw].
    assert (v mod 2 = 0) by (rewrite Hw, Z.mul_comm; apply Z.mod_mul; lia). lia.
  - assert (Hodd : v mod 2 = 1).
    { rewrite <- Z.negb_odd in Hev. apply negb_false_iff in Hev.
      apply Z.odd_spec in Hev. destruct Hev as [w Hw].
      rewrite Hw, Z.add_comm, Z.mul_comm, Z.mod_add by lia. reflexivity. }
    destruct (Z.even (v / 2)) eqn:Hq.
    + split; [exact Hq | left; lia].
    + split; [|right; lia].
      rewrite Z.even_add, Hq. reflexivity.
Qed.

(** ** Where the text is drawn *)

Section Placement.
Context {L : ImageLib}.

(** The text fit leaves the measure of the text in the font it leaves. *)
Lemma fit_text_measure (fs : Z) (text : string) (aw ah : Z) (f : font) :
  let st := fit_text fs text aw ah f in
  (t_w st, t_h st) = measure text (fnt st).
Proof.
  unfold fit_text. destruct (measure text f) as [w h] eqn:E.
  destruct (oversized aw ah w h && is_freetype f); [|cbn; now rewrite E].
  destruct (shrink_loop_iterates text aw ah (mkFit fs f w h)) as [k [Hk _]].
  cbv zeta. rewrite Hk. destruct k as [|k]; [cbn; now rewrite E|].
  rewrite Nat.iter_succ.
  exact (proj2 (shrink_step_measure text (Nat.iter k (shrink_step text) _))).
Qed.

(** One axis: the point chosen for a text of extent [t] that fits between
    the edges [lo] and [hi]. *)
Lemma place_anchor (align first last : string) (lo hi t : Z) :
  first <> last -> 0 <= lo -> lo < hi -> hi < 2 ^ 52 -> 0 <= t <= hi - lo ->
  exists x,
    place align first last lo hi (Z.max 1 (hi - lo)) t = Ok x
    /\ (align = first -> x = lo)
    /\ (align = last -> x = hi - t)
    /\ (align <> first -> align <> last -> x = half_even (lo + hi - t)).
Proof.
  intros Hfl Hlo Hhi Hsmall Ht.
  assert (Hav : Z.max 1 (hi - lo) = hi - lo) by lia.
  destruct (String.eqb_spec align first) as [E1|N1].
  - exists lo. unfold place. rewrite (proj2 (String.eqb_eq _ _) E1).
    split; [f_equal; lia|]. split; [reflexivity|].
    split; [intros E2; congruence | contradiction].
  - destruct (String.eqb_spec align last) as [E2|N2].
    + exists (hi - t). unfold place.
      rewrite (proj2 (String.eqb_neq _ _) N1), (proj2 (String.eqb_eq _ _) E2).
      split; [f_equal; lia|]. split; [contradiction|].
      split; [reflexivity | contradiction].
    + exists (half_even (lo + hi - t)).
      split; [|split; [contradiction | split; [contradiction | reflexivity]]].
      rewrite place_centre.
      * f_equal. f_equal. lia.
      * apply String.eqb_neq. exact N1.
      * apply String.eqb_neq. exact N2.
      * exact Hlo.
      * lia.
      * change (2 ^ 53) with (2 * 2 ^ 52). lia.
Qed.

(** One axis of a centred text: the box measured at the origin runs from
    [o] to [e], the point of drawing is [x], the ink runs from [x + o] to
    [x + e]. *)
Lemma centred_ink (lo hi o e x : Z) :
  0 <= lo -> lo < hi -> 0 <= e - o <= hi - lo ->
  x = half_even (lo + hi - (e - o)) ->
  x = half_even (2 * lo + (hi - lo - (e - o)))
  /\ lo <= x /\ x + (e - o) <= hi
  /\ -1 <= (x + o - lo) - (hi - (x + e)) - 2 * o <= 1
  /\ (Z.even (hi - lo - (e - o)) = true ->
      (x + o - lo) - (hi - (x + e)) = 2 * o)
  /\ (Z.even (hi - lo - (e - o)) = false -> Z.even x = true).
Proof.
  intros Hlo Hhi Ht Ex.
  destruct (half_even_spec (lo + hi - (e - o))) as [He Ho].
  rewrite <- Ex in He, Ho.
  assert (Hpar : Z.even (lo + hi - (e - o)) = Z.even (hi - lo - (e - o))).
  { replace (lo + hi - (e - o)) with ((hi - lo - (e - o)) + 2 * lo) by ring.
    apply Z.even_add_mul_2. }
  rewrite Hpar in He, Ho.
  split; [rewrite Ex; f_equal; ring|].
  destruct (Z.even (hi - lo - (e - o))) eqn:Hev.
  - specialize (He eq_refl).
    split; [lia|]. split; [lia|]. split; [lia|].
    split; [intros _; lia | discriminate].
  - destruct (Ho eq_refl) as [Hx Hc].
    assert (hi - lo - (e - o) <> 0)
      by (intros E0; rewrite E0 in Hev; discriminate Hev).
    split; [lia|]. split; [lia|]. split; [lia|].
    split; [discriminate | intros _; exact Hx].
Qed.

Variables (self : CreatorWorker) (bg : image) (tw th : Z).
Variables (text : string) (f : font) (l t r b : Z).

Let x0 := pl self.
Let y0 := pt self.
Let x1 := tw - pr self.
Let y1 := th - pb self.
Let st := fit_text (font_size self) text (Z.max 1 (x1 - x0)) (Z.max 1 (y1 - y0)) f.

Hypothesis Hbox : textbbox text (fnt st) = (l, t, r, b).
Hypothesis Hx : 0 <= x0 /\ x0 < x1 /\ x1 < 2 ^ 52.
Hypothesis Hy : 0 <= y0 /\ y0 < y1 /\ y1 < 2 ^ 52.
Hypothesis Hw : 0 <= r - l <= x1 - x0.
Hypothesis Hh : 0 <= b - t <= y1 - y0.

Lemma fitted_measure : t_w st = r - l /\ t_h st = b - t.
Proof.
  pose proof (fit_text_measure (font_size self) text
                (Z.max 1 (x1 - x0)) (Z.max 1 (y1 - y0)) f) as H.
  cbv zeta in H. fold st in H. unfold measure in H. rewrite Hbox in H.
  injection H as H1 H2. split; assumption.
Qed.

(** The point handed to [draw.text] for a text that fits, and the
    [draw.text] that [render_value] ends with. *)
Lemma text_origin_anchor :
  exists tx ty,
    text_origin self tw th text f = Ok (tx, ty, st)
    /\ (forall canvas,
          compose_canvas (scale_bg self) bg tw th = Ok canvas ->
          exists under fill,
            render_value self bg tw th text f
            = Ok (draw_text under tx ty text (fnt st) fill, fnt st))
    /\ ((halign self = "left" -> tx = x0)
        /\ (halign self = "right" -> tx = x1 - (r - l))
        /\ (halign self <> "left" -> halign self <> "right" ->
            tx = half_even (x0 + x1 - (r - l))))
    /\ ((valign self = "top" -> ty = y0)
        /\ (valign self = "bottom" -> ty = y1 - (b - t))
        /\ (valign self <> "top" -> valign self <> "bottom" ->
            ty = half_even (y0 + y1 - (b - t)))).
Proof.
  destruct fitted_measure as [Ew Eh].
  destruct Hx as [Hx0 [Hx1 Hx2]]. destruct Hy as [Hy0 [Hy1 Hy2]].
  destruct (place_anchor (halign self) "left" "right" x0 x1 (r - l)
              ltac:(discriminate) Hx0 Hx1 Hx2 Hw) as [tx [Px Ax]].
  destruct (place_anchor (valign self) "top" "bottom" y0 y1 (b - t)
              ltac:(discriminate) Hy0 Hy1 Hy2 Hh) as [ty [Py Ay]].
  rewrite <- Ew in Px. rewrite <- Eh in Py.
  exists tx, ty. split; [|split; [|split; [exact Ax | exact Ay]]].
  - unfold text_origin. cbv zeta. fold x0 y0 x1 y1. fold st.
    rewrite Px. cbn [bind]. rewrite Py. reflexivity.
  - intros canvas Hc. unfold render_value. rewrite Hc. cbn [bind]. cbv zeta.
    fold x0 y0 x1 y1. fold st. rewrite Px. cbn [bind]. rewrite Py. cbn [bind].
    destruct (font_color self) as [[cr cg] cb]. eexists. eexists. reflexivity.
Qed.

Lemma ink_box_at (tx ty : Z) :
  ink_box text (fnt st) tx ty = (tx + l, ty + t, tx + r, ty + b).
Proof. unfold ink_box. rewrite Hbox. reflexivity. Qed.

End Placement.



(** X18. Centre alignment, the default, centres the measured box of the
    text, and the ink only up to the offset at which the box starts. For a
    text that fits in the available rectangle (canvas below 2^52 pixels),
    whose box measured at the origin is [(l, t, r, b)] in the font the text
    fit ends with, [render_value] draws a centred text at the point whose
    coordinate is the integer nearest to the middle position, the even one
    when the free space is odd (Python rounds the half to even): the float
    operations of the source, [(avail - t_w) / 2] and the sum with the near
    edge, are exact here. The margin of the ink before the text minus the
    margin after it is then twice the offset of the box on that axis, [2 l]
    or [2 t], when the free space is even, and within one pixel of it when
    the free space is odd: an offset of the box moves the ink off the
    centre by that offset. *)
Theorem centre_alignment_ink {L : ImageLib} (self : CreatorWorker)
  (bg : image) (tw th : Z) (text : string) (f : font) (l t r b : Z) :
  let x0 := pl self in
  let y0 := pt self in
  let x1 := tw - pr self in
  let y1 := th - pb self in
  let st := fit_text (font_size self) text
              (Z.max 1 (x1 - x0)) (Z.max 1 (y1 - y0)) f in
  textbbox text (fnt st) = (l, t, r, b) ->
  0 <= x0 /\ x0 < x1 /\ x1 < 2 ^ 52 ->
  0 <= y0 /\ y0 < y1 /\ y1 < 2 ^ 52 ->
  0 <= r - l <= x1 - x0 ->
  0 <= b - t <= y1 - y0 ->
  exists tx ty il it ir ib,
    text_origin self tw th text f = Ok (tx, ty, st)
    /\ (forall canvas,
          compose_canvas (scale_bg self) bg tw th = Ok canvas ->
          exists under fill,
            render_value self bg tw th text f
            = Ok (draw_text under tx ty text (fnt st) fill, fnt st))
    /\ ink_box text (fnt st) tx ty = (il, it, ir, ib)
    /\ (halign self <> "left" -> halign self <> "right" ->
        let free := x1 - x0 - t_w st in
        tx = half_even (2 * x0 + free)
        /\ x0 <= tx /\ tx + t_w st <= x1
        /\ -1 <= (il - x0) - (x1 - ir) - 2 * l <= 1
        /\ (Z.even free = true -> (il - x0) - (x1 - ir) = 2 * l)
        /\ (Z.even free = false -> Z.even tx = true))
    /\ (valign self <> "top" -> valign self <> "bottom" ->
        let free := y1 - y0 - t_h st in
        ty = half_even (2 * y0 + free)
        /\ y0 <= ty /\ ty + t_h st <= y1
        /\ -1 <= (it - y0) - (y1 - ib) - 2 * t <= 1
        /\ (Z.even free = true -> (it - y0) - (y1 - ib) = 2 * t)
        /\ (Z.even free = false -> Z.even ty = true)).
Proof.
  intros x0 y0 x1 y1 st Hbox Hx Hy Hw Hh.
  destruct (text_origin_anchor self bg tw th text f l t r b Hbox Hx Hy Hw Hh)
    as [tx [ty [Ho [Hr [[_ [_ Xc]] [_ [_ Yc]]]]]]].
  destruct (fitted_measure self tw th text f l t r b Hbox) as [Ew Eh].
  fold x0 y0 x1 y1 in Ho, Hr, Xc, Yc, Ew, Eh. fold st in Ho, Hr, Ew, Eh.
  exists tx, ty, (tx + l), (ty + t), (tx + r), (ty + b).
  split; [exact Ho|]. split; [exact Hr|].
  split; [exact (ink_box_at self tw th text f l t r b Hbox tx ty)|].
  destruct Hx as [Hx0 [Hx1 _]]. destruct Hy as [Hy0 [Hy1 _]].
  split.
  - intros N1 N2 free. subst free. rewrite !Ew.
    exact (centred_ink x0 x1 l r tx Hx0 Hx1 Hw (Xc N1 N2)).
  - intros N1 N2 free. subst free. rewrite !Eh.
    exact (centred_ink y0 y1 t b ty Hy0 Hy1 Hh (Yc N1 N2)).
Qed.

(** The number 123 in a 20 point font whose box starts at (2, 5), centred
    in the rectangle from (10, 10) to (190, 90): the ink has 74 pixels
    before it and 70 after it, 35 above it and 25 under it. *)
Lemma centre_alignment_ink_witness :
  exists tx ty il it ir ib st,
    @text_origin bearing_lib (aligned_worker "center" "center") 200 100 "123" 20
    = Ok (tx, ty, st)
    /\ @ink_box bearing_lib "123" (fnt st) tx ty = (il, it, ir, ib)
    /\ (il - 10) - (190 - ir) = 4
    /\ (it - 10) - (90 - ib) = 10.
Proof.
  destruct (@centre_alignment_ink bearing_lib
              (aligned_worker "center" "center")
              opaque_bg 200 100 "123" 20 2 5 38 25
              eq_refl ltac:(cbn; lia) ltac:(cbn; lia) ltac:(cbn; lia)
              ltac:(cbn; lia))
    as [tx [ty [il [it [ir [ib [Ho [_ [Hi [Hc Hm]]]]]]]]]].
  exists tx, ty, il, it, ir, ib. eexists.
  split; [exact Ho|]. split; [exact Hi|].
  destruct (Hc ltac:(discriminate) ltac:(discriminate)) as [_ [_ [_ [_ [E _]]]]].
  destruct (Hm ltac:(discriminate) ltac:(discriminate)) as [_ [_ [_ [_ [E' _]]]]].
  split; [exact (E eq_refl) | exact (E' eq_refl)].
Defined.

(** ** Target size in inches *)

(** [binary_round_aux] on an exact input whose value has at most 53
    significant bits. *)
Lemma round_exact_value (M e v g : Z) :
  0 <= M -> -1074 <= e <= 971 -> M * 2 ^ (e + 1074) = v * 2 ^ g ->
  0 <= v < 2 ^ 53 -> 0 <= g -> v * 2 ^ g < 2 ^ 2098 ->
  SFscaled (binary_round_aux prec emax false M e loc_Exact) = Some (v * 2 ^ g).
Proof.
  intros HM0 He HM Hv Hg Hlt.
  set (a := e + 1074) in *. assert (Ha : 0 <= a) by (unfold a; lia).
  assert (Hpa : 0 < 2 ^ a) by (apply pow2_pos; lia).
  assert (Hbound : M * 2 ^ a < 2 ^ 2098) by (rewrite HM; exact Hlt).
  rewrite <- HM.
  destruct (Z.le_gt_cases a g) as [Hge|Hlt'].
  - assert (H1 : M = v * 2 ^ (g - a)).
    { apply Z.mul_reg_r with (p := 2 ^ a); [lia|].
      rewrite HM, <- Z.mul_assoc, <- Z.pow_add_r by lia. do 2 f_equal. lia. }
    rewrite H1. apply round_exact; try lia. rewrite <- H1. exact Hbound.
  - assert (Hv' : M * 2 ^ (a - g) = v).
    { apply Z.mul_reg_r with (p := 2 ^ g); [pose proof (pow2_pos g Hg); lia|].
      rewrite <- HM, <- Z.mul_assoc, <- Z.pow_add_r by lia. do 2 f_equal. lia. }
    assert (Hp : 1 <= 2 ^ (a - g)) by (pose proof (pow2_pos (a - g)); lia).
    assert (H2 : 0 <= M < 2 ^ 53).
    { split; [lia|]. apply Z.le_lt_trans with v; [|lia].
      rewrite <- Hv'. rewrite <- (Z.mul_1_r M) at 1.
      apply Z.mul_le_mono_nonneg_l; lia. }
    replace M with (M * 2 ^ 0) by (change (2 ^ 0) with 1; ring).
    apply round_exact; try lia.
    change (2 ^ 0) with 1. rewrite Z.mul_1_r. exact Hbound.
Qed.

(** A float times a whole number, when the product has at most 53
    significant bits, is exact. *)
Lemma scaled_mul_int (x : float) (X d v g : Z) :
  scaled x = Some X -> 2 ^ 104 <= X -> 1 <= d < 2 ^ 53 ->
  X * d = v * 2 ^ g -> 0 <= v < 2 ^ 53 -> 0 <= g -> v * 2 ^ g < 2 ^ 2098 ->
  scaled (x * PyFloat.of_int d) = Some (X * d).
Proof.
  intros Hx HX Hd Hprod Hv Hg Hlt.
  destruct (scaled_shape x X Hx ltac:(lia))
    as [[E0 _] | [HXp [mx [ex [Ex [Hex [Hmx EX]]]]]]]; [lia|].
  pose proof (scaled_of_int d ltac:(lia)) as Sd. fold (scaled (PyFloat.of_int d)) in Sd.
  assert (Hp1074 : 0 < 2 ^ 1074) by (apply pow2_pos; lia).
  destruct (scaled_shape _ _ Sd ltac:(nia))
    as [[E0 _] | [HDp [my [ey [Ey [Hey [Hmy ED]]]]]]]; [nia|].
  (* the exponents *)
  assert (Hex' : -1022 <= ex).
  { destruct (Z.le_gt_cases (-1022) ex) as [|G]; [assumption | exfalso].
    assert (2 ^ (ex + 1074) <= 2 ^ 51) by (apply pow2_le; lia).
    assert (0 < 2 ^ (ex + 1074)) by (apply pow2_pos; lia).
    assert (Z.pos mx * 2 ^ (ex + 1074) < 2 ^ 53 * 2 ^ 51) by nia.
    change (2 ^ 53 * 2 ^ 51) with (2 ^ 104) in *. lia. }
  assert (Hey' : -52 <= ey <= 0).
  { split.
    - destruct (Z.le_gt_cases (-52) ey) as [|G]; [assumption | exfalso].
      assert (2 ^ (ey + 1074) <= 2 ^ 1021) by (apply pow2_le; lia).
      assert (0 < 2 ^ (ey + 1074)) by (apply pow2_pos; lia).
      assert (Z.pos my * 2 ^ (ey + 1074) < 2 ^ 53 * 2 ^ 1021) by nia.
      change (2 ^ 53 * 2 ^ 1021) with (2 ^ 1074) in *. nia.
    - pose proof (Prim2SF_valid (PyFloat.of_int d)) as Vy. rewrite Ey in Vy.
      cbn [valid_binary] in Vy. destruct (x_shape my ey Vy) as [_ [_ Hsh]].
      clear Vy.
      destruct (Z.le_gt_cases ey 0) as [|G]; [assumption | exfalso].
      assert (Hd53 : Z.pos (digits2_pos my) = 53) by lia.
      pose proof (digits2_pos_bounds my) as [Bm _]. rewrite Hd53 in Bm.
      change (2 ^ (53 - 1)) with (2 ^ 52) in Bm.
      assert (2 ^ 1075 <= 2 ^ (ey + 1074)) by (apply pow2_le; lia).
      assert (2 ^ 52 * 2 ^ 1075 <= Z.pos my * 2 ^ (ey + 1074)) by nia.
      change (2 ^ 52 * 2 ^ 1075) with (2 ^ 53 * 2 ^ 1074) in *. nia. }
  assert (Hmy' : Z.pos my = d * 2 ^ (- ey)).
  { apply Z.mul_reg_r with (p := 2 ^ (ey + 1074));
      [pose proof (pow2_pos (ey + 1074)); lia|].
    rewrite <- ED, <- Z.mul_assoc, <- Z.pow_add_r by lia. do 2 f_equal. lia. }
  unfold scaled. rewrite mul_spec, Ex, Ey. unfold SF64mul. cbn [SFmul xorb].
  rewrite Hprod.
  apply round_exact_value; try lia.
  rewrite <- Hprod, EX, Pos2Z.inj_mul, Hmy'.
  replace (ex + ey + 1074) with ((ex + 1074) + ey) by lia.
  assert (E2 : 2 ^ (ex + 1074) = 2 ^ (ex + 1074 + ey) * 2 ^ (- ey)).
  { rewrite <- Z.pow_add_r by lia. f_equal. lia. }
  rewrite E2. ring.
Qed.

Lemma round_halves (z : float) (v : Z) :
  scaled z = Some (v * 2 ^ 1073) -> 0 <= v ->
  PyFloat.round z = Ok (half_even v).
Proof.
  intros Hz Hv.
  assert (Hp : 0 < 2 ^ 1073) by (apply pow2_pos; lia).
  assert (HV : 0 <= v * 2 ^ 1073) by (apply Z.mul_nonneg_nonneg; lia).
  unfold PyFloat.round.
  destruct (scaled_shape z _ Hz HV) as [[E0 [s Ez]] | [HVp [m [e [Ez [He [Hm EV]]]]]]].
  - rewrite Ez. assert (v = 0) by nia. subst v. reflexivity.
  - rewrite Ez. f_equal. apply round_half_even_halves; [lia | symmetry; exact EV].
Qed.

(** X19. Whole and half inches give the pixel count one expects: for a
    measurement of [h / 2] inches and a resolution [dpi] with
    [h * dpi < 2^53], the target size is [max(1, h * dpi / 2)] rounded to
    the nearest integer, the even one on a tie; for whole inches it is
    exactly inches times DPI. The float product of the source is exact
    here. *)
Theorem inch_sizes_exact (v : float) (h dpi : Z) :
  scaled v = Some (h * 2 ^ 1073) -> 1 <= h -> 1 <= dpi -> h * dpi < 2 ^ 53 ->
  target_px v "inches" dpi = Ok (Z.max 1 (half_even (h * dpi)))
  /\ (Z.even h = true -> target_px v "inches" dpi = Ok (h / 2 * dpi)).
Proof.
  intros Hv Hh Hd Hsmall.
  assert (Hp : 0 < 2 ^ 1073) by (apply pow2_pos; lia).
  assert (Hd53 : dpi < 2 ^ 53) by nia.
  assert (Hmul : scaled (v * PyFloat.of_int dpi) = Some (h * dpi * 2 ^ 1073)).
  { replace (h * dpi * 2 ^ 1073) with (h * 2 ^ 1073 * dpi) by ring.
    assert (H104 : 2 ^ 104 <= h * 2 ^ 1073).
    { assert (2 ^ 104 <= 2 ^ 1073) by (apply pow2_le; lia).
      apply Z.le_trans with (1 * 2 ^ 1073); [lia|].
      apply Z.mul_le_mono_nonneg_r; lia. }
    assert (Hlt : h * dpi * 2 ^ 1073 < 2 ^ 2098).
    { apply Z.lt_le_trans with (2 ^ 53 * 2 ^ 1073).
      - apply Z.mul_lt_mono_pos_r; lia.
      - rewrite <- Z.pow_add_r by lia. apply pow2_le. lia. }
    apply (scaled_mul_int v (h * 2 ^ 1073) dpi (h * dpi) 1073 Hv H104);
      [lia | ring | nia | lia | exact Hlt]. }
  assert (Hpx : target_px v "inches" dpi = Ok (Z.max 1 (half_even (h * dpi)))).
  { unfold target_px. change (inches_from_unit v "inches") with v.
    rewrite (round_halves _ (h * dpi) Hmul) by nia. reflexivity. }
  split; [exact Hpx|].
  intros Hev. rewrite Hpx. f_equal.
  apply Z.even_spec in Hev. destruct Hev as [n Hn].
  destruct (half_even_spec (h * dpi)) as [He _].
  assert (Heven : Z.even (h * dpi) = true).
  { rewrite Z.even_mul. subst h. rewrite Z.even_mul. reflexivity. }
  specialize (He Heven).
  assert (Hq : h / 2 = n) by (subst h; rewrite Z.mul_comm; apply Z.div_mul; lia).
  rewrite Hq. nia.
Qed.

Lemma inch_sizes_exact_witness :
  target_px 8.5 "inches" 75 = Ok (Z.max 1 (half_even (17 * 75)))
  /\ (Z.even 17 = true -> target_px 8.5 "inches" 75 = Ok (17 / 2 * 75)).
Proof.
  apply (inch_sizes_exact 8.5 17 75).
  - vm_compute. reflexivity.
  - lia.
  - lia.
  - reflexivity.
Defined.

(** ** Cover mode *)

(** The shape of a normal float. *)
Lemma scaled_normal (x : float) (X : Z) :
  scaled x = Some X -> 2 ^ 53 <= X ->
  exists m e,
    Prim2SF x = S754_finite false m e /\ -1073 <= e <= 971
    /\ 2 ^ 52 <= Z.pos m < 2 ^ 53 /\ Zdigits2 (Z.pos m) = 53
    /\ X = Z.pos m * 2 ^ (e + 1074).
Proof.
  intros Hx HX.
  destruct (scaled_shape x X Hx ltac:(lia))
    as [[E0 _] | [HXp [m [e [Ex [He [Hm EX]]]]]]]; [lia|].
  pose proof (Prim2SF_valid x) as Vx. rewrite Ex in Vx. cbn [valid_binary] in Vx.
  destruct (x_shape m e Vx) as [_ [_ Hsh]]. clear Vx.
  assert (He' : e <> -1074).
  { intros E. rewrite E in EX. change (2 ^ (-1074 + 1074)) with 1 in EX. lia. }
  assert (Hd : Z.pos (digits2_pos m) = 53) by lia.
  pose proof (digits2_pos_bounds m) as [B _]. rewrite Hd in B.
  change (2 ^ (53 - 1)) with (2 ^ 52) in B.
  exists m, e. repeat split; try assumption; lia.
Qed.

(** Exponent of a normal float from the size of its value. *)
Lemma normal_exponent (m e lo hi : Z) :
  2 ^ 52 <= m < 2 ^ 53 -> -1074 <= e -> 0 <= lo -> 0 <= hi ->
  2 ^ lo <= m * 2 ^ (e + 1074) < 2 ^ hi ->
  lo - 1127 <= e <= hi - 1127.
Proof.
  intros Hm He Hlo Hhi [H1 H2].
  assert (Hp : 0 < 2 ^ (e + 1074)) by (apply pow2_pos; lia).
  split.
  - destruct (Z.le_gt_cases (lo - 1127) e) as [|G]; [assumption | exfalso].
    assert (2 ^ (e + 1074) <= 2 ^ (lo - 54)).
    { destruct (Z.le_gt_cases 54 lo);
        [apply pow2_le | exfalso]; clear - He G H; lia. }
    assert (m * 2 ^ (e + 1074) < 2 ^ 53 * 2 ^ (lo - 54)).
    { apply Z.lt_le_trans with (2 ^ 53 * 2 ^ (e + 1074)).
      - apply Z.mul_lt_mono_pos_r; lia.
      - apply Z.mul_le_mono_nonneg_l; lia. }
    rewrite <- Z.pow_add_r in H0 by lia.
    assert (2 ^ (53 + (lo - 54)) <= 2 ^ lo) by (apply pow2_le; lia). lia.
  - destruct (Z.le_gt_cases e (hi - 1127)) as [|G]; [assumption | exfalso].
    assert (Hhi52 : 52 <= hi).
    { destruct (Z.le_gt_cases 52 hi) as [|G']; [assumption | exfalso].
      assert (2 ^ hi <= 2 ^ 52) by (apply pow2_le; lia).
      assert (2 ^ 52 * 1 <= m * 2 ^ (e + 1074))
        by (apply Z.mul_le_mono_nonneg; lia).
      lia. }
    assert (2 ^ (hi - 52) <= 2 ^ (e + 1074)) by (apply pow2_le; lia).
    assert (2 ^ 52 * 2 ^ (hi - 52) <= m * 2 ^ (e + 1074)).
    { apply Z.le_trans with (2 ^ 52 * 2 ^ (e + 1074)).
      - apply Z.mul_le_mono_nonneg_l; lia.
      - apply Z.mul_le_mono_nonneg_r; lia. }
    rewrite <- Z.pow_add_r in H0 by lia.
    replace (52 + (hi - 52)) with hi in H0 by lia. lia.
Qed.

(** Division of two normal floats of moderate size: the quotient is within
    one unit in the last place, a relative error of at most 2^-52. *)
Lemma div_weak (x y : float) (X Y : Z) :
  scaled x = Some X -> scaled y = Some Y ->
  2 ^ 1074 <= X < 2 ^ 1127 -> 2 ^ 1074 <= Y < 2 ^ 1127 ->
  exists Q,
    scaled (x / y) = Some Q
    /\ 2 ^ 52 * Z.abs (Q * Y - X * 2 ^ 1074) <= X * 2 ^ 1074.
Proof.
  intros Hx Hy HX HY.
  assert (H53 : 2 ^ 53 <= 2 ^ 1074) by (apply pow2_le; lia).
  destruct (scaled_normal x X Hx ltac:(lia)) as [mx [ex [Ex [Hex [Hmx [Hdx EX]]]]]].
  destruct (scaled_normal y Y Hy ltac:(lia)) as [my [ey [Ey [Hey [Hmy [Hdy EY]]]]]].
  assert (Hex' : -53 <= ex <= 0).
  { apply (normal_exponent (Z.pos mx) ex 1074 1127); lia. }
  assert (Hey' : -53 <= ey <= 0).
  { apply (normal_exponent (Z.pos my) ey 1074 1127); lia. }
  unfold scaled. rewrite FloatAxioms.div_spec, Ex, Ey. unfold SF64div. cbn [SFdiv xorb].
  unfold SFdiv_core_binary. rewrite fexp_64, Hdx, Hdy.
  replace (Z.min (fexp64 (53 + ex - (53 + ey))) (ex - ey)) with (ex - ey - 53)
    by (unfold fexp64; lia).
  replace (ex - ey - (ex - ey - 53)) with 53 by lia.
  rewrite Z.shiftl_mul_pow2 by lia.
  set (e' := ex - ey - 53).
  pose proof (Z.mul_div_le (Z.pos mx * 2 ^ 53) (Z.pos my) ltac:(lia)) as D1.
  pose proof (Z.mul_succ_div_gt (Z.pos mx * 2 ^ 53) (Z.pos my) ltac:(lia)) as D2.
  assert (Eq : fst (Z.div_eucl (Z.pos mx * 2 ^ 53) (Z.pos my))
               = Z.pos mx * 2 ^ 53 / Z.pos my) by reflexivity.
  destruct (Z.div_eucl (Z.pos mx * 2 ^ 53) (Z.pos my)) as [q r].
  cbn [fst] in Eq. rewrite <- Eq in D1, D2. clear Eq.
  set (loc := new_location (Z.pos my) r). clearbody loc.
  set (a := Z.pos mx) in *. set (b := Z.pos my) in *.
  assert (Hq52 : 2 ^ 52 <= q).
  { assert (b * 2 ^ 52 <= a * 2 ^ 53).
    { apply Z.le_trans with (2 ^ 53 * 2 ^ 52).
      - apply Z.mul_le_mono_nonneg_r; lia.
      - rewrite (Z.mul_comm a). apply Z.mul_le_mono_nonneg_l; lia. }
    assert (b * 2 ^ 52 < b * Z.succ q) by lia.
    apply Z.mul_lt_mono_pos_l in H0; lia. }
  assert (Hq54 : q < 2 ^ 54).
  { assert (a * 2 ^ 53 < b * 2 ^ 54).
    { apply Z.lt_le_trans with (2 ^ 53 * 2 ^ 53).
      - apply Z.mul_lt_mono_pos_r; lia.
      - change (2 ^ 54) with (2 * 2 ^ 53).
        rewrite Z.mul_assoc. apply Z.mul_le_mono_nonneg_r; lia. }
    assert (b * q < b * 2 ^ 54) by lia.
    apply Z.mul_lt_mono_pos_l in H0; lia. }
  assert (Hq0 : 0 <= q) by lia.
  destruct (round_aux_weak q e' loc Hq0 ltac:(unfold e'; lia)) as [m2 [Hm2 [_ Hval]]].
  pose proof (ra_n_nonneg q e') as Hn.
  pose proof (ra_floor q e') as Hfl.
  pose proof (ra_m1_nonneg q e' Hq0) as Hm1.
  pose proof (ra_m1_upper q e' Hq0) as Hm1u.
  pose proof (ra_normal q e' Hq0) as Hnorm.
  unfold ra_e1 in *.
  set (n := ra_n q e') in *.
  set (m1 := ra_m1 q e') in *.
  assert (Hpn : 0 < 2 ^ n) by (apply pow2_pos; lia).
  assert (Hm1n : 2 ^ 52 <= m1).
  { destruct Hnorm as [N0|[Nmin|Nn]]; [|unfold e' in Nmin; lia | exact Nn].
    unfold m1, ra_m1. fold n. rewrite N0. change (2 ^ 0) with 1.
    rewrite Z.div_1_r. exact Hq52. }
  assert (Hn1 : n <= 1).
  { assert (H2n : 2 ^ 52 * 2 ^ n < 2 ^ 54).
    { apply Z.le_lt_trans with (m1 * 2 ^ n); [|lia].
      apply Z.mul_le_mono_nonneg_r; lia. }
    rewrite <- Z.pow_add_r in H2n by lia.
    apply pow2_lt_inv in H2n; lia. }
  set (k := e' + n + 1074) in *.
  assert (Hk : 0 <= k <= 2044) by (unfold k, e'; lia).
  set (U := 2 ^ k) in *.
  assert (HU : 0 < U) by (apply pow2_pos; lia).
  assert (Hno : m2 * U < 2 ^ 2098) by (apply small_exp_no_overflow; lia).
  exists (m2 * U). split; [exact (Hval Hno)|].
  set (G := 2 ^ (ex + 1074 + 1021)).
  assert (HG : 0 < G) by (apply pow2_pos; lia).
  assert (HUY : U * Y = b * 2 ^ n * G).
  { rewrite EY. unfold U, G.
    replace (2 ^ k * (b * 2 ^ (ey + 1074))) with (b * (2 ^ k * 2 ^ (ey + 1074))) by ring.
    rewrite <- Z.pow_add_r by lia. rewrite <- !Z.mul_assoc, <- Z.pow_add_r by lia.
    do 2 f_equal. unfold k, e'. lia. }
  assert (HXT : X * 2 ^ 1074 = a * 2 ^ 53 * G).
  { rewrite EX. unfold G. rewrite <- !Z.mul_assoc, <- !Z.pow_add_r by lia.
    do 2 f_equal. lia. }
  assert (HL : m1 * (U * Y) <= X * 2 ^ 1074).
  { rewrite HUY, HXT.
    replace (m1 * (b * 2 ^ n * G)) with (m1 * 2 ^ n * b * G) by ring.
    apply Z.mul_le_mono_nonneg_r; [lia|].
    apply Z.le_trans with (q * b); [|lia].
    apply Z.mul_le_mono_nonneg_r; lia. }
  assert (HH : X * 2 ^ 1074 < m1 * (U * Y) + U * Y).
  { rewrite HUY, HXT.
    replace (m1 * (b * 2 ^ n * G) + b * 2 ^ n * G) with ((m1 + 1) * 2 ^ n * b * G) by ring.
    apply Z.mul_lt_mono_pos_r; [lia|].
    apply Z.lt_le_trans with (Z.succ q * b); [lia|].
    apply Z.mul_le_mono_nonneg_r; lia. }
  assert (HUL : 2 ^ 52 * (U * Y) <= m1 * (U * Y)).
  { apply Z.mul_le_mono_nonneg_r; [|lia].
    rewrite HUY. apply Z.lt_le_incl.
    repeat apply Z.mul_pos_pos; lia. }
  set (UY := U * Y) in *. set (XT := X * 2 ^ 1074) in *.
  destruct Hm2 as [-> | ->].
  - replace (m1 * U * Y) with (m1 * UY) by (unfold UY; ring).
    clearbody UY XT. clear - HL HH HUL. lia.
  - replace ((m1 + 1) * U * Y) with (m1 * UY + UY) by (unfold UY; ring).
    clearbody UY XT. clear - HL HH HUL. lia.
Qed.

(** Product of a normal float of moderate size by another one: within one
    unit in the last place. *)
Lemma mul_weak (x y : float) (X Y : Z) :
  scaled x = Some X -> scaled y = Some Y ->
  2 ^ 1074 <= X < 2 ^ 1127 -> 2 ^ 1000 <= Y < 2 ^ 1130 ->
  exists P,
    scaled (x * y) = Some P
    /\ 2 ^ 52 * Z.abs (P * 2 ^ 1074 - X * Y) <= X * Y.
Proof.
  intros Hx Hy HX HY.
  assert (H53 : 2 ^ 53 <= 2 ^ 1000) by (apply pow2_le; lia).
  assert (H53' : 2 ^ 1000 <= 2 ^ 1074) by (apply pow2_le; lia).
  destruct (scaled_normal x X Hx ltac:(lia)) as [mx [ex [Ex [Hex [Hmx [Hdx EX]]]]]].
  destruct (scaled_normal y Y Hy ltac:(lia)) as [my [ey [Ey [Hey [Hmy [Hdy EY]]]]]].
  assert (Hex' : -53 <= ex <= 0).
  { apply (normal_exponent (Z.pos mx) ex 1074 1127); lia. }
  assert (Hey' : -127 <= ey <= 3).
  { apply (normal_exponent (Z.pos my) ey 1000 1130); lia. }
  unfold scaled. rewrite mul_spec, Ex, Ey. unfold SF64mul. cbn [SFmul xorb].
  rewrite Pos2Z.inj_mul.
  set (a := Z.pos mx) in *. set (b := Z.pos my) in *.
  set (m := a * b). set (e := ex + ey).
  assert (Hm104 : 2 ^ 104 <= m < 2 ^ 106).
  { unfold m. split.
    - change (2 ^ 104) with (2 ^ 52 * 2 ^ 52). apply Z.mul_le_mono_nonneg; lia.
    - change (2 ^ 106) with (2 ^ 53 * 2 ^ 53). apply Z.mul_lt_mono_nonneg; lia. }
  assert (Hm0 : 0 <= m) by lia.
  destruct (round_aux_weak m e loc_Exact Hm0 ltac:(unfold e; lia)) as [m2 [Hm2 [_ Hval]]].
  pose proof (ra_n_nonneg m e) as Hn.
  pose proof (ra_floor m e) as Hfl.
  pose proof (ra_m1_nonneg m e Hm0) as Hm1.
  pose proof (ra_m1_upper m e Hm0) as Hm1u.
  pose proof (ra_normal m e Hm0) as Hnorm.
  unfold ra_e1 in *.
  set (n := ra_n m e) in *.
  set (m1 := ra_m1 m e) in *.
  assert (Hpn : 0 < 2 ^ n) by (apply pow2_pos; lia).
  assert (Hm1n : 2 ^ 52 <= m1).
  { destruct Hnorm as [N0|[Nmin|Nn]]; [|unfold e in Nmin; lia | exact Nn].
    exfalso. unfold m1, ra_m1 in Hm1u. fold n in Hm1u. rewrite N0 in Hm1u.
    change (2 ^ 0) with 1 in Hm1u. rewrite Z.div_1_r in Hm1u.
    assert (2 ^ 53 < 2 ^ 104) by (apply pow2_lt; lia). lia. }
  assert (Hn53 : n <= 53).
  { assert (H2n : 2 ^ 52 * 2 ^ n < 2 ^ 106).
    { apply Z.le_lt_trans with (m1 * 2 ^ n); [|lia].
      apply Z.mul_le_mono_nonneg_r; lia. }
    rewrite <- Z.pow_add_r in H2n by lia.
    apply pow2_lt_inv in H2n; lia. }
  set (k := e + n + 1074) in *.
  assert (Hk : 0 <= k <= 2044) by (unfold k, e; lia).
  set (U := 2 ^ k) in *.
  assert (HU : 0 < U) by (apply pow2_pos; lia).
  assert (Hno : m2 * U < 2 ^ 2098) by (apply small_exp_no_overflow; lia).
  exists (m2 * U). split; [exact (Hval Hno)|].
  set (G := 2 ^ (ex + 1074 + (ey + 1074))).
  assert (HG : 0 < G) by (apply pow2_pos; lia).
  assert (HUT : U * 2 ^ 1074 = 2 ^ n * G).
  { unfold U, G. rewrite <- !Z.pow_add_r by lia. f_equal. unfold k, e. lia. }
  assert (HXY : X * Y = m * G).
  { rewrite EX, EY. unfold G, m.
    rewrite (Z.pow_add_r 2 (ex + 1074) (ey + 1074)) by lia. ring. }
  assert (HL : m1 * (U * 2 ^ 1074) <= X * Y).
  { rewrite HUT, HXY. rewrite Z.mul_assoc.
    apply Z.mul_le_mono_nonneg_r; lia. }
  assert (HH : X * Y < m1 * (U * 2 ^ 1074) + U * 2 ^ 1074).
  { rewrite HUT, HXY.
    replace (m1 * (2 ^ n * G) + 2 ^ n * G) with ((m1 + 1) * 2 ^ n * G) by ring.
    apply Z.mul_lt_mono_pos_r; lia. }
  assert (HUL : 2 ^ 52 * (U * 2 ^ 1074) <= m1 * (U * 2 ^ 1074)).
  { apply Z.mul_le_mono_nonneg_r; [|lia].
    rewrite HUT. apply Z.lt_le_incl. apply Z.mul_pos_pos; lia. }
  set (UT := U * 2 ^ 1074) in *. set (XY := X * Y) in *.
  destruct Hm2 as [-> | ->].
  - replace (m1 * U * 2 ^ 1074) with (m1 * UT) by (unfold UT; ring).
    clearbody UT XY. clear - HL HH HUL. lia.
  - replace ((m1 + 1) * U * 2 ^ 1074) with (m1 * UT + UT) by (unfold UT; ring).
    clearbody UT XY. clear - HL HH HUL. lia.
Qed.

Lemma pow2_double_le (a b : Z) : 0 <= a < b -> 2 * 2 ^ a <= 2 ^ b.
Proof.
  intros H. rewrite <- Z.pow_succ_r by lia. apply pow2_le. lia.
Qed.

(** Comparison of two normal floats is comparison of their values. *)
Lemma ltb_scaled (x y : float) (X Y : Z) :
  scaled x = Some X -> scaled y = Some Y -> 2 ^ 53 <= X -> 2 ^ 53 <= Y ->
  (x <? y)%float = (X <? Y).
Proof.
  intros Hx Hy HX HY.
  destruct (scaled_normal x X Hx HX) as [mx [ex [Ex [Hex [Hmx [Hdx EX]]]]]].
  destruct (scaled_normal y Y Hy HY) as [my [ey [Ey [Hey [Hmy [Hdy EY]]]]]].
  rewrite ltb_spec, Ex, Ey. unfold SFltb. cbn [SFcompare].
  assert (Hpx : 0 < 2 ^ (ex + 1074)) by (apply pow2_pos; lia).
  assert (Hpy : 0 < 2 ^ (ey + 1074)) by (apply pow2_pos; lia).
  destruct (Z.compare_spec ex ey) as [E|L|G].
  - subst ey. rewrite Pos.compare_cont_spec.
    destruct (Pos.compare_spec mx my) as [E|L|G]; cbn [Pos.switch_Eq]; symmetry.
    + apply Z.ltb_ge. rewrite EX, EY, E. lia.
    + apply Z.ltb_lt. rewrite EX, EY. apply Z.mul_lt_mono_pos_r; lia.
    + apply Z.ltb_ge. rewrite EX, EY. apply Z.mul_le_mono_nonneg_r; lia.
  - symmetry. apply Z.ltb_lt. rewrite EX, EY.
    assert (2 * 2 ^ (ex + 1074) <= 2 ^ (ey + 1074)) by (apply pow2_double_le; lia).
    apply Z.lt_le_trans with (2 ^ 53 * 2 ^ (ex + 1074)).
    + apply Z.mul_lt_mono_pos_r; lia.
    + apply Z.le_trans with (2 ^ 52 * 2 ^ (ey + 1074)).
      * change (2 ^ 53) with (2 ^ 52 * 2). rewrite <- Z.mul_assoc.
        apply Z.mul_le_mono_nonneg_l; lia.
      * apply Z.mul_le_mono_nonneg_r; lia.
  - symmetry. apply Z.ltb_ge. rewrite EX, EY.
    assert (2 * 2 ^ (ey + 1074) <= 2 ^ (ex + 1074)) by (apply pow2_double_le; lia).
    apply Z.le_trans with (2 ^ 53 * 2 ^ (ey + 1074)).
    + apply Z.mul_le_mono_nonneg_r; lia.
    + apply Z.le_trans with (2 ^ 52 * 2 ^ (ex + 1074)).
      * change (2 ^ 53) with (2 ^ 52 * 2). rewrite <- Z.mul_assoc.
        apply Z.mul_le_mono_nonneg_l; lia.
      * apply Z.mul_le_mono_nonneg_r; lia.
Qed.

(** [round] returns an integer within one half of a finite float. *)
Lemma round_near (z : float) (Z0 : Z) :
  scaled z = Some Z0 -> 0 <= Z0 ->
  exists r,
    PyFloat.round z = Ok r /\ Z.abs (2 * (r * 2 ^ 1074) - 2 * Z0) <= 2 ^ 1074.
Proof.
  intros Hz HZ.
  assert (HT : 0 < 2 ^ 1074) by (apply pow2_pos; lia).
  unfold PyFloat.round.
  destruct (scaled_shape z Z0 Hz HZ) as [[E0 [s Ez]] | [HZp [m [e [Ez [He [Hm EZ]]]]]]].
  - rewrite Ez. exists 0. split; [reflexivity|]. subst Z0. lia.
  - rewrite Ez. eexists. split; [reflexivity|].
    unfold PyFloat.round_half_even.
    destruct (Z.leb_spec 0 e) as [H0|H0].
    + assert (E : Z.pos m * 2 ^ e * 2 ^ 1074 = Z0).
      { rewrite EZ, Z.pow_add_r by lia. ring. }
      rewrite E. rewrite Z.sub_diag. cbn [Z.abs]. lia.
    + set (k := - e). assert (Hk : 1 <= k <= 1074) by (unfold k; lia).
      set (d := 2 ^ k). assert (Hd : 0 < d) by (apply pow2_pos; lia).
      set (S := 2 ^ (1074 - k)). assert (HS : 0 < S) by (apply pow2_pos; lia).
      assert (ET : 2 ^ 1074 = d * S).
      { unfold d, S. rewrite <- Z.pow_add_r by lia. f_equal. lia. }
      assert (EZ' : Z0 = Z.pos m * S).
      { rewrite EZ. unfold S. do 2 f_equal. unfold k. lia. }
      pose proof (Z.div_mod (Z.pos m) d ltac:(lia)) as Hdm.
      pose proof (Z.mod_pos_bound (Z.pos m) d Hd) as Hmb.
      set (q := Z.pos m / d) in *. set (r := Z.pos m mod d) in *.
      rewrite ET, EZ', Hdm.
      assert (Hcases : forall c, (c = q /\ 2 * r <= d) \/ (c = q + 1 /\ d <= 2 * r) ->
                Z.abs (2 * (c * (d * S)) - 2 * ((d * q + r) * S)) <= d * S).
      { intros c [[-> Hc]|[-> Hc]].
        - replace (2 * (q * (d * S)) - 2 * ((d * q + r) * S)) with (- (2 * r * S)) by ring.
          rewrite Z.abs_opp, Z.abs_eq by (apply Z.mul_nonneg_nonneg; lia).
          apply Z.mul_le_mono_nonneg_r; lia.
        - replace (2 * ((q + 1) * (d * S)) - 2 * ((d * q + r) * S))
            with ((2 * d - 2 * r) * S) by ring.
          rewrite Z.abs_eq by (apply Z.mul_nonneg_nonneg; lia).
          apply Z.mul_le_mono_nonneg_r; lia. }
      apply Hcases.
      destruct (Z.compare_spec (2 * r) d) as [E|L|G].
      * destruct (Z.even q); [left | right]; split; try reflexivity; lia.
      * left. split; [reflexivity | lia].
      * right. split; [reflexivity | lia].
Qed.

Lemma abs_scale (c x : Z) : 0 <= c -> c * Z.abs x = Z.abs (c * x).
Proof. intros Hc. rewrite Z.abs_mul, (Z.abs_eq c) by exact Hc. reflexivity. Qed.

(** The quotient of two whole numbers below 2^53. *)
Lemma int_ratio (a b : Z) :
  1 <= a < 2 ^ 53 -> 1 <= b < 2 ^ 53 ->
  exists Q,
    scaled (PyFloat.of_int a / PyFloat.of_int b) = Some Q
    /\ 2 ^ 52 * Z.abs (Q * b - a * 2 ^ 1074) <= a * 2 ^ 1074.
Proof.
  intros Ha Hb.
  assert (HT : 0 < 2 ^ 1074) by (apply pow2_pos; lia).
  assert (E : 2 ^ 1127 = 2 ^ 53 * 2 ^ 1074) by (rewrite <- Z.pow_add_r by lia; f_equal).
  pose proof (scaled_of_int a ltac:(lia)) as Sa.
  pose proof (scaled_of_int b ltac:(lia)) as Sb.
  destruct (div_weak (PyFloat.of_int a) (PyFloat.of_int b) _ _ Sa Sb) as [Q [HQ HB]].
  { rewrite E. split; [|apply Z.mul_lt_mono_pos_r; lia].
    rewrite <- (Z.mul_1_l (2 ^ 1074)) at 1. apply Z.mul_le_mono_nonneg_r; lia. }
  { rewrite E. split; [|apply Z.mul_lt_mono_pos_r; lia].
    rewrite <- (Z.mul_1_l (2 ^ 1074)) at 1. apply Z.mul_le_mono_nonneg_r; lia. }
  exists Q. split; [exact HQ|].
  set (T := 2 ^ 1074) in *.
  apply Z.mul_le_mono_pos_r with (p := T); [exact HT|].
  replace (2 ^ 52 * Z.abs (Q * b - a * T) * T)
    with (2 ^ 52 * (T * Z.abs (Q * b - a * T))) by ring.
  rewrite abs_scale by lia.
  replace (T * (Q * b - a * T)) with (Q * (b * T) - a * T * T) by ring.
  exact HB.
Qed.

(** The comparison of the two aspect ratios decides as on the exact
    fractions, up to equality. *)
Lemma ratio_order (w h tw th : Z) :
  1 <= w <= 2 ^ 25 -> 1 <= h <= 2 ^ 25 -> 1 <= tw <= 2 ^ 25 -> 1 <= th <= 2 ^ 25 ->
  let bg_ratio := (PyFloat.of_int w / PyFloat.of_int h)%float in
  let tgt_ratio := (PyFloat.of_int tw / PyFloat.of_int th)%float in
  ((tgt_ratio <? bg_ratio)%float = true -> tw * h <= w * th)
  /\ ((tgt_ratio <? bg_ratio)%float = false -> w * th <= tw * h).
Proof.
  intros Hw Hh Htw Hth bg_ratio tgt_ratio.
  assert (H2553 : 2 ^ 25 < 2 ^ 53) by (apply pow2_lt; lia).
  assert (HT : 0 < 2 ^ 1074) by (apply pow2_pos; lia).
  destruct (int_ratio w h ltac:(lia) ltac:(lia)) as [R1 [S1 B1]].
  destruct (int_ratio tw th ltac:(lia) ltac:(lia)) as [R2 [S2 B2]].
  fold bg_ratio in S1. fold tgt_ratio in S2.
  set (T := 2 ^ 1074) in *.
  assert (HT78 : 2 ^ 53 * 2 ^ 25 * 2 < T).
  { apply Z.lt_le_trans with (2 ^ 80); [reflexivity|].
    unfold T. apply pow2_le. lia. }
  assert (Hbig : forall R a b, 1 <= a -> 1 <= b <= 2 ^ 25 ->
            2 ^ 52 * Z.abs (R * b - a * T) <= a * T -> 2 ^ 53 <= R).
  { intros R a b Ha Hb HB.
    destruct (Z.le_gt_cases (2 ^ 53) R) as [|G]; [assumption | exfalso].
    assert (HRb : R * b <= 2 ^ 53 * 2 ^ 25).
    { destruct (Z.le_gt_cases 0 R).
      - apply Z.mul_le_mono_nonneg; lia.
      - assert (R * b <= 0) by (apply Z.mul_nonpos_nonneg; lia). lia. }
    assert (HaT : T <= a * T).
    { rewrite <- (Z.mul_1_l T) at 1. apply Z.mul_le_mono_nonneg_r; lia. }
    set (RB := R * b) in *. set (AT := a * T) in *.
    clearbody RB AT T. clear - HB HRb HaT HT78 HT. lia. }
  pose proof (Hbig R1 w h ltac:(lia) ltac:(lia) B1) as HR1.
  pose proof (Hbig R2 tw th ltac:(lia) ltac:(lia) B2) as HR2.
  rewrite (ltb_scaled tgt_ratio bg_ratio R2 R1 S2 S1 HR2 HR1).
  (* both bounds brought to the common denominator h * th *)
  assert (C1 : 2 ^ 52 * Z.abs (R1 * (h * th) - (w * th) * T) <= (w * th) * T).
  { replace (R1 * (h * th) - w * th * T) with (th * (R1 * h - w * T)) by ring.
    rewrite <- abs_scale by lia.
    replace (2 ^ 52 * (th * Z.abs (R1 * h - w * T)))
      with (th * (2 ^ 52 * Z.abs (R1 * h - w * T))) by ring.
    replace (w * th * T) with (th * (w * T)) by ring.
    apply Z.mul_le_mono_nonneg_l; lia. }
  assert (C2 : 2 ^ 52 * Z.abs (R2 * (h * th) - (tw * h) * T) <= (tw * h) * T).
  { replace (R2 * (h * th) - tw * h * T) with (h * (R2 * th - tw * T)) by ring.
    rewrite <- abs_scale by lia.
    replace (2 ^ 52 * (h * Z.abs (R2 * th - tw * T)))
      with (h * (2 ^ 52 * Z.abs (R2 * th - tw * T))) by ring.
    replace (tw * h * T) with (h * (tw * T)) by ring.
    apply Z.mul_le_mono_nonneg_l; lia. }
  assert (Hhth : 0 < h * th) by (apply Z.mul_pos_pos; lia).
  assert (HM : 1 <= w * th <= 2 ^ 50).
  { change (2 ^ 50) with (2 ^ 25 * 2 ^ 25). split; [|apply Z.mul_le_mono_nonneg; lia].
    change 1 with (1 * 1). apply Z.mul_le_mono_nonneg; lia. }
  assert (HN : 1 <= tw * h <= 2 ^ 50).
  { change (2 ^ 50) with (2 ^ 25 * 2 ^ 25). split; [|apply Z.mul_le_mono_nonneg; lia].
    change 1 with (1 * 1). apply Z.mul_le_mono_nonneg; lia. }
  set (M := w * th) in *. set (N := tw * h) in *.
  assert (HMT : M * T <= 2 ^ 50 * T) by (apply Z.mul_le_mono_nonneg_r; lia).
  assert (HNT : N * T <= 2 ^ 50 * T) by (apply Z.mul_le_mono_nonneg_r; lia).
  split; intros Hlt.
  - apply Z.ltb_lt in Hlt.
    destruct (Z.le_gt_cases N M) as [|G]; [assumption | exfalso].
    assert (HA : R2 * (h * th) < R1 * (h * th)) by (apply Z.mul_lt_mono_pos_r; lia).
    assert (Hsep : M * T + T <= N * T).
    { replace (M * T + T) with ((M + 1) * T) by ring.
      apply Z.mul_le_mono_nonneg_r; lia. }
    set (A1 := R1 * (h * th)) in *. set (A2 := R2 * (h * th)) in *.
    set (MT := M * T) in *. set (NT := N * T) in *.
    clearbody A1 A2 MT NT T. clear - C1 C2 HA Hsep HMT HNT HT. lia.
  - apply Z.ltb_ge in Hlt.
    destruct (Z.le_gt_cases M N) as [|G]; [assumption | exfalso].
    assert (HA : R1 * (h * th) <= R2 * (h * th)) by (apply Z.mul_le_mono_nonneg_r; lia).
    assert (Hsep : N * T + T <= M * T).
    { replace (N * T + T) with ((N + 1) * T) by ring.
      apply Z.mul_le_mono_nonneg_r; lia. }
    set (A1 := R1 * (h * th)) in *. set (A2 := R2 * (h * th)) in *.
    set (MT := M * T) in *. set (NT := N * T) in *.
    clearbody A1 A2 MT NT T. clear - C1 C2 HA Hsep HMT HNT HT. lia.
Qed.

(** One side of the resized background: [round(u * (t / v))] is at least
    [s] when the exact fraction [u * t / v] is, and it is the exact fraction
    to within one pixel. *)
Lemma scale_covers (u v t s : Z) :
  1 <= u <= 2 ^ 25 -> 1 <= v <= 2 ^ 25 -> 1 <= t <= 2 ^ 25 -> 1 <= s <= 2 ^ 25 ->
  s * v <= u * t ->
  exists r,
    PyFloat.round (PyFloat.of_int u * (PyFloat.of_int t / PyFloat.of_int v))%float
    = Ok r
    /\ s <= r /\ Z.abs (r * v - u * t) <= v.
Proof.
  intros Hu Hv Ht Hs Hcov.
  assert (H2553 : 2 ^ 25 < 2 ^ 53) by (apply pow2_lt; lia).
  assert (HT : 0 < 2 ^ 1074) by (apply pow2_pos; lia).
  destruct (int_ratio t v ltac:(lia) ltac:(lia)) as [Q [SQ BQ]].
  pose proof (scaled_of_int u ltac:(lia)) as Su. fold (scaled (PyFloat.of_int u)) in Su.
  assert (E1127 : 2 ^ 1127 = 2 ^ 53 * 2 ^ 1074) by (rewrite <- Z.pow_add_r by lia; f_equal).
  assert (E1100 : 2 ^ 1100 = 2 ^ 26 * 2 ^ 1074) by (rewrite <- Z.pow_add_r by lia; f_equal).
  assert (E1074 : 2 ^ 1074 = 2 ^ 1000 * 2 ^ 26 * 2 ^ 48)
    by (rewrite <- !Z.pow_add_r by lia; f_equal).
  assert (H1130 : 2 ^ 1100 < 2 ^ 1130) by (apply pow2_lt; lia).
  assert (H1000 : 0 < 2 ^ 1000) by (apply pow2_pos; lia).
  set (T := 2 ^ 1074) in *.
  assert (HuT : T <= u * T < 2 ^ 1127).
  { rewrite E1127. split; [|apply Z.mul_lt_mono_pos_r; lia].
    rewrite <- (Z.mul_1_l T) at 1. apply Z.mul_le_mono_nonneg_r; lia. }
  assert (HtT : T <= t * T <= 2 ^ 25 * T).
  { split; [|apply Z.mul_le_mono_nonneg_r; lia].
    rewrite <- (Z.mul_1_l T) at 1. apply Z.mul_le_mono_nonneg_r; lia. }
  assert (HQ : 2 ^ 1000 <= Q < 2 ^ 1130).
  { split.
    - destruct (Z.le_gt_cases (2 ^ 1000) Q) as [|G]; [assumption | exfalso].
      assert (HQv : Q * v <= 2 ^ 1000 * 2 ^ 25).
      { destruct (Z.le_gt_cases 0 Q).
        - apply Z.mul_le_mono_nonneg; lia.
        - assert (Q * v <= 0) by (apply Z.mul_nonpos_nonneg; lia). lia. }
      set (QV := Q * v) in *. set (TT := t * T) in *. set (P0 := 2 ^ 1000) in *.
      clearbody QV TT P0 T. clear - BQ HQv HtT E1074 H1000. nia.
    - apply Z.le_lt_trans with (2 ^ 1100); [|exact H1130].
      rewrite E1100.
      destruct (Z.le_gt_cases Q (2 ^ 26 * T)) as [|G]; [assumption | exfalso].
      assert (HQv : 2 ^ 26 * T * 1 < Q * v) by (apply Z.mul_lt_mono_nonneg; lia).
      set (QV := Q * v) in *. set (TT := t * T) in *.
      clearbody QV TT T. clear - BQ HQv HtT. lia. }
  destruct (mul_weak (PyFloat.of_int u) _ _ Q Su SQ HuT HQ) as [P [SP BP]].
  fold T in BP.
  assert (HP0 : 0 <= P).
  { destruct (Z.le_gt_cases 0 P) as [|G]; [assumption | exfalso].
    assert (0 < u * T * Q).
    { apply Z.mul_pos_pos; [apply Z.mul_pos_pos; [clear - Hu; lia | exact HT]|].
      clear - HQ H1000. lia. }
    assert (P * T <= 0) by (apply Z.mul_nonpos_nonneg; lia).
    set (PT := P * T) in *. set (XY := u * T * Q) in *.
    clearbody PT XY. clear - BP H H0. lia. }
  destruct (round_near _ P SP HP0) as [r [Hr Br]]. fold T in Br.
  exists r. split; [exact Hr|].
  (* everything over the common factor v * T *)
  set (a2 := u * Q * v). set (KT := u * t * T). set (a3 := P * v).
  assert (C1 : 2 ^ 52 * Z.abs (a2 - KT) <= KT).
  { unfold a2, KT. replace (u * Q * v - u * t * T) with (u * (Q * v - t * T)) by ring.
    rewrite <- abs_scale by lia.
    replace (2 ^ 52 * (u * Z.abs (Q * v - t * T)))
      with (u * (2 ^ 52 * Z.abs (Q * v - t * T))) by ring.
    replace (u * t * T) with (u * (t * T)) by ring.
    apply Z.mul_le_mono_nonneg_l; lia. }
  assert (C2 : 2 ^ 52 * Z.abs (a3 * T - a2 * T) <= a2 * T).
  { unfold a3, a2.
    replace (P * v * T - u * Q * v * T) with (v * (P * T - u * T * Q)) by ring.
    rewrite <- abs_scale by lia.
    replace (2 ^ 52 * (v * Z.abs (P * T - u * T * Q)))
      with (v * (2 ^ 52 * Z.abs (P * T - u * T * Q))) by ring.
    replace (u * Q * v * T) with (v * (u * T * Q)) by ring.
    apply Z.mul_le_mono_nonneg_l; lia. }
  assert (C2' : 2 ^ 52 * Z.abs (a3 - a2) <= a2).
  { apply Z.mul_le_mono_pos_r with (p := T); [exact HT|].
    replace (2 ^ 52 * Z.abs (a3 - a2) * T) with (2 ^ 52 * (T * Z.abs (a3 - a2))) by ring.
    rewrite abs_scale by lia.
    replace (T * (a3 - a2)) with (a3 * T - a2 * T) by ring. exact C2. }
  assert (C3 : Z.abs (2 * (r * v * T) - 2 * a3) <= v * T).
  { unfold a3. replace (2 * (r * v * T) - 2 * (P * v)) with (v * (2 * (r * T) - 2 * P)) by ring.
    rewrite <- abs_scale by lia. apply Z.mul_le_mono_nonneg_l; lia. }
  assert (HK : 1 <= u * t <= 2 ^ 50).
  { change (2 ^ 50) with (2 ^ 25 * 2 ^ 25). split; [|apply Z.mul_le_mono_nonneg; lia].
    change 1 with (1 * 1). apply Z.mul_le_mono_nonneg; lia. }
  assert (HKT : KT <= 2 ^ 50 * T) by (unfold KT; apply Z.mul_le_mono_nonneg_r; lia).
  assert (HVT : T <= v * T).
  { rewrite <- (Z.mul_1_l T) at 1. apply Z.mul_le_mono_nonneg_r; lia. }
  assert (HSV : s * v * T <= KT) by (unfold KT; apply Z.mul_le_mono_nonneg_r; lia).
  assert (HSV' : s * (v * T) <= 2 ^ 25 * (v * T)).
  { apply Z.mul_le_mono_nonneg_r; [clear - HVT HT; lia | clear - Hs; lia]. }
  split.
  - destruct (Z.le_gt_cases s r) as [|G]; [assumption | exfalso].
    assert (HR : r * v * T + v * T <= s * v * T).
    { replace (r * v * T + v * T) with ((r + 1) * (v * T)) by ring.
      replace (s * v * T) with (s * (v * T)) by ring.
      apply Z.mul_le_mono_nonneg_r; [clear - HVT HT; lia | clear - G; lia]. }
    replace (s * (v * T)) with (s * v * T) in HSV' by ring.
    set (RT := r * v * T) in *. set (VT := v * T) in *. set (SVT := s * v * T) in *.
    clearbody RT VT SVT a2 a3 KT T.
    clear - C1 C2' C3 HKT HVT HSV HSV' HR HT. lia.
  - assert (Hgoal : Z.abs (r * v * T - KT) < v * T + T).
    { set (RT := r * v * T) in *. set (VT := v * T) in *.
      clearbody RT VT a2 a3 KT T.
      clear - C1 C2' C3 HKT HVT HT. lia. }
    unfold KT in Hgoal.
    replace (r * v * T - u * t * T) with (T * (r * v - u * t)) in Hgoal by ring.
    rewrite <- abs_scale in Hgoal by lia.
    replace (v * T + T) with (T * (v + 1)) in Hgoal by ring.
    apply Z.mul_lt_mono_pos_l in Hgoal; lia.
Qed.

(** X20. Cover mode covers: for a background and a target of at most 2^25
    pixels a side, the size computed for the resized background never
    raises, is at least the target on both axes and equal to it on one, and
    keeps the aspect ratio of the background to within one pixel; the
    centre-crop box therefore lies inside the resized background, and no
    strip of the canvas is left uncovered. The comparison of the two aspect
    ratios, the quotient and the product are carried out in binary64. *)
Theorem cover_size_covers (bg : image) (tw th : Z) :
  1 <= width bg <= 2 ^ 25 -> 1 <= height bg <= 2 ^ 25 ->
  1 <= tw <= 2 ^ 25 -> 1 <= th <= 2 ^ 25 ->
  exists sw sh,
    cover_size bg tw th = Ok (sw, sh)
    /\ tw <= sw /\ th <= sh /\ (sw = tw \/ sh = th)
    /\ Z.abs (sw * height bg - width bg * sh) <= Z.max (width bg) (height bg)
    /\ (0 <= (sw - tw) / 2 /\ (sw - tw) / 2 + tw <= sw)
    /\ (0 <= (sh - th) / 2 /\ (sh - th) / 2 + th <= sh).
Proof.
  intros Hw Hh Htw Hth.
  assert (Hcrop : forall a b, b <= a -> 0 <= (a - b) / 2 /\ (a - b) / 2 + b <= a).
  { intros a b Hab. pose proof (Z.div_mod (a - b) 2 ltac:(lia)) as Hdm.
    pose proof (Z.mod_pos_bound (a - b) 2 ltac:(lia)) as Hmb. lia. }
  destruct (ratio_order (width bg) (height bg) tw th Hw Hh Htw Hth) as [Ht Hf].
  unfold cover_size, true_div.
  assert (E1 : (height bg =? 0) = false) by (apply Z.eqb_neq; lia).
  assert (E2 : (th =? 0) = false) by (apply Z.eqb_neq; lia).
  assert (E3 : (width bg =? 0) = false) by (apply Z.eqb_neq; lia).
  rewrite ?E1, ?E2, ?E3. cbn [bind].
  destruct (PyFloat.of_int tw / PyFloat.of_int th <? PyFloat.of_int (width bg) / PyFloat.of_int (height bg))%float.
  - specialize (Ht eq_refl).
    destruct (scale_covers (width bg) (height bg) th tw Hw Hh Hth Htw Ht)
      as [r [Hr [Hge Hasp]]].
    rewrite Hr. cbn [bind]. exists r, th.
    split; [reflexivity|]. split; [exact Hge|]. split; [lia|]. split; [now right|].
    split; [lia|]. split; apply Hcrop; lia.
  - specialize (Hf eq_refl).
    assert (Hf' : th * width bg <= height bg * tw) by lia.
    destruct (scale_covers (height bg) (width bg) tw th Hh Hw Htw Hth Hf')
      as [r [Hr [Hge Hasp]]].
    rewrite Hr. cbn [bind]. exists tw, r.
    split; [reflexivity|]. split; [lia|]. split; [exact Hge|]. split; [now left|].
    split; [|split; apply Hcrop; lia].
    replace (tw * height bg - width bg * r) with (- (r * width bg - height bg * tw)) by ring.
    rewrite Z.abs_opp. lia.
Qed.

Lemma cover_size_covers_witness :
  exists sw sh,
    cover_size opaque_bg 3 7 = Ok (sw, sh)
    /\ 3 <= sw /\ 7 <= sh /\ (sw = 3 \/ sh = 7)
    /\ Z.abs (sw * height opaque_bg - width opaque_bg * sh)
       <= Z.max (width opaque_bg) (height opaque_bg)
    /\ (0 <= (sw - 3) / 2 /\ (sw - 3) / 2 + 3 <= sw)
    /\ (0 <= (sh - 7) / 2 /\ (sh - 7) / 2 + 7 <= sh).
Proof.
  apply (cover_size_covers opaque_bg 3 7).
  - vm_compute. split; intro; discriminate.
  - vm_compute. split; intro; discriminate.
  - lia.
  - lia.
Defined.
